(** * schemator: JSON Schema generation helpers, import-path resolution

    A shallow embedding of package [schemator] (the generator, the
    import-path inference, the dependent-package walk over [reflect] types and
    the comment sanitizer) together with the properties its specification
    states about them.

    Layout: part I holds the embedding (Go library models first, then the
    functions of the package in source order of dependency); part II holds
    the lemmas and the theorems. *)

From Stdlib Require Import Ascii String NArith Lia List.
From stdpp Require Import gmap strings list sorting.

Local Open Scope N_scope.
Local Open Scope nat_scope.

(* ===================================================================== *)
(** * Part I: the embedding                                               *)
(* ===================================================================== *)

(** ** Package [strings] (the functions the source uses)

    A Go string is a sequence of bytes: [string].  White space is what
    [unicode.IsSpace] accepts.  The functions below find a white-space rune
    by its UTF-8 encoding at the current byte and otherwise advance one
    byte.  This agrees with Go's rune-wise decoding: every byte of an
    encoded white-space rune after its first is a continuation byte
    (0x80..0xBF), no encoding of a white-space rune starts with one, and
    an invalid byte is consumed alone. *)
Module strings.

Definition code (b : ascii) : N := N_of_ascii b.

(** [asciiSpace]: '\t', '\n', '\v', '\f', '\r', ' '. *)
Definition asciiSpace (b : ascii) : bool :=
  ((9 <=? code b) && (code b <=? 13) || (code b =? 32))%N.

(** U+0085 (NEL) and U+00A0 (NBSP). *)
Definition space2 (b0 b1 : ascii) : bool :=
  ((code b0 =? 0xC2) && ((code b1 =? 0x85) || (code b1 =? 0xA0)))%N.

(** U+1680, U+2000..U+200A, U+2028, U+2029, U+202F, U+205F, U+3000. *)
Definition space3 (b0 b1 b2 : ascii) : bool :=
  (((code b0 =? 0xE1) && (code b1 =? 0x9A) && (code b2 =? 0x80))
   || ((code b0 =? 0xE2) && (code b1 =? 0x80)
       && (((0x80 <=? code b2) && (code b2 <=? 0x8A))
           || (code b2 =? 0xA8) || (code b2 =? 0xA9) || (code b2 =? 0xAF)))
   || ((code b0 =? 0xE2) && (code b1 =? 0x81) && (code b2 =? 0x9F))
   || ((code b0 =? 0xE3) && (code b1 =? 0x80) && (code b2 =? 0x80)))%N.

(** The white-space rune encoded at the head of [s], with what follows it. *)
Definition cutSpace (s : string) : option (string * string) :=
  match s with
  | String b0 r0 =>
    if asciiSpace b0 then Some (String b0 "", r0)
    else match r0 with
         | String b1 r1 =>
           if space2 b0 b1 then Some (String b0 (String b1 ""), r1)
           else match r1 with
                | String b2 r2 =>
                  if space3 b0 b1 b2
                  then Some (String b0 (String b1 (String b2 "")), r2)
                  else None
                | "" => None
                end
         | "" => None
         end
  | "" => None
  end.

(** A string seen as white-space runes [Sp] and other bytes [Ch]. *)
Inductive tok := Sp (w : string) | Ch (b : ascii).

Fixpoint tokens_fuel (n : nat) (s : string) : list tok :=
  match n with
  | O => []
  | S n' =>
    match cutSpace s with
    | Some (w, r) => Sp w :: tokens_fuel n' r
    | None =>
      match s with
      | "" => []
      | String b r => Ch b :: tokens_fuel n' r
      end
    end
  end.

Definition tokens (s : string) : list tok := tokens_fuel (String.length s) s.

Fixpoint detok (ts : list tok) : string :=
  match ts with
  | [] => ""
  | Sp w :: r => w +:+ detok r
  | Ch b :: r => String b (detok r)
  end.

Definition isSp (t : tok) : bool :=
  match t with Sp _ => true | Ch _ => false end.

Fixpoint dropSp (ts : list tok) : list tok :=
  match ts with
  | Sp _ :: r => dropSp r
  | _ => ts
  end.

(** [strings.TrimSpace]: the string without leading and trailing white space. *)
Definition TrimSpace (s : string) : string :=
  detok (rev (dropSp (rev (dropSp (tokens s))))).

Definition consField (f : string) (fs : list string) : list string :=
  match f with "" => fs | _ => f :: fs end.

(** The bytes up to the first white space, and the fields after it. *)
Fixpoint spanCh (ts : list tok) : string * list string :=
  match ts with
  | [] => ("", [])
  | Sp _ :: r => let '(f, fs) := spanCh r in ("", consField f fs)
  | Ch b :: r => let '(f, fs) := spanCh r in (String b f, fs)
  end.

Definition fieldsT (ts : list tok) : list string :=
  let '(f, fs) := spanCh ts in consField f fs.

(** [strings.Fields]: the maximal runs of bytes that hold no white space. *)
Definition Fields (s : string) : list string := fieldsT (tokens s).

(** [strings.Join]. *)
Definition Join (elems : list string) (sep : string) : string :=
  String.concat sep elems.

(** [strings.HasPrefix] and [strings.HasSuffix]. *)
Definition HasPrefix (s p : string) : bool := String.prefix p s.
Definition HasSuffix (s p : string) : bool :=
  String.prefix (String.rev p) (String.rev s).

(** [strings.IndexByte]; [None] stands for -1. *)
Fixpoint IndexByte (s : string) (c : ascii) : option nat :=
  match s with
  | "" => None
  | String b r => if Ascii.eqb b c then Some 0 else S <$> IndexByte r c
  end.

(** [strings.Split] for a separator of one byte, the one use in the source. *)
Fixpoint Split (s : string) (sep : ascii) : list string :=
  match s with
  | "" => [""]
  | String b r =>
    if Ascii.eqb b sep then "" :: Split r sep
    else match Split r sep with
         | f :: fs => String b f :: fs
         | [] => [String b ""]
         end
  end.

(** Continuation bytes of UTF-8. *)
Definition isCont (b : ascii) : bool :=
  ((0x80 <=? code b) && (code b <=? 0xBF))%N.

(** What may follow a run of non-space bytes: nothing, or a byte that
    starts a rune. *)
Definition safeCtx (c : string) : bool :=
  match c with
  | "" => true
  | String b _ => negb (isCont b)
  end.

(** A run of non-space bytes as tokens. *)
Fixpoint Chs (f : string) : list tok :=
  match f with
  | "" => []
  | String b r => Ch b :: Chs r
  end.

(** The tokens of fields joined by single spaces. *)
Fixpoint interTok (fs : list string) : list tok :=
  match fs with
  | [] => []
  | f :: rest =>
    match rest with
    | [] => Chs f
    | _ :: _ => Chs f ++ Sp " " :: interTok rest
    end
  end.

(** Every white-space rune is one space (U+0020) with a non-space byte
    on either side. *)
Fixpoint singleSpaced (ts : list tok) : bool :=
  match ts with
  | [] => true
  | Sp _ :: _ => false
  | Ch _ :: r =>
    match r with
    | Sp w :: r' =>
      match r' with
      | Ch _ :: _ => String.eqb w " " && singleSpaced r'
      | _ => false
      end
    | _ => singleSpaced r
    end
  end.

Definition Collapsed (s : string) : Prop := singleSpaced (tokens s) = true.

(** A field: not empty, and its bytes are no white space whatever rune
    follows. *)
Definition fieldOK (f : string) : Prop :=
  f <> "" /\ forall c, safeCtx c = true -> tokens (f +:+ c) = Chs f ++ tokens c.

End strings.

(** ** Errors and results

    One constructor for each error the package builds itself, and two for
    the errors it receives from the operating system, a subprocess or a
    library: [ErrNotExist] are those for which
    [errors.Is(err, os.ErrNotExist)] holds. *)
Inductive error : Type :=
| ErrNotExist (what : string)
| ErrExternal (what : string)
| ErrTooLong
| ErrRel (basepath targpath : string)
| ErrGoListFailed (importPath : string) (cause : error) (output : string)
| ErrGoListEmptyOutput (importPath : string)
| ErrGoModNotFound (startDir : string)
| ErrInvalidModuleDirective (line : string)
| ErrModuleDirectiveNotFound
| ErrNoGoSourceFiles (dir : string)
| ErrMissingModuleImportPathAt (i : nat)
| ErrResolveSourceDirectory (importPath : string) (cause : error)
| ErrGoListEmptyDirectory (importPath : string)
| ErrMissingModuleImportPath
| ErrSourceDirectoryEmpty (importPath : string).

Definition isNotExist (e : error) : bool :=
  match e with ErrNotExist _ => true | _ => false end.

Inductive result (A : Type) : Type :=
| Ok (a : A)
| Err (e : error).
Arguments Ok {A} a.
Arguments Err {A} e.

Definition isErr {A} (r : result A) : bool :=
  match r with Err _ => true | Ok _ => false end.

(** ** Packages [path] and [path/filepath] (Unix)

    [Clean] works on the components between slashes: it drops empty and
    "." components, lets ".." remove the component before it, drops ".."
    at the root and keeps it at the head of a relative path. *)
Module path.

Definition canBacktrack (stack : list string) : bool :=
  match stack with
  | top :: _ => negb (String.eqb top "..")
  | [] => false
  end.

Definition cleanStep (rooted : bool) (stack : list string) (c : string)
  : list string :=
  if String.eqb c "" then stack
  else if String.eqb c "." then stack
  else if String.eqb c ".." then
    if canBacktrack stack then tail stack
    else if rooted then stack else c :: stack
  else c :: stack.

Definition Clean (p : string) : string :=
  if String.eqb p "" then "."
  else
    let rooted := strings.HasPrefix p "/" in
    let stack := fold_left (cleanStep rooted) (strings.Split p "/") [] in
    let body := strings.Join (rev stack) "/" in
    if rooted then "/" +:+ body
    else if String.eqb body "" then "." else body.

(** [Join]: the elements from the first non-empty one on, joined by
    slashes and cleaned; "" when all are empty. *)
Fixpoint Join (elem : list string) : string :=
  match elem with
  | [] => ""
  | e :: rest =>
    if String.eqb e "" then Join rest else Clean (strings.Join elem "/")
  end.

Fixpoint dropEmpty (cs : list string) : list string :=
  match cs with
  | c :: r => if String.eqb c "" then dropEmpty r else cs
  | [] => []
  end.

(** The length of the elements joined by slashes, plus one. *)
Definition weight (l : list string) : nat :=
  fold_right (fun c n => S (String.length c) + n) 0 l.

(** [Base]: the last element, trailing slashes removed first. *)
Definition Base (p : string) : string :=
  if String.eqb p "" then "."
  else match dropEmpty (rev (strings.Split p "/")) with
       | c :: _ => c
       | [] => "/"
       end.

End path.

Module filepath.

Definition Clean : string -> string := path.Clean.
Definition Join : list string -> string := path.Join.
Definition IsAbs (p : string) : bool := strings.HasPrefix p "/".
(** The separator is the slash already. *)
Definition ToSlash (p : string) : string := p.

Fixpoint hasSlash (s : string) : bool :=
  match s with
  | "" => false
  | String b r => Ascii.eqb b "/" || hasSlash r
  end.

(** The part of [s] up to and including its last slash. *)
Fixpoint dirPrefix (s : string) : string :=
  match s with
  | "" => ""
  | String b r => if hasSlash s then String b (dirPrefix r) else ""
  end.

Definition Dir (p : string) : string := Clean (dirPrefix p).

(** The directory [n] levels above [p]. *)
Definition ancestor (n : nat) (p : string) : string := Nat.iter n Dir p.

(** A bound on the number of directories from [p] up to the one that is
    its own parent. *)
Definition height (p : string) : nat :=
  if hasSlash p then 2 + String.length p
  else if String.eqb p "." then 1 else 2.

(** The elements [Rel] compares: those of a cleaned path, where the root
    "/" counts as the one empty element before its slash. *)
Definition relElems (p : string) : list string :=
  if String.eqb p "" then []
  else if String.eqb p "/" then [""]
  else strings.Split p "/".

Fixpoint stripCommon (b t : list string) : list string * list string :=
  match b, t with
  | x :: b', y :: t' =>
    if String.eqb x y then stripCommon b' t' else (b, t)
  | _, _ => (b, t)
  end.

Definition Rel (basepath targpath : string) : result string :=
  let base := Clean basepath in
  let targ := Clean targpath in
  if String.eqb targ base then Ok "."
  else
    let base := if String.eqb base "." then "" else base in
    if negb (Bool.eqb (strings.HasPrefix base "/") (strings.HasPrefix targ "/"))
    then Err (ErrRel basepath targpath)
    else
      let '(b, t) := stripCommon (relElems base) (relElems targ) in
      match b, t with
      | ".." :: _, _ :: _ => Err (ErrRel basepath targpath)
      | [], _ => Ok (strings.Join t "/")
      | _ :: _, _ => Ok (strings.Join (map (fun _ => "..") b ++ t) "/")
      end.

End filepath.

(** ** Package [reflect]: run-time type descriptors

    A [reflect.Type] is identified by its [tid] (two [reflect.Type] values
    are equal exactly when they denote the same type), and a type table gives
    each its name, package path and shape.  Go types may refer to themselves
    ([type Node struct { Next *Node }], [type P *P]), hence a table rather
    than a tree. *)
Module reflect.

Definition tid := nat.

Inductive basic :=
| kBool | kInt | kInt8 | kInt16 | kInt32 | kInt64
| kUint | kUint8 | kUint16 | kUint32 | kUint64 | kUintptr
| kFloat32 | kFloat64 | kComplex64 | kComplex128 | kString | kUnsafePointer.

(** [Kind()] together with what [Elem()], [Key()] and [Field(i).Type]
    return for that kind. *)
Inductive shape :=
| Basic (k : basic)
| Pointer (elem : tid)
| Slice (elem : tid)
| Array (len : nat) (elem : tid)
| Map (key elem : tid)
| Struct (fields : list tid)
| Chan (elem : tid)
| Func (ins outs : list tid)
| Interface.

Record rtype := { Name : string; PkgPath : string; Shape : shape }.

Definition types := tid -> rtype.

(** A value of type [any]: [None] is the nil interface, [Some t] a value
    whose dynamic type is [t]. *)
Definition any := option tid.
Definition TypeOf (x : any) : option tid := x.

End reflect.

Import reflect.

(** ** The environment: operating system, subprocesses and libraries

    Every call that leaves the package is recorded in a trace, and answered
    by the environment as a function of the calls made so far. *)
Inductive event :=
| EvGetwd
| EvChdir (dir : string)
| EvReadFile (name : string)
| EvReadDir (dir : string)
| EvParseFile (filename : string)
| EvStat (name : string)
| EvGoList (importPath workDir : string)
| EvAddGoComments (importPath dir : string)
| EvReflect (model : any)
| EvMkdirAll (dir : string)
| EvCreate (name : string)
| EvFprintln (name : string) (data : string).

Definition trace := list event.

Record DirEntry := { entryName : string; entryIsDir : bool }.

Abbreviation CommentMap := (option (gmap string string)).

(** [jsonschema.Reflector], the fields the package sets. *)
Record Reflector := {
  ExpandedStruct : bool;
  AllowAdditionalProperties : bool;
  rCommentMap : CommentMap
}.

Record Env := {
  Schema : Type;
  os_Getwd : trace -> result string;
  os_Chdir : trace -> string -> option error;
  os_ReadFile : trace -> string -> result string;
  os_ReadDir : trace -> string -> result (list DirEntry);
  os_Stat : trace -> string -> option error;
  os_MkdirAll : trace -> string -> option error;
  os_Create : trace -> string -> option error;
  fmt_Fprintln : trace -> string -> string -> option error;
  (** [parser.ParseFile] with [PackageClauseOnly]: the package name. *)
  parser_ParseFile : trace -> string -> result string;
  (** [go list -f "{{.Dir}}\t{{.Standard}}" importPath] run in [workDir]:
      the combined output and the error of the command. *)
  go_list : trace -> string -> string -> string * option error;
  jsonschema_AddGoComments :
    trace -> CommentMap -> string -> string -> result CommentMap;
  jsonschema_Reflect : trace -> Reflector -> any -> Schema;
  json_MarshalIndent : Schema -> result string;
  token_IsExported : string -> bool
}.

(** ** Computations: state, errors, and running forever

    [None] is a computation that does not return. *)
Definition M (S A : Type) : Type := S -> option (result A * S).

Definition ret {S A} (a : A) : M S A := fun s => Some (Ok a, s).
Definition fail {S A} (e : error) : M S A := fun s => Some (Err e, s).
Definition diverge {S A} : M S A := fun _ => None.
Definition bind {S A B} (c : M S A) (k : A -> M S B) : M S B :=
  fun s =>
    match c s with
    | Some (Ok a, s') => k a s'
    | Some (Err e, s') => Some (Err e, s')
    | None => None
    end.

Notation "'let*' x := c 'in' k" := (bind c (fun x => k))
  (at level 10, x pattern, c at level 100, k at level 200).

Definition liftR {S A} (r : result A) : M S A :=
  match r with Ok a => ret a | Err e => fail e end.
Definition liftO {S A} (o : option A) : M S A :=
  match o with Some a => ret a | None => diverge end.
Definition liftE {S} (o : option error) : M S unit :=
  match o with Some e => fail e | None => ret tt end.

(** A call to the environment: answered from the trace so far, then
    recorded. *)
Definition call {A} (ev : event) (f : trace -> A) : M trace A :=
  fun tr => Some (Ok (f tr), tr ++ [ev]).

(** The outcomes of a computation: it returns an error, it returns. *)
Definition failed {S A} (o : option (result A * S)) : Prop :=
  exists e s, o = Some (Err e, s).
Definition returns {S A} (c : M S A) : Prop :=
  forall s, exists r s', c s = Some (r, s').

(** Every outcome of [c] is related to the state it started from. *)
Definition preserves {S A} (R : S -> S -> Prop) (c : M S A) : Prop :=
  forall s r s', c s = Some (r, s') -> R s s'.

(** The calls that harvest comments or reflect the model. *)
Definition isHarvest (ev : event) : bool :=
  match ev with
  | EvAddGoComments _ _ | EvReflect _ => true
  | _ => false
  end.

(** [tr'] is [tr] followed by calls that neither harvest nor reflect. *)
Definition quiet (tr tr' : trace) : Prop :=
  exists evs, tr' = tr ++ evs /\ Forall (fun ev => isHarvest ev = false) evs.

(** The calls that write to the file system. *)
Definition isWrite (ev : event) : bool :=
  match ev with
  | EvMkdirAll _ | EvCreate _ | EvFprintln _ _ => true
  | _ => false
  end.

(** [tr'] is [tr] followed by calls of the class [P]. *)
Definition extendsBy (P : event -> bool) (tr tr' : trace) : Prop :=
  exists evs, tr' = tr ++ evs /\ forallb P evs = true.

Definition noWrite (ev : event) : bool := negb (isWrite ev).

(** The calls that find where a package is: reading go.mod files and
    directories, parsing a package clause, and running [go list]. *)
Definition isResolve (ev : event) : bool :=
  match ev with
  | EvReadFile _ | EvReadDir _ | EvParseFile _ | EvGoList _ _ => true
  | _ => false
  end.

Definition noResolve (ev : event) : bool := negb (isResolve ev).

Definition isCreate (ev : event) : bool :=
  match ev with
  | EvCreate _ => true
  | _ => false
  end.

(** The outcome of [c] as a value: [v, err := c()] without [return err]. *)
Definition attempt {S A} (c : M S A) : M S (result A) :=
  fun s =>
    match c s with
    | Some (r, s') => Some (Ok r, s')
    | None => None
    end.

(** [defer d] around [c]: [d] runs when [c] returns, its outcome dropped. *)
Definition finally {S A B} (c : M S A) (d : M S B) : M S A :=
  fun s =>
    match c s with
    | Some (r, s') =>
      match d s' with
      | Some (_, s'') => Some (r, s'')
      | None => None
      end
    | None => None
    end.

(** ** Package [schemator] *)

Record ImportPath := {
  ModuleImportPath : string;
  SourceDirectory : string
}.

(** [generator]; its context only carries the logger and the cancellation
    of the subprocesses, which the environment decides here. *)
Record generator := {
  filesThatMustExist : list string;
  importPaths : list ImportPath
}.

Definition sanitizeCommentText (text : string) : string :=
  if String.eqb text "" then text
  else strings.Join (strings.Fields text) " ".

(** The loop ranges over the entries of [m] and assigns to [m] only under
    keys it already has. *)
Definition sanitizeCommentMap (m : CommentMap) : CommentMap :=
  match m with
  | None => None
  | Some m =>
    Some (map_fold
            (fun k v (acc : gmap string string) =>
               let sanitized := sanitizeCommentText v in
               if negb (String.eqb sanitized v)
               then <[k := sanitized]> acc else acc)
            m m)
  end.

(** [bufio.Scanner] with [ScanLines] over the whole input: the lines it
    yields (without the newline and one carriage return before it), and
    [ErrTooLong] at the first line that does not fit its 64 KiB buffer. *)
Definition dropCR (l : string) : string :=
  if strings.HasSuffix l (String "013" "")
  then String.substring 0 (String.length l - 1) l else l.

Fixpoint scanTokens (ls : list string) : list string * option error :=
  match ls with
  | [] => ([], None)
  | l :: r =>
    if (65535 <? N.of_nat (String.length l))%N then ([], Some ErrTooLong)
    else let '(ls', e) := scanTokens r in (dropCR l :: ls', e)
  end.

Definition scanLines (contents : string) : list string * option error :=
  let ls := strings.Split contents "010" in
  scanTokens (match rev ls with
              | "" :: r => rev r
              | _ => ls
              end).

Fixpoint parseModuleLines (lines : list string) (scanErr : option error)
  : result string :=
  match lines with
  | [] =>
    match scanErr with
    | Some err => Err err
    | None => Err ErrModuleDirectiveNotFound
    end
  | text :: rest =>
    let line := strings.TrimSpace text in
    if strings.HasPrefix line "module " then
      match strings.Fields line with
      | _ :: f1 :: _ => Ok f1
      | _ => Err (ErrInvalidModuleDirective line)
      end
    else parseModuleLines rest scanErr
  end.

Definition parseModuleDirective (contents : string) : result string :=
  let '(lines, err) := scanLines contents in parseModuleLines lines err.

(** Pointer unwrapping, [for t.Kind() == reflect.Ptr { t = t.Elem() }]:
    [fuel] bounds the iterations, [None] is a loop that has not ended. *)
Fixpoint unwrapPtr (T : types) (fuel : nat) (t : tid) : option tid :=
  match fuel with
  | O => None
  | S fuel' =>
    match Shape (T t) with
    | Pointer e => unwrapPtr T fuel' e
    | _ => Some t
    end
  end.

(** [Unwraps T t u]: taking the pointers off [t] ends, at [u]. *)
Inductive Unwraps (T : types) : tid -> tid -> Prop :=
| Unwraps_done t :
    (forall e, Shape (T t) <> Pointer e) -> Unwraps T t t
| Unwraps_step t e u :
    Shape (T t) = Pointer e -> Unwraps T e u -> Unwraps T t u.

(** The element type of a slice or an array. *)
Definition sliceElem (sh : shape) : option tid :=
  match sh with
  | Slice e | Array _ e => Some e
  | _ => None
  end.

(** The component types the walk goes into. *)
Definition kids (sh : shape) : list tid :=
  match sh with
  | Struct fields => fields
  | Slice e | Array _ e => [e]
  | Map k e => [k; e]
  | Pointer e => [e]
  | _ => []
  end.

(** [Visits T t v]: the walk from [t] comes to [v]: [v] is what is left of
    [t] without its pointers, or what is left of a component type of a
    type the walk comes to. *)
Inductive Visits (T : types) : tid -> tid -> Prop :=
| Visits_start t u : Unwraps T t u -> Visits T t u
| Visits_kid t u c v :
    Visits T t u -> In c (kids (Shape (T u))) -> Unwraps T c v ->
    Visits T t v.

(** [U] holds the component types of its types. *)
Definition closedUnder (T : types) (U : list tid) : bool :=
  forallb (fun t => forallb (fun c => existsb (Nat.eqb c) U) (kids (Shape (T t))))
          U.

(** Taking the pointers off any type of [U] ends within [d] steps. *)
Definition pointerDepth (T : types) (d : nat) (U : list tid) : bool :=
  forallb (fun t => match unwrapPtr T d t with Some _ => true | None => false end)
          U.

Definition walkState : Type := gset string * gset tid.

(** [for i := 0; i < t.NumField(); i++ { visit(t.Field(i).Type, ...) }]. *)
Fixpoint visitFields (visit : option tid -> walkState -> option walkState)
  (fields : list tid) (st : walkState) : option walkState :=
  match fields with
  | [] => Some st
  | f :: rest =>
    match visit (Some f) st with
    | Some st' => visitFields visit rest st'
    | None => None
    end
  end.

(** [fuel] bounds the depth of the recursion and the iterations of the
    loop that takes the pointers off; [None] is a walk that has not ended. *)
Fixpoint visitTypeForPackages (T : types) (fuel : nat) (t : option tid)
  (st : walkState) : option walkState :=
  match fuel with
  | O => None
  | S fuel' =>
    match t with
    | None => Some st
    | Some t =>
      match unwrapPtr T fuel t with
      | None => None
      | Some t =>
        let '(packages, visited) := st in
        if decide (t ∈ visited) then Some st
        else
          let visited := {[t]} ∪ visited in
          let packages :=
            if negb (String.eqb (PkgPath (T t)) "")
            then {[PkgPath (T t)]} ∪ packages else packages in
          let st := (packages, visited) in
          match Shape (T t) with
          | Struct fields =>
            visitFields (visitTypeForPackages T fuel') fields st
          | Slice e | Array _ e => visitTypeForPackages T fuel' (Some e) st
          | Map k e =>
            match visitTypeForPackages T fuel' (Some k) st with
            | Some st' => visitTypeForPackages T fuel' (Some e) st'
            | None => None
            end
          | Pointer e => visitTypeForPackages T fuel' (Some e) st
          | _ => Some st
          end
      end
    end
  end.

(** What a finished visit of the types [ts] from state [st] has done: the
    visited set has grown, by types the walk comes to from [ts]; it holds
    what is left of each of [ts] without its pointers, and of each
    component of a type it gained; the packages gained are the non-empty
    package paths of the types gained. *)
Definition walked (T : types) (ts : list tid) (st st' : walkState) : Prop :=
  st.2 ⊆ st'.2
  /\ (forall t, In t ts -> exists u, Unwraps T t u /\ u ∈ st'.2)
  /\ (forall v, v ∈ st'.2 -> v ∈ st.2 \/ exists t, In t ts /\ Visits T t v)
  /\ (forall v, v ∈ st'.2 -> v ∉ st.2 ->
      forall c w, In c (kids (Shape (T v))) -> Unwraps T c w -> w ∈ st'.2)
  /\ (forall p, (p ∈ st'.1) <->
                ((p ∈ st.1)
                 \/ (p <> "" /\ exists v, (v ∈ st'.2) /\ (v ∉ st.2)
                                          /\ PkgPath (T v) = p))).

(** The number of types of [U] the walk has not visited. *)
Definition unvisited (U : list tid) (vis : gset tid) : nat :=
  size ((list_to_set U : gset nat) ∖ vis).

(** [sort.Strings]: ascending in the byte-wise order of Go strings. *)
Definition sort_Strings (l : list string) : list string :=
  merge_sort String.le l.

Fixpoint visitModels (T : types) (fuel : nat) (models : list any)
  (st : walkState) : option walkState :=
  match models with
  | [] => Some st
  | model :: rest =>
    match model with
    | None => visitModels T fuel rest st
    | Some _ =>
      match visitTypeForPackages T fuel (TypeOf model) st with
      | Some st' => visitModels T fuel rest st'
      | None => None
      end
    end
  end.

Definition collectDependentPackages (T : types) (fuel : nat)
  (models : list any) : option (list string) :=
  match visitModels T fuel models (∅, ∅) with
  | Some (packages, _) => Some (sort_Strings (elements packages))
  | None => None
  end.

Section Schemator.

Variable E : Env.

Definition exportedName (t : rtype) : string :=
  if String.eqb (Name t) "" then ""
  else if negb (token_IsExported E (Name t)) then ""
  else Name t.

(** A defined type with an exported name. *)
Definition namedExported (t : rtype) : bool :=
  negb (String.eqb (Name t) "") && token_IsExported E (Name t).

Definition toString (T : types) (fuel : nat) (x : any) : option string :=
  match x with
  | None => Some ""
  | Some t =>
    match unwrapPtr T fuel t with
    | None => None
    | Some t =>
      let n := exportedName (T t) in
      if negb (String.eqb n "") then Some n
      else
        match Shape (T t) with
        | Slice elem | Array _ elem =>
          match unwrapPtr T fuel elem with
          | None => None
          | Some elem =>
            let n := exportedName (T elem) in
            if negb (String.eqb n "") then Some (n +:+ "Slice")
            else Some ""
          end
        | _ => Some ""
        end
    end
  end.

Definition lookupPackageDir (importPath workDir : string)
  : M trace (string * bool) :=
  let* (out, err) :=
    call (EvGoList importPath workDir)
         (fun tr => go_list E tr importPath workDir) in
  match err with
  | Some err =>
    fail (ErrGoListFailed importPath err (strings.TrimSpace out))
  | None =>
    let line := strings.TrimSpace out in
    let line :=
      match strings.IndexByte line "010" with
      | Some idx => String.substring 0 idx line
      | None => line
      end in
    if String.eqb line "" then fail (ErrGoListEmptyOutput importPath)
    else
      let parts := strings.Split line "009" in
      let dir := strings.TrimSpace (nth 0 parts "") in
      let isStd := (1 <? length parts) && String.eqb (nth 1 parts "") "true" in
      ret (dir, isStd)
  end.

(** The loop of [findModulePath]; [fuel] bounds its iterations. *)
Fixpoint findModulePath_loop (fuel : nat) (startDir dir : string)
  : M trace (string * string) :=
  match fuel with
  | O => diverge
  | S fuel' =>
    let modFile := filepath.Join [dir; "go.mod"] in
    let* r := call (EvReadFile modFile) (fun tr => os_ReadFile E tr modFile) in
    match r with
    | Ok contents =>
      let* modulePath := liftR (parseModuleDirective contents) in
      ret (dir, modulePath)
    | Err err =>
      if negb (isNotExist err) then fail err
      else
        let parent := filepath.Dir dir in
        if String.eqb parent dir then fail (ErrGoModNotFound startDir)
        else findModulePath_loop fuel' startDir parent
    end
  end.

(** Each iteration but the last two shortens [dir], so this many suffice
    (lemma [findModulePath_returns]). *)
Definition findModulePath (startDir : string) : M trace (string * string) :=
  findModulePath_loop (2 + String.length startDir) startDir startDir.

(** The reads of go.mod in [dir] and the [n - 1] directories above it. *)
Definition readEvents (n : nat) (dir : string) : trace :=
  map (fun k => EvReadFile (filepath.Join [filepath.ancestor k dir; "go.mod"]))
      (seq 0 n).

(** No go.mod in [dir] nor in any directory above it, whenever read. *)
Definition NoGoMod (dir : string) : Prop :=
  forall tr n, exists e,
    os_ReadFile E tr (filepath.Join [filepath.ancestor n dir; "go.mod"]) = Err e
    /\ isNotExist e = true.

(** The entries [detectPackageName] does not pass over: files, not
    directories, named [*.go] but not [*_test.go]. *)
Definition isSourceFile (entry : DirEntry) : bool :=
  negb (entryIsDir entry)
  && strings.HasSuffix (entryName entry) ".go"
  && negb (strings.HasSuffix (entryName entry) "_test.go").

Fixpoint detectPackageName_loop (dir : string) (entries : list DirEntry)
  : M trace string :=
  match entries with
  | [] => fail (ErrNoGoSourceFiles dir)
  | entry :: rest =>
    if entryIsDir entry then detectPackageName_loop dir rest
    else
      let name := entryName entry in
      if negb (strings.HasSuffix name ".go")
         || strings.HasSuffix name "_test.go"
      then detectPackageName_loop dir rest
      else
        let filePath := filepath.Join [dir; name] in
        let* parsed :=
          call (EvParseFile filePath)
               (fun tr => parser_ParseFile E tr filePath) in
        liftR parsed
  end.

Definition detectPackageName (dir : string) : M trace string :=
  let* entries := call (EvReadDir dir) (fun tr => os_ReadDir E tr dir) in
  let* entries := liftR entries in
  detectPackageName_loop dir entries.

(** [filepath.Abs]. *)
Definition filepath_Abs (p : string) : M trace string :=
  if filepath.IsAbs p then ret (filepath.Clean p)
  else
    let* wd := call EvGetwd (os_Getwd E) in
    let* wd := liftR wd in
    ret (filepath.Join [wd; p]).

(** Lines 444-452: the module path, the relative directory, and the
    package name unless it is "main" or the last element already. *)
Definition baseImportPath (modulePath relPath : string) : string :=
  if negb (String.eqb relPath ".")
  then path.Join [modulePath; filepath.ToSlash relPath]
  else modulePath.

Definition computedImportPath (modulePath relPath pkgName : string) : string :=
  let importPath := baseImportPath modulePath relPath in
  if negb (String.eqb pkgName "") && negb (String.eqb pkgName "main") then
    if negb (String.eqb (path.Base importPath) pkgName)
    then path.Join [importPath; pkgName]
    else importPath
  else importPath.

Definition inferLocalImportPath (sourceDir : string) : M trace ImportPath :=
  let sourceDir := if String.eqb sourceDir "" then "./" else sourceDir in
  let* absSourceDir := filepath_Abs sourceDir in
  let* (moduleDir, modulePath) := findModulePath absSourceDir in
  let* pkgName := detectPackageName absSourceDir in
  let* relPath := liftR (filepath.Rel moduleDir absSourceDir) in
  let importPath := computedImportPath modulePath relPath pkgName in
  let* r := attempt (lookupPackageDir importPath moduleDir) in
  let* (dir, importPath) :=
    match r with
    | Ok (dir, _) => ret (dir, importPath)
    | Err _ =>
      let baseImportPath := baseImportPath modulePath relPath in
      let* alt := attempt (lookupPackageDir baseImportPath moduleDir) in
      match alt with
      | Ok (altDir, _) => ret (altDir, baseImportPath)
      | Err _ => ret (absSourceDir, importPath)
      end
    end in
  let dir := if String.eqb dir "" then absSourceDir else dir in
  ret {| ModuleImportPath := importPath; SourceDirectory := dir |}.

(** The steps of [inferLocalImportPath] before the resolution, when they
    succeed: the absolute directory, the module root and its name, the
    package name, and the directory relative to the root. *)
Definition located (sourceDir : string) (tr : trace)
  (absSourceDir moduleDir modulePath pkgName relPath : string) (tr3 : trace)
  : Prop :=
  exists tr1 tr2,
    filepath_Abs (if String.eqb sourceDir "" then "./" else sourceDir) tr
    = Some (Ok absSourceDir, tr1)
    /\ findModulePath absSourceDir tr1 = Some (Ok (moduleDir, modulePath), tr2)
    /\ detectPackageName absSourceDir tr2 = Some (Ok pkgName, tr3)
    /\ filepath.Rel moduleDir absSourceDir = Ok relPath.

(** [InferImportPath]; what it logs takes no part in the result. *)
Definition InferImportPath (sourceDirectory : list string) : M trace ImportPath :=
  let sourceDir :=
    match sourceDirectory with
    | d :: _ => d
    | [] => ""
    end in
  let* r := attempt (inferLocalImportPath sourceDir) in
  match r with
  | Err _ => ret {| ModuleImportPath := ""; SourceDirectory := "" |}
  | Ok ip => ret ip
  end.

Definition ImportPaths (importPaths : list string) : list ImportPath :=
  match importPaths with
  | [] => []
  | _ =>
    fold_left
      (fun ips ip => ips ++ [{| ModuleImportPath := ip; SourceDirectory := "" |}])
      importPaths []
  end.

Definition ImportPathsWithLocal (importPaths : list string)
  : M trace (list ImportPath) :=
  let ips := ImportPaths importPaths in
  let* localip := InferImportPath [] in
  let newips := [localip] in
  ret (newips ++ ips).

Definition New (filesThatMustExist : list string) (ips : list ImportPath)
  : generator :=
  {| filesThatMustExist := filesThatMustExist; importPaths := ips |}.

Definition ensureSourceDirectory (ip : ImportPath) : M trace ImportPath :=
  if negb (String.eqb (SourceDirectory ip) "") then ret ip
  else
    let* r := attempt (lookupPackageDir (ModuleImportPath ip) "") in
    match r with
    | Err err => fail (ErrResolveSourceDirectory (ModuleImportPath ip) err)
    | Ok (dir, _) =>
      if String.eqb dir ""
      then fail (ErrGoListEmptyDirectory (ModuleImportPath ip))
      else ret {| ModuleImportPath := ModuleImportPath ip;
                  SourceDirectory := dir |}
    end.

(** [chdirMu] serialises the callers; one caller is modelled. *)
Definition withWorkingDir {A} (dir : string) (fn : M trace A) : M trace A :=
  let* cwd := call EvGetwd (os_Getwd E) in
  let* cwd := liftR cwd in
  finally
    (let* err := call (EvChdir dir) (fun tr => os_Chdir E tr dir) in
     let* _ := liftE err in
     fn)
    (call (EvChdir cwd) (fun tr => os_Chdir E tr cwd)).

Definition AddGoComments (r : Reflector) (base dir : string)
  : M trace Reflector :=
  let* m := call (EvAddGoComments base dir)
                 (fun tr => jsonschema_AddGoComments E tr (rCommentMap r) base dir) in
  let* m := liftR m in
  ret {| ExpandedStruct := ExpandedStruct r;
         AllowAdditionalProperties := AllowAdditionalProperties r;
         rCommentMap := m |}.

Definition sanitizeReflector (r : Reflector) : Reflector :=
  {| ExpandedStruct := ExpandedStruct r;
     AllowAdditionalProperties := AllowAdditionalProperties r;
     rCommentMap := sanitizeCommentMap (rCommentMap r) |}.

Definition addGoCommentsForImportPath (r : Reflector) (ip : ImportPath)
  : M trace Reflector :=
  if String.eqb (ModuleImportPath ip) "" then fail ErrMissingModuleImportPath
  else if String.eqb (SourceDirectory ip) ""
  then fail (ErrSourceDirectoryEmpty (ModuleImportPath ip))
  else
    let dir := SourceDirectory ip in
    if negb (filepath.IsAbs dir) then
      let relPath := filepath.Clean dir in
      let* r := AddGoComments r (ModuleImportPath ip) relPath in
      ret (sanitizeReflector r)
    else
      let absDir := filepath.Clean dir in
      withWorkingDir absDir
        (let* r := AddGoComments r (ModuleImportPath ip) "." in
         ret (sanitizeReflector r)).

(** What resolution makes of an entry of the generator's list: the import
    path, which is not empty, is kept, the source directory is set, and an
    entry that had one is left as it was. *)
Definition resolvedFrom (ip ip' : ImportPath) : Prop :=
  ModuleImportPath ip <> ""
  /\ ModuleImportPath ip' = ModuleImportPath ip
  /\ SourceDirectory ip' <> ""
  /\ (SourceDirectory ip <> "" -> ip' = ip).

(** What any run makes of an entry of the generator's list: the import
    path is kept, and an entry that had a source directory is left as it
    was. *)
Definition keepsEntry (ip ip' : ImportPath) : Prop :=
  ModuleImportPath ip' = ModuleImportPath ip
  /\ (SourceDirectory ip <> "" -> ip' = ip).

(** *** The generator: its fields are part of the state *)

Record state := { gen : generator; log : trace }.

Definition io {A} (c : M trace A) : M state A :=
  fun s =>
    match c (log s) with
    | Some (r, tr) => Some (r, {| gen := gen s; log := tr |})
    | None => None
    end.

(** From [s] to [s']: the calls made are of the class [P]. *)
Definition extendsByS (P : event -> bool) (s s' : state) : Prop :=
  extendsBy P (log s) (log s').

(** From [s] to [s']: the generator is the same, and the calls made are of
    the class [P]. *)
Definition sameGen (P : event -> bool) (s s' : state) : Prop :=
  gen s' = gen s /\ extendsBy P (log s) (log s').

(** From [s] to [s']: the required files are the same, and the calls
    made neither harvest nor reflect. *)
Definition quietS (s s' : state) : Prop :=
  filesThatMustExist (gen s') = filesThatMustExist (gen s)
  /\ quiet (log s) (log s').

Definition getGen : M state generator := fun s => Some (Ok (gen s), s).

Definition setImportPaths (ips : list ImportPath) : M state unit :=
  fun s =>
    Some (Ok tt,
          {| gen := {| filesThatMustExist := filesThatMustExist (gen s);
                       importPaths := ips |};
             log := log s |}).

Variable T : types.
Variable fuel : nat.

Fixpoint indexExisting (i : nat) (ips : list ImportPath)
  (existing : gmap string nat) : gmap string nat :=
  match ips with
  | [] => existing
  | ip :: rest =>
    indexExisting (S i) rest
      (if negb (String.eqb (ModuleImportPath ip) "")
       then <[ModuleImportPath ip := i]> existing else existing)
  end.

Fixpoint appendInferred (pkgs : list string) (existing : gmap string nat)
  : M state unit :=
  match pkgs with
  | [] => ret tt
  | pkg :: rest =>
    if String.eqb pkg "" then appendInferred rest existing
    else
      match existing !! pkg with
      | Some _ => appendInferred rest existing
      | None =>
        let* g := getGen in
        let ips := importPaths g
                     ++ [{| ModuleImportPath := pkg; SourceDirectory := "" |}] in
        let* _ := setImportPaths ips in
        appendInferred rest (<[pkg := length ips - 1]> existing)
      end
  end.

(** The last loop of [resolveImportPaths]: [pending] are the entries from
    index [i] on, as the loop reads them. *)
Fixpoint resolveEach (i : nat) (pending resolved : list ImportPath)
  : M state (list ImportPath) :=
  match pending with
  | [] => ret resolved
  | ip :: rest =>
    if String.eqb (ModuleImportPath ip) ""
    then fail (ErrMissingModuleImportPathAt i)
    else
      let* resolvedIP := io (ensureSourceDirectory ip) in
      let* g := getGen in
      let* _ := setImportPaths (<[i := resolvedIP]> (importPaths g)) in
      resolveEach (S i) rest (resolved ++ [resolvedIP])
  end.

Definition resolveImportPaths (models : list any) : M state (list ImportPath) :=
  let* g := getGen in
  let existing := indexExisting 0 (importPaths g) ∅ in
  let* existing :=
    if length (importPaths g) =? 0 then
      let* ip := io (inferLocalImportPath "./") in
      let ips := importPaths g ++ [ip] in
      let* _ := setImportPaths ips in
      ret (<[ModuleImportPath ip := length ips - 1]> existing)
    else ret existing in
  let* inferredPkgs := liftO (collectDependentPackages T fuel models) in
  let* _ := appendInferred inferredPkgs existing in
  let* g := getGen in
  resolveEach 0 (importPaths g) [].

Fixpoint statAll (files : list string) : M trace unit :=
  match files with
  | [] => ret tt
  | p :: rest =>
    let* err := call (EvStat p) (fun tr => os_Stat E tr p) in
    let* _ := liftE err in
    statAll rest
  end.

Fixpoint addGoCommentsAll (r : Reflector) (ips : list ImportPath)
  : M trace Reflector :=
  match ips with
  | [] => ret r
  | ip :: rest =>
    let* r := addGoCommentsForImportPath r ip in
    addGoCommentsAll r rest
  end.

(** The call that harvests the comments of a resolved entry: in its
    directory when that is absolute, else on the cleaned directory. *)
Definition harvestCall (ip : ImportPath) : event :=
  EvAddGoComments (ModuleImportPath ip)
    (if filepath.IsAbs (SourceDirectory ip) then "."
     else filepath.Clean (SourceDirectory ip)).

Definition Generate (model : any) : M state string :=
  let* importPaths := resolveImportPaths [model] in
  let* g := getGen in
  let* _ := io (statAll (filesThatMustExist g)) in
  let r := {| ExpandedStruct := true;
              AllowAdditionalProperties := false;
              rCommentMap := None |} in
  let* r := io (addGoCommentsAll r importPaths) in
  let* s := io (call (EvReflect model)
                     (fun tr => jsonschema_Reflect E tr r model)) in
  liftR (json_MarshalIndent E s).

Definition WriteSchema (model : any) (filenamePath : string) : M state unit :=
  let* out := Generate model in
  let fpath := filepath.Dir filenamePath in
  let* err := io (call (EvMkdirAll fpath) (fun tr => os_MkdirAll E tr fpath)) in
  let* _ := liftE err in
  let* err := io (call (EvCreate filenamePath)
                       (fun tr => os_Create E tr filenamePath)) in
  let* _ := liftE err in
  let* err := io (call (EvFprintln filenamePath out)
                       (fun tr => fmt_Fprintln E tr filenamePath out)) in
  liftE err.

Fixpoint WriteSchemas (outputDir : string) (models : list any) : M state unit :=
  match models with
  | [] => ret tt
  | model :: rest =>
    let* filename := liftO (toString T fuel model) in
    if String.eqb filename "" then WriteSchemas outputDir rest
    else
      let* _ := WriteSchema model
                  (filepath.Join [outputDir; filename +:+ ".schema.json"]) in
      WriteSchemas outputDir rest
  end.

(** The files [WriteSchemas] writes for the models: one for each model
    with a file name, in the order of the models. *)
Definition schemaFiles (outputDir : string) (models : list any) : list string :=
  flat_map
    (fun model =>
       match toString T fuel model with
       | Some filename =>
         if String.eqb filename "" then []
         else [filepath.Join [outputDir; filename +:+ ".schema.json"]]
       | None => []
       end)
    models.

End Schemator.

(** ** A concrete environment: the fixtures of the package's tests *)
Module demo.

Definition nl : string := String "010" "".
Definition tab : string := String "009" "".

Definition unnamed (sh : shape) : rtype :=
  {| Name := ""; PkgPath := ""; Shape := sh |}.
Definition builtin (n : string) (k : basic) : rtype :=
  {| Name := n; PkgPath := ""; Shape := Basic k |}.
Definition defined (n pkg : string) (sh : shape) : rtype :=
  {| Name := n; PkgPath := pkg; Shape := sh |}.

Definition tUint8 : tid := 0.
Definition tString : tid := 1.
Definition tInt : tid := 2.
Definition tUint64 : tid := 3.
Definition tInt64 : tid := 4.
Definition tBool : tid := 5.
Definition tUUID : tid := 10.
Definition tTime : tid := 20.
Definition tNested : tid := 30.
Definition tSubject : tid := 40.
Definition tSubjectPtr : tid := 42.
Definition tSubjectPtrSlice : tid := 43.
Definition tWrapper : tid := 44.
Definition tP : tid := 50.
Definition tPSlice : tid := 51.
Definition tNode : tid := 60.

(** The types of the tests ([uuid.UUID], [time.Time] with what it refers
    to, [example.Subject], the local [nested] and [wrapper]), a linked
    list [type Node struct { Next *Node; Val int }] and [type P *P]. *)
Definition T : types := fun t =>
  match t with
  | 0 => builtin "uint8" kUint8
  | 1 => builtin "string" kString
  | 2 => builtin "int" kInt
  | 3 => builtin "uint64" kUint64
  | 4 => builtin "int64" kInt64
  | 5 => builtin "bool" kBool
  | 10 => defined "UUID" "github.com/google/uuid" (Array 16 tUint8)
  | 11 => unnamed (Pointer tUUID)
  | 12 => unnamed (Slice tUUID)
  | 13 => unnamed (Map tString 11)
  | 20 => defined "Time" "time" (Struct [tUint64; tInt64; 21])
  | 21 => unnamed (Pointer 22)
  | 22 => defined "Location" "time"
            (Struct [tString; 23; 25; tString; tInt64; tInt64; 27])
  | 23 => unnamed (Slice 24)
  | 24 => defined "zone" "time" (Struct [tString; tInt; tBool])
  | 25 => unnamed (Slice 26)
  | 26 => defined "zoneTrans" "time" (Struct [tInt64; tUint8; tBool; tBool])
  | 27 => unnamed (Pointer 24)
  | 28 => unnamed (Pointer tTime)
  | 30 => defined "nested" "pkt.systems/schemator" (Struct [28; 12; 13])
  | 40 => defined "Subject" "pkt.systems/schemator/example"
            (Struct [tInt; tString; 41; tTime])
  | 41 => unnamed (Slice tString)
  | 42 => unnamed (Pointer tSubject)
  | 43 => unnamed (Slice tSubjectPtr)
  | 44 => defined "wrapper" "pkt.systems/schemator" (Struct [45])
  | 45 => unnamed (Slice tSubject)
  | 50 => defined "P" "main" (Pointer 50)
  | 51 => unnamed (Slice tP)
  | 60 => defined "Node" "main" (Struct [61; tInt])
  | 61 => unnamed (Pointer tNode)
  | _ => builtin "int" kInt
  end.

(** [token.IsExported] on names that start with an ASCII letter. *)
Definition isExported (name : string) : bool :=
  match name with
  | String b _ => ((65 <=? N_of_ascii b) && (N_of_ascii b <=? 90))%N
  | "" => false
  end.

Definition goMod : string := "module example.com/project" +:+ nl +:+ nl.

Definition readFile (name : string) : result string :=
  if String.eqb name "/tmp/x/go.mod" then Ok goMod
  else Err (ErrNotExist name).

Definition readDir (dir : string) : result (list DirEntry) :=
  if String.eqb dir "/tmp/x/foo"
  then Ok [{| entryName := "foo.go"; entryIsDir := false |}]
  else if String.eqb dir "/tmp/x/cmd/tool"
  then Ok [{| entryName := "main.go"; entryIsDir := false |}]
  else if String.eqb dir "/tmp/x/lib"
  then Ok [{| entryName := "testdata"; entryIsDir := true |};
           {| entryName := "util_test.go"; entryIsDir := false |};
           {| entryName := "util.go"; entryIsDir := false |}]
  else if String.eqb dir "/tmp/x/gen"
  then Ok [{| entryName := "gen.go"; entryIsDir := false |}]
  else if String.eqb dir "/tmp/y"
  then Ok [{| entryName := "foo.go"; entryIsDir := false |}]
  else Err (ErrNotExist dir).

Definition parseFile (filename : string) : result string :=
  if String.eqb filename "/tmp/x/foo/foo.go" then Ok "foo"
  else if String.eqb filename "/tmp/x/cmd/tool/main.go" then Ok "main"
  else if String.eqb filename "/tmp/x/lib/util.go" then Ok "util"
  else if String.eqb filename "/tmp/x/gen/gen.go" then Ok "gen"
  else if String.eqb filename "/tmp/y/foo.go" then Ok "foo"
  else Err (ErrNotExist filename).

(** [go list]: three packages of the module resolve, the rest fails;
    "blank" answers with white space only. *)
Definition goList (importPath workDir : string) : string * option error :=
  if String.eqb importPath "example.com/project/foo"
  then ("/tmp/x/foo" +:+ tab +:+ "false" +:+ nl, None)
  else if String.eqb importPath "example.com/project/cmd/tool"
  then ("/tmp/x/cmd/tool" +:+ tab +:+ "false" +:+ nl, None)
  else if String.eqb importPath "example.com/project/lib"
  then ("/tmp/x/lib" +:+ tab +:+ "false" +:+ nl, None)
  else if String.eqb importPath "time"
  then ("/usr/lib/go/src/time" +:+ tab +:+ "true" +:+ nl, None)
  else if String.eqb importPath "github.com/google/uuid"
  then ("/go/pkg/mod/github.com/google/uuid@v1.6.0" +:+ tab +:+ "false" +:+ nl,
        None)
  else if String.eqb importPath "pkt.systems/schemator/example"
  then ("/src/schemator/example" +:+ tab +:+ "false" +:+ nl, None)
  else if String.eqb importPath "pkt.systems/schemator"
  then ("/src/schemator" +:+ tab +:+ "false" +:+ nl, None)
  else if String.eqb importPath "blank"
  then (" " +:+ nl, None)
  else ("no required module provides package " +:+ importPath +:+ nl,
        Some (ErrExternal "exit status 1")).

Definition infoComment : string :=
  "Info summary line." +:+ nl +:+ "Wrapped onto a new line.".

Definition addGoComments (m : CommentMap) (base dir : string)
  : result CommentMap :=
  Ok (Some (<[base +:+ ".DemoType.Info" := infoComment]>
              (<[base +:+ ".DemoType" := "DemoType is an example type."]>
                 (default ∅ m)))).

Definition stat (name : string) : option error :=
  if String.eqb name "does-not-exist" then Some (ErrNotExist name) else None.

Definition create (name : string) : option error :=
  if String.eqb name "out/UUID.schema.json"
  then Some (ErrExternal "permission denied") else None.

Definition env : Env := {|
  Schema := string;
  os_Getwd := fun _ => Ok "/tmp/x/foo";
  os_Chdir := fun _ _ => None;
  os_ReadFile := fun _ => readFile;
  os_ReadDir := fun _ => readDir;
  os_Stat := fun _ => stat;
  os_MkdirAll := fun _ _ => None;
  os_Create := fun _ => create;
  fmt_Fprintln := fun _ _ _ => None;
  parser_ParseFile := fun _ => parseFile;
  go_list := fun _ => goList;
  jsonschema_AddGoComments := fun _ => addGoComments;
  jsonschema_Reflect := fun _ _ _ => "{}";
  json_MarshalIndent := fun s => Ok s;
  token_IsExported := isExported
|}.

(** A second file system: a go.mod without a module directive below a
    valid one, a go.mod that cannot be read, a go.mod whose module keyword
    is followed by a tab, one with the module path in a block, and a
    directory without Go source files.  The working directory is outside
    every module. *)
Definition readFile2 (name : string) : result string :=
  if String.eqb name "/srv/app/go.mod" then Ok ("go 1.22" +:+ nl)
  else if String.eqb name "/srv/go.mod" then Ok goMod
  else if String.eqb name "/locked/go.mod"
  then Err (ErrExternal "permission denied")
  else if String.eqb name "/tabbed/go.mod"
  then Ok ("module" +:+ tab +:+ "example.com/m" +:+ nl)
  else if String.eqb name "/block/go.mod"
  then Ok ("module (" +:+ nl +:+ tab +:+ "example.com/m" +:+ nl +:+ ")" +:+ nl)
  else Err (ErrNotExist name).

Definition readDir2 (dir : string) : result (list DirEntry) :=
  if String.eqb dir "/srv/app/pkg"
  then Ok [{| entryName := "testdata.go"; entryIsDir := true |};
           {| entryName := "pkg_test.go"; entryIsDir := false |};
           {| entryName := "README.md"; entryIsDir := false |}]
  else readDir dir.

Definition env2 : Env := {|
  Schema := string;
  os_Getwd := fun _ => Ok "/tmp/y";
  os_Chdir := fun _ dir =>
    if String.eqb dir "/locked" then Some (ErrExternal "permission denied")
    else None;
  os_ReadFile := fun _ => readFile2;
  os_ReadDir := fun _ => readDir2;
  os_Stat := fun _ => stat;
  os_MkdirAll := fun _ _ => None;
  os_Create := fun _ => create;
  fmt_Fprintln := fun _ _ _ => None;
  parser_ParseFile := fun _ => parseFile;
  go_list := fun _ => goList;
  jsonschema_AddGoComments := fun _ => addGoComments;
  jsonschema_Reflect := fun _ _ _ => "{}";
  json_MarshalIndent := fun s => Ok s;
  token_IsExported := isExported
|}.

(** The types the walk from [nested] can come to or pass. *)
Definition nestedUniverse : list tid :=
  [30; 28; 20; 3; 4; 21; 22; 1; 23; 24; 2; 5; 25; 26; 0; 27; 12; 10; 13; 11].

(** The types the walk from [example.Subject] can come to or pass. *)
Definition subjectUniverse : list tid :=
  [40; 2; 1; 41; 20; 3; 4; 21; 22; 23; 24; 5; 25; 26; 0; 27].

Definition emptyReflector : Reflector :=
  {| ExpandedStruct := false; AllowAdditionalProperties := false;
     rCommentMap := None |}.

End demo.

(* ===================================================================== *)
(** * Part II: lemmas and theorems                                        *)
(* ===================================================================== *)

Example Fields_ex1 :
  strings.Fields ("  Info summary line." +:+ String "010" "  Wrapped onto a new line. ")
  = ["Info"; "summary"; "line."; "Wrapped"; "onto"; "a"; "new"; "line."].
Proof. vm_compute. reflexivity. Qed.

Example Clean_ex :
  map path.Clean ["a//b/./c/.."; "/../a/"; ""; "../../x"; "a/../.."; "/"; "a/b/../../.."]
  = ["a/b"; "/a"; "."; "../../x"; ".."; "/"; ".."].
Proof. vm_compute. reflexivity. Qed.

Example Dir_ex :
  map filepath.Dir ["/tmp/x/foo"; "/tmp"; "/"; "foo"; ""; "a/b/"; "."]
  = ["/tmp/x"; "/"; "/"; "."; "."; "a/b"; "."].
Proof. vm_compute. reflexivity. Qed.

Example Base_ex :
  map path.Base ["example.com/project/foo"; "a/"; "///"; ""; "x"]
  = ["foo"; "a"; "/"; "."; "x"].
Proof. vm_compute. reflexivity. Qed.

Example Rel_ex :
  map (fun '(b, t) => filepath.Rel b t)
      [("/tmp/x", "/tmp/x/cmd/tool"); ("/tmp/x", "/tmp/x"); ("/", "/a/b");
       ("/a/b", "/a/c/d"); ("../a", "b"); (".", "a/b"); ("/a", "b")]
  = [Ok "cmd/tool"; Ok "."; Ok "a/b"; Ok "../c/d"; Err (ErrRel "../a" "b");
     Ok "a/b"; Err (ErrRel "/a" "b")].
Proof. vm_compute. reflexivity. Qed.

(** ** Strings: appending *)

Lemma sapp_nil_l (s : string) : "" +:+ s = s.
Proof. reflexivity. Qed.

Lemma sapp_cons (b : ascii) (s t : string) :
  String b s +:+ t = String b (s +:+ t).
Proof. reflexivity. Qed.

Lemma sapp_nil_r (s : string) : s +:+ "" = s.
Proof. induction s as [|b s IH]; [reflexivity|]. rewrite sapp_cons, IH. reflexivity. Qed.

Lemma sapp_assoc (s t u : string) : (s +:+ t) +:+ u = s +:+ (t +:+ u).
Proof.
  induction s as [|b s IH]; [reflexivity|].
  rewrite !sapp_cons, IH. reflexivity.
Qed.

Lemma slength_app (s t : string) :
  String.length (s +:+ t) = String.length s + String.length t.
Proof.
  induction s as [|b s IH]; [reflexivity|].
  rewrite sapp_cons. simpl. rewrite IH. reflexivity.
Qed.

(** ** Strings: white space and tokens *)

Import strings.

Ltac bool_N :=
  repeat match goal with
         | H : (_ && _)%bool = true |- _ => apply andb_prop in H; destruct H
         | H : (_ || _)%bool = true |- _ => apply orb_prop in H; destruct H
         | H : (_ =? _)%N = true |- _ => apply N.eqb_eq in H
         | H : (_ <=? _)%N = true |- _ => apply N.leb_le in H
         end.

Lemma asciiSpace_not_cont b : asciiSpace b = true -> isCont b = false.
Proof.
  unfold asciiSpace, isCont. intros H. bool_N.
  - apply andb_false_intro1, N.leb_gt. lia.
  - apply andb_false_intro1, N.leb_gt. lia.
Qed.

Lemma space2_cont b0 b1 :
  space2 b0 b1 = true -> isCont b0 = false /\ isCont b1 = true.
Proof.
  unfold space2, isCont. intros H. bool_N.
  - split; [apply andb_false_intro2, N.leb_gt; lia|].
    apply andb_true_intro; split; apply N.leb_le; lia.
  - split; [apply andb_false_intro2, N.leb_gt; lia|].
    apply andb_true_intro; split; apply N.leb_le; lia.
Qed.

Lemma space3_cont b0 b1 b2 :
  space3 b0 b1 b2 = true ->
  isCont b0 = false /\ isCont b1 = true /\ isCont b2 = true.
Proof.
  unfold space3, isCont. intros H. bool_N;
    (split; [apply andb_false_intro2, N.leb_gt; lia|]);
    split; apply andb_true_intro; split; apply N.leb_le; lia.
Qed.

Lemma cutSpace_split s w r :
  cutSpace s = Some (w, r) -> s = w +:+ r /\ w <> "" /\ safeCtx s = true.
Proof.
  destruct s as [|b0 r0]; [discriminate|]. simpl.
  destruct (asciiSpace b0) eqn:H0.
  { intros [= <- <-]. rewrite (asciiSpace_not_cont _ H0). done. }
  destruct r0 as [|b1 r1]; [discriminate|].
  destruct (space2 b0 b1) eqn:H1.
  { intros [= <- <-]. destruct (space2_cont _ _ H1) as [-> _]. done. }
  destruct r1 as [|b2 r2]; [discriminate|].
  destruct (space3 b0 b1 b2) eqn:H2; [|discriminate].
  intros [= <- <-]. destruct (space3_cont _ _ _ H2) as [-> _]. done.
Qed.

Lemma cutSpace_length s w r :
  cutSpace s = Some (w, r) -> String.length r < String.length s.
Proof.
  intros H. destruct (cutSpace_split _ _ _ H) as (-> & Hw & _).
  rewrite slength_app. destruct w; [done|simpl; lia].
Qed.

Lemma tokens_fuel_irrel n m s :
  String.length s <= n -> String.length s <= m ->
  tokens_fuel n s = tokens_fuel m s.
Proof.
  revert m s. induction n as [|n IH]; intros m s Hn Hm.
  { destruct s; [|simpl in Hn; lia]. destruct m; reflexivity. }
  destruct m as [|m].
  { destruct s; [reflexivity|simpl in Hm; lia]. }
  cbn [tokens_fuel].
  destruct (cutSpace s) as [[w r']|] eqn:Hc.
  - pose proof (cutSpace_length _ _ _ Hc). f_equal. apply IH; lia.
  - destruct s as [|b r]; [reflexivity|]. cbn [String.length] in *.
    f_equal. apply IH; lia.
Qed.

Lemma tokens_nil : tokens "" = [].
Proof. reflexivity. Qed.

Lemma tokens_Sp s w r :
  cutSpace s = Some (w, r) -> tokens s = Sp w :: tokens r.
Proof.
  intros Hc. pose proof (cutSpace_length _ _ _ Hc) as Hl.
  unfold tokens. destruct (String.length s) as [|n] eqn:Hn; [lia|].
  cbn [tokens_fuel]. rewrite Hc. f_equal. apply tokens_fuel_irrel; lia.
Qed.

Lemma tokens_Ch b r :
  cutSpace (String b r) = None -> tokens (String b r) = Ch b :: tokens r.
Proof.
  intros Hc. unfold tokens. cbn [String.length tokens_fuel]. rewrite Hc.
  reflexivity.
Qed.

(** Induction along the tokens of a string. *)
Lemma tokens_ind (P : string -> Prop) :
  P "" ->
  (forall s w r, cutSpace s = Some (w, r) -> P r -> P s) ->
  (forall b r, cutSpace (String b r) = None -> P r -> P (String b r)) ->
  forall s, P s.
Proof.
  intros H0 HSp HCh s.
  remember (String.length s) as n eqn:Hn.
  revert s Hn. induction n as [n IH] using lt_wf_ind. intros s ->.
  destruct (cutSpace s) as [[w r]|] eqn:Hc.
  - apply (HSp s w r Hc). apply (IH (String.length r)); [|reflexivity].
    eapply cutSpace_length; eassumption.
  - destruct s as [|b r]; [exact H0|].
    apply HCh; [exact Hc|]. apply (IH (String.length r)); [|reflexivity].
    simpl. lia.
Qed.

Lemma detok_tokens s : detok (tokens s) = s.
Proof.
  induction s as [|s w r Hc IH|b r Hc IH] using tokens_ind.
  - reflexivity.
  - rewrite (tokens_Sp _ _ _ Hc). cbn [detok]. rewrite IH.
    symmetry. apply (cutSpace_split _ _ _ Hc).
  - rewrite (tokens_Ch _ _ Hc). cbn [detok]. rewrite IH. reflexivity.
Qed.

(** A byte that is no white space stays none when what follows the run it
    is in is replaced by anything that starts a rune. *)
Lemma cutSpace_ctx t c c' :
  t <> "" -> safeCtx c' = true ->
  cutSpace (t +:+ c) = None -> cutSpace (t +:+ c') = None.
Proof.
  intros Ht Hc'.
  destruct t as [|b0 t]; [congruence|]. rewrite !sapp_cons. cbn [cutSpace].
  destruct (asciiSpace b0); [discriminate|].
  destruct t as [|b1 t].
  { rewrite !sapp_nil_l. intros _.
    destruct c' as [|x c']; [reflexivity|]. cbn [safeCtx] in Hc'.
    destruct (space2 b0 x) eqn:H2.
    { apply space2_cont in H2 as [_ H2]. rewrite H2 in Hc'. discriminate. }
    destruct c' as [|y c']; [reflexivity|].
    destruct (space3 b0 x y) eqn:H3; [|reflexivity].
    apply space3_cont in H3 as (_ & H3 & _). rewrite H3 in Hc'. discriminate. }
  rewrite !sapp_cons.
  destruct (space2 b0 b1); [discriminate|].
  destruct t as [|b2 t].
  { rewrite !sapp_nil_l. intros _.
    destruct c' as [|y c']; [reflexivity|]. cbn [safeCtx] in Hc'.
    destruct (space3 b0 b1 y) eqn:H3; [|reflexivity].
    apply space3_cont in H3 as (_ & _ & H3). rewrite H3 in Hc'. discriminate. }
  rewrite !sapp_cons. cbv iota.
  destruct (space3 b0 b1 b2); [discriminate|reflexivity].
Qed.

Lemma spanCh_tokens s :
  exists rest,
    s = (spanCh (tokens s)).1 +:+ rest /\ safeCtx rest = true
    /\ (forall c, safeCtx c = true ->
          tokens ((spanCh (tokens s)).1 +:+ c)
          = Chs (spanCh (tokens s)).1 ++ tokens c)
    /\ Forall fieldOK (spanCh (tokens s)).2.
Proof.
  induction s as [|s w r Hc IH|b r Hc IH] using tokens_ind.
  - exists "". repeat split; auto.
  - rewrite (tokens_Sp _ _ _ Hc). cbn [spanCh].
    destruct IH as (rest & Hr & Hsafe & Hrun & Hfs).
    destruct (spanCh (tokens r)) as [f fs]. cbn [fst snd] in *.
    exists s. repeat split; auto.
    + apply (cutSpace_split _ _ _ Hc).
    + destruct f as [|b f]; [exact Hfs|]. cbn [consField].
      constructor; [|exact Hfs]. split; [discriminate|exact Hrun].
  - rewrite (tokens_Ch _ _ Hc). cbn [spanCh].
    destruct IH as (rest & Hr & Hsafe & Hrun & Hfs).
    destruct (spanCh (tokens r)) as [f fs]. cbn [fst snd] in *.
    exists rest. repeat split; auto.
    + rewrite sapp_cons. congruence.
    + intros c Hsc. rewrite sapp_cons, tokens_Ch.
      * rewrite (Hrun c Hsc). reflexivity.
      * rewrite <- sapp_cons. apply cutSpace_ctx with (c := rest);
          [discriminate|exact Hsc|].
        rewrite sapp_cons, <- Hr. exact Hc.
Qed.

Lemma Fields_fieldOK s : Forall fieldOK (Fields s).
Proof.
  unfold Fields, fieldsT.
  destruct (spanCh_tokens s) as (rest & _ & _ & Hrun & Hfs).
  destruct (spanCh (tokens s)) as [f fs]. cbn [fst snd] in *.
  destruct f as [|b f]; [exact Hfs|]. cbn [consField].
  constructor; [|exact Hfs]. split; [discriminate|exact Hrun].
Qed.

Lemma tokens_Join fs :
  Forall fieldOK fs -> tokens (Join fs " ") = interTok fs.
Proof.
  induction 1 as [|f fs [Hne Hf] Hfs IH]; [reflexivity|].
  unfold Join in *. cbn [String.concat interTok].
  destruct fs as [|g fs].
  - rewrite <- (sapp_nil_r f) at 1. rewrite (Hf "" eq_refl).
    rewrite tokens_nil. apply app_nil_r.
  - change (f +:+ " " +:+ String.concat " " (g :: fs))
      with (f +:+ (String " " (String.concat " " (g :: fs)))).
    rewrite Hf by reflexivity.
    rewrite (tokens_Sp _ " " (String.concat " " (g :: fs))) by reflexivity.
    rewrite IH. reflexivity.
Qed.

Lemma spanCh_Chs f ts :
  spanCh (Chs f ++ ts) = ((f +:+ (spanCh ts).1), (spanCh ts).2).
Proof.
  induction f as [|b f IH]; cbn [Chs app spanCh].
  - destruct (spanCh ts); reflexivity.
  - rewrite IH. reflexivity.
Qed.

Lemma fieldsT_interTok fs :
  Forall (fun f => f <> "") fs -> fieldsT (interTok fs) = fs.
Proof.
  induction 1 as [|f fs Hne Hfs IH]; [reflexivity|].
  unfold fieldsT in *. cbn [interTok]. destruct fs as [|g fs].
  - rewrite <- (app_nil_r (Chs f)), spanCh_Chs. cbn [spanCh fst snd].
    rewrite sapp_nil_r. destruct f; [congruence|reflexivity].
  - rewrite spanCh_Chs. cbn [spanCh].
    destruct (spanCh (interTok (g :: fs))) as [h hs]. cbn [fst snd].
    rewrite sapp_nil_r, IH. destruct f; [congruence|reflexivity].
Qed.

(** [Fields] finds in the joined fields the fields that were joined. *)
Lemma Fields_Join_Fields s : Fields (Join (Fields s) " ") = Fields s.
Proof.
  pose proof (Fields_fieldOK s) as Hok.
  unfold Fields at 1. rewrite (tokens_Join _ Hok).
  apply fieldsT_interTok.
  eapply Forall_impl; [exact Hok|]. intros f [Hne _]. exact Hne.
Qed.

Lemma sanitizeCommentText_idem s :
  sanitizeCommentText (sanitizeCommentText s) = sanitizeCommentText s.
Proof.
  unfold sanitizeCommentText.
  destruct (String.eqb s "") eqn:Hs; [rewrite Hs; reflexivity|].
  destruct (String.eqb (Join (Fields s) " ") ""); [reflexivity|].
  rewrite Fields_Join_Fields. reflexivity.
Qed.

Lemma singleSpaced_Ch_irrel b b' ts :
  singleSpaced (Ch b :: ts) = singleSpaced (Ch b' :: ts).
Proof. reflexivity. Qed.

Lemma singleSpaced_Chs b f ts :
  singleSpaced (Chs (String b f) ++ ts) = singleSpaced (Ch b :: ts).
Proof.
  revert b. induction f as [|b' f IH]; intros b; [reflexivity|].
  change (singleSpaced (Chs (String b (String b' f)) ++ ts))
    with (singleSpaced (Chs (String b' f) ++ ts)).
  rewrite IH. reflexivity.
Qed.

Lemma interTok_head g fs :
  g <> "" -> exists c r, interTok (g :: fs) = Ch c :: r.
Proof.
  intros Hg. destruct g as [|c g]; [congruence|].
  cbn [interTok]. destruct fs; cbn [Chs app]; eauto.
Qed.

Lemma singleSpaced_interTok fs :
  Forall (fun f => f <> "") fs -> singleSpaced (interTok fs) = true.
Proof.
  induction 1 as [|f fs Hne Hfs IH]; [reflexivity|].
  destruct f as [|b f]; [congruence|].
  cbn [interTok]. destruct fs as [|g fs].
  - rewrite <- (app_nil_r (Chs _)), singleSpaced_Chs. reflexivity.
  - rewrite singleSpaced_Chs.
    destruct (interTok_head g fs) as (c & r & Hr).
    { inversion Hfs; assumption. }
    rewrite Hr in *. cbn [singleSpaced] in *. exact IH.
Qed.

(** What [sanitizeCommentText] returns is collapsed, and holds the fields
    of its argument. *)
Lemma sanitizeCommentText_Collapsed s : Collapsed (sanitizeCommentText s).
Proof.
  unfold Collapsed, sanitizeCommentText.
  destruct (String.eqb_spec s "") as [->|_]; [reflexivity|].
  pose proof (Fields_fieldOK s) as Hok.
  rewrite (tokens_Join _ Hok). apply singleSpaced_interTok.
  eapply Forall_impl; [exact Hok|]. intros f [Hne _]. exact Hne.
Qed.

Lemma sanitizeCommentText_Fields s :
  Fields (sanitizeCommentText s) = Fields s.
Proof.
  unfold sanitizeCommentText.
  destruct (String.eqb_spec s "") as [->|_]; [reflexivity|].
  apply Fields_Join_Fields.
Qed.

(** The loop of [sanitizeCommentMap] sanitizes every value. *)
Lemma sanitizeCommentMap_fmap (m : gmap string string) :
  sanitizeCommentMap (Some m) = Some (sanitizeCommentText <$> m).
Proof.
  unfold sanitizeCommentMap. f_equal.
  set (f := fun (k v : string) (acc : gmap string string) =>
              let sanitized := sanitizeCommentText v in
              if negb (String.eqb sanitized v)
              then <[k := sanitized]> acc else acc).
  assert (H : forall m0 : gmap string string,
             m ⊆ m0 ->
             forall k, map_fold f m0 m !! k
                       = match m !! k with
                         | Some v => Some (sanitizeCommentText v)
                         | None => m0 !! k
                         end).
  { intros m0. induction m as [|i x m Hi Hfold IH] using map_first_key_ind.
    - intros _ k. rewrite map_fold_empty, lookup_empty. reflexivity.
    - intros Hsub k. rewrite map_fold_insert_first_key by assumption.
      assert (Hsub' : m ⊆ m0).
      { etrans; [|exact Hsub]. apply insert_subseteq. exact Hi. }
      assert (Hx : m0 !! i = Some x).
      { eapply lookup_weaken; [|exact Hsub]. apply lookup_insert_eq. }
      unfold f at 1. cbv zeta.
      destruct (String.eqb_spec (sanitizeCommentText x) x) as [Heq|Hne];
        cbn [negb].
      + rewrite IH by assumption.
        destruct (decide (i = k)) as [->|Hik].
        * rewrite lookup_insert_eq, Hi, Hx, Heq. reflexivity.
        * rewrite lookup_insert_ne by assumption. reflexivity.
      + destruct (decide (i = k)) as [->|Hik].
        * rewrite !lookup_insert_eq. reflexivity.
        * rewrite !lookup_insert_ne by assumption. apply IH. assumption. }
  apply map_eq. intros k. rewrite (H m) by reflexivity.
  rewrite lookup_fmap. destruct (m !! k); reflexivity.
Qed.

(** ** Computations: inversion *)

Lemma bind_inv {S A B} (c : M S A) (k : A -> M S B) s r s' :
  bind c k s = Some (r, s') ->
  (exists e, c s = Some (Err e, s') /\ r = Err e)
  \/ (exists a s1, c s = Some (Ok a, s1) /\ k a s1 = Some (r, s')).
Proof.
  unfold bind. destruct (c s) as [[[a|e] s1]|]; [eauto| |discriminate].
  intros [= <- <-]. eauto.
Qed.

Lemma bind_Ok {S A B} (c : M S A) (k : A -> M S B) s b s' :
  bind c k s = Some (Ok b, s') ->
  exists a s1, c s = Some (Ok a, s1) /\ k a s1 = Some (Ok b, s').
Proof.
  intros H. apply bind_inv in H as [(e & _ & [=])|H]. exact H.
Qed.

Lemma bind_ret_l {S A B} (a : A) (k : A -> M S B) s :
  bind (ret a) k s = k a s.
Proof. reflexivity. Qed.

Lemma bind_eq_Ok {S A B} (c : M S A) (k : A -> M S B) s a s1 :
  c s = Some (Ok a, s1) -> bind c k s = k a s1.
Proof. unfold bind. intros ->. reflexivity. Qed.

Lemma bind_eq_Err {S A B} (c : M S A) (k : A -> M S B) s e s1 :
  c s = Some (Err e, s1) -> bind c k s = Some (Err e, s1).
Proof. unfold bind. intros ->. reflexivity. Qed.

Lemma bind_eq_None {S A B} (c : M S A) (k : A -> M S B) s :
  c s = None -> bind c k s = None.
Proof. unfold bind. intros ->. reflexivity. Qed.

Lemma liftR_Ok {S A} (r : result A) (s s' : S) a :
  liftR r s = Some (Ok a, s') -> r = Ok a /\ s' = s.
Proof. destruct r; cbn; intros [= <- <-] || intros [=]; auto. Qed.

Lemma liftE_Ok {S} (o : option error) (s s' : S) u :
  liftE o s = Some (Ok u, s') -> o = None /\ s' = s.
Proof. destruct o; cbn; intros [=]; subst; auto. Qed.

Lemma call_eq {A} ev (f : trace -> A) tr :
  call ev f tr = Some (Ok (f tr), tr ++ [ev]).
Proof. reflexivity. Qed.

Lemma finally_Ok {S A B} (c : M S A) (d : M S B) s a s' :
  finally c d s = Some (Ok a, s') ->
  exists s1, c s = Some (Ok a, s1).
Proof.
  unfold finally. destruct (c s) as [[r s1]|]; [|discriminate].
  destruct (d s1) as [[r' s2]|]; [|discriminate].
  intros [= -> <-]. eauto.
Qed.

(** ** The comment sanitizer *)

Example sanitize_wrapped_doc_comment :
  sanitizeCommentText demo.infoComment
  = "Info summary line. Wrapped onto a new line.".
Proof. vm_compute. reflexivity. Qed.

(** U+00A0 (no-break space) and U+2003 (em space) are white space too. *)
Example sanitize_unicode_space :
  sanitizeCommentText
    ("a" +:+ String "194" (String "160" "") +:+ "b"
         +:+ String "226" (String "128" (String "131" "")) +:+ " c ")
  = "a b c".
Proof. vm_compute. reflexivity. Qed.

Lemma sanitizeCommentMap_option (m : CommentMap) :
  sanitizeCommentMap m
  = (fun m0 : gmap string string => sanitizeCommentText <$> m0) <$> m.
Proof. destruct m as [m|]; [apply sanitizeCommentMap_fmap|reflexivity]. Qed.

(** C10: sanitizing a comment twice gives what sanitizing it once gives,
    and so sanitizing a comment map that was sanitized leaves it as it is. *)
Theorem sanitize_idempotent :
  (forall s : string,
     sanitizeCommentText (sanitizeCommentText s) = sanitizeCommentText s)
  /\ (forall m : CommentMap,
        sanitizeCommentMap (sanitizeCommentMap m) = sanitizeCommentMap m).
Proof.
  split; [exact sanitizeCommentText_idem|].
  intros [m|]; [|reflexivity].
  rewrite !sanitizeCommentMap_fmap. f_equal.
  rewrite <- map_fmap_compose. apply map_fmap_ext.
  intros k v _. apply sanitizeCommentText_idem.
Qed.

Section Harvest.

Variable E : Env.

Lemma harvest_Ok (r : Reflector) (base dir : string) tr r' tr' :
  (let* r := AddGoComments E r base dir in ret (sanitizeReflector r)) tr
  = Some (Ok r', tr') ->
  exists m0,
    jsonschema_AddGoComments E tr (rCommentMap r) base dir = Ok m0
    /\ rCommentMap r' = sanitizeCommentMap m0.
Proof.
  intros H. apply bind_Ok in H as (r1 & tr1 & H1 & H2).
  unfold AddGoComments in H1.
  apply bind_Ok in H1 as (m & tr2 & Hc & H1).
  rewrite call_eq in Hc. injection Hc as <- <-.
  apply bind_Ok in H1 as (m0 & tr3 & Hm & H1).
  apply liftR_Ok in Hm as [Hm ->].
  injection H1 as <- <-. injection H2 as <- <-.
  exists m0. split; [exact Hm|reflexivity].
Qed.

(** What the sanitizer returns, in terms of the text it is given: the words
    of the text joined by single spaces. *)
Lemma sanitizeCommentText_words v0 :
  sanitizeCommentText v0 = Join (Fields v0) " ".
Proof.
  unfold sanitizeCommentText.
  destruct (String.eqb_spec v0 "") as [->|_]; reflexivity.
Qed.

(** C6: when [addGoCommentsForImportPath] succeeds, the comment map of the
    reflector has the keys of the map [AddGoComments] harvested, and under
    each key the harvested comment with its white space collapsed: the
    words of the harvested comment, all of them and in their order, joined
    by single spaces, so that its white space is single spaces, each
    between two non-space characters.  No comment is dropped or emptied,
    and none is added. *)
Theorem harvested_comments_collapsed
  (r : Reflector) (ip : ImportPath) (tr : trace) (r' : Reflector) (tr' : trace) :
  addGoCommentsForImportPath E r ip tr = Some (Ok r', tr') ->
  exists tr0 dir m0,
    jsonschema_AddGoComments E tr0 (rCommentMap r) (ModuleImportPath ip) dir
    = Ok m0
    /\ rCommentMap r'
       = (fun m : gmap string string => sanitizeCommentText <$> m) <$> m0
    /\ (forall (m : gmap string string) k v,
          rCommentMap r' = Some m -> m !! k = Some v ->
          Collapsed v
          /\ exists (h : gmap string string) v0,
               m0 = Some h /\ h !! k = Some v0
               /\ v = Join (Fields v0) " " /\ Fields v = Fields v0)
    /\ (forall (h : gmap string string) k v0,
          m0 = Some h -> h !! k = Some v0 ->
          exists (m : gmap string string) v,
            rCommentMap r' = Some m /\ m !! k = Some v
            /\ Collapsed v
            /\ v = Join (Fields v0) " " /\ Fields v = Fields v0).
Proof.
  intros H.
  assert (Hh : exists tr0 dir m0,
             jsonschema_AddGoComments E tr0 (rCommentMap r)
               (ModuleImportPath ip) dir = Ok m0
             /\ rCommentMap r' = sanitizeCommentMap m0).
  { unfold addGoCommentsForImportPath in H.
    destruct (String.eqb (ModuleImportPath ip) ""); [discriminate|].
    destruct (String.eqb (SourceDirectory ip) ""); [discriminate|].
    destruct (negb (filepath.IsAbs (SourceDirectory ip))).
    - apply harvest_Ok in H as (m0 & ? & ?). eauto.
    - unfold withWorkingDir in H.
      apply bind_Ok in H as (cwd & tr1 & _ & H).
      apply bind_Ok in H as (cwd' & tr2 & _ & H).
      apply finally_Ok in H as (tr3 & H).
      apply bind_Ok in H as (err & tr4 & _ & H).
      apply bind_Ok in H as (u & tr5 & _ & H).
      apply harvest_Ok in H as (m0 & ? & ?). eauto. }
  destruct Hh as (tr0 & dir & m0 & Hm0 & Hr').
  exists tr0, dir, m0. rewrite sanitizeCommentMap_option in Hr'.
  split; [exact Hm0|]. split; [exact Hr'|]. split.
  - intros m k v Hm Hk. rewrite Hr' in Hm.
    destruct m0 as [h|]; [|discriminate]. injection Hm as <-.
    rewrite lookup_fmap in Hk. destruct (h !! k) as [v0|] eqn:Hv0;
      [|discriminate].
    injection Hk as <-. split; [apply sanitizeCommentText_Collapsed|].
    exists h, v0. split; [reflexivity|]. split; [exact Hv0|].
    split; [apply sanitizeCommentText_words|apply sanitizeCommentText_Fields].
  - intros h k v0 -> Hv0. exists (sanitizeCommentText <$> h), (sanitizeCommentText v0).
    split; [exact Hr'|]. split; [rewrite lookup_fmap, Hv0; reflexivity|].
    split; [apply sanitizeCommentText_Collapsed|].
    split; [apply sanitizeCommentText_words|apply sanitizeCommentText_Fields].
Qed.

End Harvest.

(** The fixture of [TestAddGoCommentsForImportPathWithAbsoluteDir]: the
    comment wrapped over two lines becomes one single-spaced sentence. *)
Lemma harvested_comments_collapsed_witness :
  exists (m : gmap string string) v,
    m !! "example.com/temp/foo.DemoType.Info" = Some v
    /\ Collapsed v
    /\ v = "Info summary line. Wrapped onto a new line."
    /\ Fields v = Fields demo.infoComment.
Proof.
  pose (ip := {| ModuleImportPath := "example.com/temp/foo";
                 SourceDirectory := "/tmp/foo" |}).
  pose (h := <["example.com/temp/foo.DemoType.Info" := demo.infoComment]>
               (<["example.com/temp/foo.DemoType" := "DemoType is an example type."]>
                  (∅ : gmap string string))).
  pose (r' := {| ExpandedStruct := false; AllowAdditionalProperties := false;
                 rCommentMap := Some (sanitizeCommentText <$> h) |}).
  pose (tr' := [EvGetwd; EvChdir "/tmp/foo";
                EvAddGoComments "example.com/temp/foo" ".";
                EvChdir "/tmp/x/foo"]).
  assert (H : addGoCommentsForImportPath demo.env demo.emptyReflector ip []
              = Some (Ok r', tr')).
  { vm_compute. reflexivity. }
  destruct (harvested_comments_collapsed demo.env _ _ _ _ _ H)
    as (tr0 & dir & m0 & Hm0 & _ & _ & Hall).
  assert (Hh : m0 = Some h).
  { cbn in Hm0. injection Hm0 as <-. reflexivity. }
  destruct (Hall h "example.com/temp/foo.DemoType.Info" demo.infoComment Hh)
    as (m & v & _ & Hk & Hc & Hv & Hf).
  { vm_compute. reflexivity. }
  exists m, v. split; [exact Hk|]. split; [exact Hc|]. split; [|exact Hf].
  rewrite Hv. vm_compute. reflexivity.
Defined.

(** ** [TrimSpace], first lines and [lookupPackageDir] *)

Lemma IndexByte_Split s c :
  match IndexByte s c with
  | Some idx => String.substring 0 idx s
  | None => s
  end = nth 0 (Split s c) "".
Proof.
  induction s as [|b r IH]; [reflexivity|]. cbn [IndexByte Split].
  destruct (Ascii.eqb b c); [reflexivity|].
  destruct (IndexByte r c) as [idx|]; cbn [fmap option_fmap option_map] in *;
    cbn [String.substring];
    destruct (Split r c) as [|f fs]; cbn [nth] in *; congruence.
Qed.

Lemma Split_head_nonempty b r c :
  Ascii.eqb b c = false -> nth 0 (Split (String b r) c) "" <> "".
Proof.
  intros Hb. cbn [Split]. rewrite Hb. destruct (Split r c); discriminate.
Qed.

Lemma tokens_Ch_not_space s :
  Forall (fun t => match t with Ch b => asciiSpace b = false | Sp _ => True end)
         (tokens s).
Proof.
  induction s as [|s w r Hc IH|b r Hc IH] using tokens_ind.
  - constructor.
  - rewrite (tokens_Sp _ _ _ Hc). constructor; [exact I|exact IH].
  - rewrite (tokens_Ch _ _ Hc). constructor; [|exact IH].
    cbn [cutSpace] in Hc. destruct (asciiSpace b); [discriminate|reflexivity].
Qed.

Lemma dropSp_snoc_Ch ts b : dropSp (ts ++ [Ch b]) = dropSp ts ++ [Ch b].
Proof.
  induction ts as [|[w|c] ts IH]; cbn [app dropSp]; [reflexivity|exact IH|].
  reflexivity.
Qed.

Lemma dropSp_head ts :
  dropSp ts = [] \/ exists b ts', dropSp ts = Ch b :: ts' /\ In (Ch b) ts.
Proof.
  induction ts as [|[w|c] ts IH]; cbn [dropSp];
    [auto| |right; eexists _, _; split; [reflexivity|left; reflexivity]].
  destruct IH as [IH|(b & ts' & IH & Hin)]; [auto|].
  right. exists b, ts'. split; [exact IH|right; exact Hin].
Qed.

(** What [TrimSpace] returns is empty or starts with a byte that is no
    ASCII white space. *)
Lemma TrimSpace_head s :
  TrimSpace s = ""
  \/ exists b r, TrimSpace s = String b r /\ asciiSpace b = false.
Proof.
  unfold TrimSpace.
  destruct (dropSp_head (tokens s)) as [->|(b & ts' & -> & Hin)]; [auto|].
  right. cbn [rev]. rewrite dropSp_snoc_Ch, rev_app_distr. cbn [rev app detok].
  eexists _, _. split; [reflexivity|].
  pose proof (tokens_Ch_not_space s) as Hall.
  rewrite List.Forall_forall in Hall. exact (Hall _ Hin).
Qed.

Lemma firstLine_empty_iff s :
  nth 0 (Split (TrimSpace s) "010") "" = "" <-> TrimSpace s = "".
Proof.
  split; [|intros ->; reflexivity].
  destruct (TrimSpace_head s) as [->|(b & r & -> & Hb)]; [reflexivity|].
  intros H. exfalso. revert H. apply Split_head_nonempty.
  destruct (Ascii.eqb_spec b "010") as [->|]; [discriminate|reflexivity].
Qed.

Section LookupPackageDir.

Variable E : Env.

Lemma lookupPackageDir_returns importPath workDir tr :
  exists r,
    lookupPackageDir E importPath workDir tr
    = Some (r, tr ++ [EvGoList importPath workDir]).
Proof.
  unfold lookupPackageDir. rewrite (bind_eq_Ok _ _ _ _ _ (call_eq _ _ _)).
  destruct (go_list E tr importPath workDir) as [out [err|]]; [cbn; eauto|].
  destruct (String.eqb _ ""); cbn; eauto.
Qed.

(** C5, as amended: [lookupPackageDir] returns an error exactly when the
    command fails or its output is empty once the white space around it is
    trimmed; otherwise it returns the first tab-separated field, trimmed,
    of the first line of the trimmed output, and whether a second field
    is "true". *)
Theorem lookupPackageDir_spec (importPath workDir : string) (tr : trace) :
  let out := (go_list E tr importPath workDir).1 in
  let err := (go_list E tr importPath workDir).2 in
  let parts := Split (nth 0 (Split (TrimSpace out) "010") "") "009" in
  (failed (lookupPackageDir E importPath workDir tr)
   <-> err <> None \/ TrimSpace out = "")
  /\ (err = None -> TrimSpace out <> "" ->
      lookupPackageDir E importPath workDir tr
      = Some (Ok (TrimSpace (nth 0 parts ""),
                  (1 <? length parts) && String.eqb (nth 1 parts "") "true"),
              tr ++ [EvGoList importPath workDir])).
Proof.
  cbv zeta. unfold lookupPackageDir, failed.
  rewrite (bind_eq_Ok _ _ _ _ _ (call_eq _ _ _)).
  destruct (go_list E tr importPath workDir) as [out err]. cbn [fst snd].
  destruct err as [err|].
  { split; [|discriminate]. split; [intros _; left; discriminate|].
    intros _. cbn. eauto. }
  rewrite IndexByte_Split.
  destruct (String.eqb_spec (nth 0 (Split (TrimSpace out) "010") "") "")
    as [Hl|Hl].
  - apply firstLine_empty_iff in Hl. split; [|congruence].
    split; [auto|]. intros _. cbn. eauto.
  - assert (Ht : TrimSpace out <> "").
    { intros Ht. apply Hl. apply firstLine_empty_iff. exact Ht. }
    split; [|reflexivity].
    split; [intros (e & s & [=])|intros [?|?]; congruence].
Qed.

End LookupPackageDir.

(** C5 as stated fails: a command that succeeds with output that is not
    empty, a space and a newline, makes [lookupPackageDir] return an
    error. *)
Lemma lookupPackageDir_blank_output :
  go_list demo.env [] "blank" "" = (String " " (String "010" ""), None)
  /\ ~ (failed (lookupPackageDir demo.env "blank" "" [])
        <-> (go_list demo.env [] "blank" "").2 <> None
            \/ (go_list demo.env [] "blank" "").1 = "").
Proof.
  split; [reflexivity|]. intros [H _].
  destruct H as [H|H]; [|elim H; reflexivity|discriminate H].
  exists (ErrGoListEmptyOutput "blank"), [EvGoList "blank" ""].
  vm_compute. reflexivity.
Qed.

(** [go list] on package "time", as in
    [TestEnsureSourceDirectory_StandardLibrary]. *)
Lemma lookupPackageDir_spec_witness :
  lookupPackageDir demo.env "time" "" []
  = Some (Ok ("/usr/lib/go/src/time", true), [EvGoList "time" ""]).
Proof.
  apply (proj2 (lookupPackageDir_spec demo.env "time" "" [])).
  - reflexivity.
  - vm_compute. discriminate.
Defined.

(** ** Paths: [Dir] shortens a path until it is its own parent *)

Lemma weight_cons c l :
  path.weight (c :: l) = S (String.length c) + path.weight l.
Proof. reflexivity. Qed.

Lemma weight_app l1 l2 : path.weight (l1 ++ l2) = path.weight l1 + path.weight l2.
Proof.
  induction l1 as [|c l1 IH]; [reflexivity|]. cbn [app].
  rewrite !weight_cons, IH. lia.
Qed.

Lemma weight_rev l : path.weight (rev l) = path.weight l.
Proof.
  induction l as [|c l IH]; [reflexivity|]. cbn [rev].
  rewrite weight_app, IH, !weight_cons. cbn. lia.
Qed.

Lemma weight_Split s c : path.weight (Split s c) = S (String.length s).
Proof.
  induction s as [|b r IH]; [reflexivity|]. cbn [Split].
  destruct (Ascii.eqb b c).
  - rewrite weight_cons, IH. reflexivity.
  - destruct (Split r c) as [|f fs]; [discriminate IH|].
    rewrite weight_cons in *. cbn [String.length] in *. lia.
Qed.

Lemma Join_length l :
  l <> [] -> S (String.length (Join l "/")) = path.weight l.
Proof.
  induction l as [|c l IH]; [congruence|]. intros _.
  unfold Join in *. cbn [String.concat]. rewrite weight_cons.
  destruct l as [|d l]; [cbn; lia|].
  rewrite !slength_app. specialize (IH ltac:(discriminate)).
  rewrite <- IH. cbn [String.length]. lia.
Qed.

Lemma Join_length_le l : String.length (Join l "/") < S (path.weight l).
Proof.
  destruct l as [|c l]; [cbn; lia|].
  pose proof (Join_length (c :: l) ltac:(discriminate)). lia.
Qed.

Lemma cleanStep_weight rooted st c :
  path.weight (path.cleanStep rooted st c) <= path.weight st + S (String.length c).
Proof.
  unfold path.cleanStep.
  destruct (String.eqb c ""); [lia|].
  destruct (String.eqb c "."); [lia|].
  destruct (String.eqb c "..").
  - destruct (path.canBacktrack st).
    + destruct st as [|t st]; cbn [tail]; rewrite ?weight_cons; lia.
    + destruct rooted; rewrite ?weight_cons; lia.
  - rewrite weight_cons. lia.
Qed.

Lemma cleanFold_weight rooted cs st :
  path.weight (fold_left (path.cleanStep rooted) cs st)
  <= path.weight st + path.weight cs.
Proof.
  revert st. induction cs as [|c cs IH]; intros st; cbn [fold_left].
  - cbn. lia.
  - etrans; [apply IH|]. pose proof (cleanStep_weight rooted st c).
    rewrite weight_cons. lia.
Qed.

Lemma hasSlash_dirPrefix_nil p :
  filepath.hasSlash p = false -> filepath.dirPrefix p = "".
Proof. destruct p as [|b r]; [reflexivity|]. cbn [filepath.dirPrefix]. intros ->. reflexivity. Qed.

Lemma dirPrefix_length p : String.length (filepath.dirPrefix p) <= String.length p.
Proof.
  induction p as [|b r IH]; [reflexivity|]. cbn [filepath.dirPrefix].
  destruct (filepath.hasSlash (String b r)); cbn [String.length]; lia.
Qed.

(** With a slash in [p], the prefix ends with one: its last element is
    empty. *)
Lemma dirPrefix_Split p :
  filepath.hasSlash p = true ->
  exists cs, cs <> [] /\ Split (filepath.dirPrefix p) "/" = cs ++ [""].
Proof.
  induction p as [|b r IH]; [discriminate|]. intros Hp.
  cbn [filepath.dirPrefix]. rewrite Hp. cbn [filepath.hasSlash] in Hp.
  destruct (filepath.hasSlash r) eqn:Hr.
  - destruct (IH eq_refl) as (cs & Hcs & Hsplit). cbn [Split]. rewrite Hsplit.
    destruct (Ascii.eqb b "/").
    + exists ("" :: cs). split; [discriminate|reflexivity].
    + destruct cs as [|c cs]; [congruence|].
      exists (String b c :: cs). split; [discriminate|reflexivity].
  - rewrite (hasSlash_dirPrefix_nil _ Hr). rewrite orb_false_r in Hp.
    cbn [Split]. rewrite Hp. exists [""]. split; [discriminate|reflexivity].
Qed.

Lemma Clean_shorter q cs :
  q <> "/" -> cs <> [] -> Split q "/" = cs ++ [""] ->
  String.length (path.Clean q) < String.length q.
Proof.
  intros Hq Hcs Hsplit.
  pose proof (weight_Split q "/") as Hw. rewrite Hsplit, weight_app in Hw.
  change (path.weight [""]) with 1 in Hw.
  unfold path.Clean. destruct q as [|b q].
  { exfalso. destruct cs as [|c [|c' cs']];
      [congruence|discriminate Hsplit|discriminate Hsplit]. }
  change (String.eqb (String b q) "") with false. cbv iota.
  rewrite Hsplit, fold_left_app. cbn [fold_left].
  change (path.cleanStep (HasPrefix (String b q) "/") ?st "") with st.
  unfold HasPrefix. cbn [String.prefix].
  destruct (Ascii.ascii_dec "/" b) as [<-|Hb].
  - assert (String.prefix "" q = true) as -> by (destruct q; reflexivity).
    cbv zeta. rewrite slength_app.
    destruct cs as [|c cs]; [congruence|].
    assert (c = "") as ->.
    { cbn [Split] in Hsplit. change (Ascii.eqb "/" "/") with true in Hsplit.
      cbv iota in Hsplit. injection Hsplit as <- _. reflexivity. }
    cbn [fold_left]. change (path.cleanStep true [] "") with (@nil string).
    rewrite weight_cons in Hw.
    pose proof (cleanFold_weight true cs []) as Hf.
    change (path.weight []) with 0 in Hf. rewrite <- weight_rev in Hf.
    set (stack := rev (fold_left (path.cleanStep true) cs [])) in *.
    pose proof (Join_length stack) as Hj. clearbody stack.
    cbn [String.length] in *.
    destruct stack as [|x xs].
    + cbn. destruct q; [congruence|]. cbn [String.length]. lia.
    + specialize (Hj ltac:(discriminate)). lia.
  - cbv zeta.
    pose proof (cleanFold_weight false cs []) as Hf.
    change (path.weight []) with 0 in Hf. rewrite <- weight_rev in Hf.
    set (stack := rev (fold_left (path.cleanStep false) cs [])) in *.
    pose proof (Join_length stack) as Hj. clearbody stack.
    assert (Hlen : 2 <= String.length (String b q)).
    { destruct q as [|b' q]; [|cbn; lia].
      cbn [Split] in Hsplit.
      destruct (Ascii.eqb_spec b "/") as [->|]; [congruence|].
      destruct cs as [|? [|? ?]]; discriminate. }
    destruct (String.eqb_spec (Join stack "/") "") as [Heq|Hne].
    + cbn [String.length] in *. lia.
    + destruct stack as [|x xs]; [cbn in Hne; congruence|].
      specialize (Hj ltac:(discriminate)). cbn [String.length] in *. lia.
Qed.

Lemma Dir_shorter p :
  filepath.hasSlash p = true ->
  p = "/" \/ String.length (filepath.Dir p) < String.length p.
Proof.
  intros Hp. destruct (dirPrefix_Split p Hp) as (cs & Hcs & Hsplit).
  destruct (String.eqb_spec (filepath.dirPrefix p) "/") as [Hroot|Hroot].
  - unfold filepath.Dir, filepath.Clean. rewrite Hroot.
    assert (path.Clean "/" = "/") as -> by (vm_compute; reflexivity).
    destruct p as [|b [|b' p]]; [discriminate| |right; cbn; lia].
    left. cbn [filepath.dirPrefix filepath.hasSlash] in *.
    rewrite Hp in Hroot. exact Hroot.
  - right. unfold filepath.Dir, filepath.Clean.
    pose proof (Clean_shorter _ _ Hroot Hcs Hsplit).
    pose proof (dirPrefix_length p). lia.
Qed.

Lemma Dir_no_slash p : filepath.hasSlash p = false -> filepath.Dir p = ".".
Proof.
  intros Hp. unfold filepath.Dir. rewrite (hasSlash_dirPrefix_nil _ Hp).
  reflexivity.
Qed.

Lemma height_bound p : filepath.height p <= 2 + String.length p.
Proof.
  unfold filepath.height. destruct (filepath.hasSlash p); [lia|].
  destruct (String.eqb p "."); lia.
Qed.

Lemma height_pos p : 1 <= filepath.height p.
Proof.
  unfold filepath.height. destruct (filepath.hasSlash p); [lia|].
  destruct (String.eqb p "."); lia.
Qed.

(** A directory that is not its own parent is higher than its parent. *)
Lemma Dir_height p :
  filepath.Dir p <> p -> filepath.height (filepath.Dir p) < filepath.height p.
Proof.
  intros Hne. destruct (filepath.hasSlash p) eqn:Hp.
  - destruct (Dir_shorter p Hp) as [->|Hlt]; [elim Hne; reflexivity|].
    pose proof (height_bound (filepath.Dir p)).
    unfold filepath.height at 2. rewrite Hp. lia.
  - rewrite (Dir_no_slash p Hp) in *. unfold filepath.height. rewrite Hp.
    cbn. destruct (String.eqb_spec p ".") as [->|]; [congruence|lia].
Qed.

(** ** Tokens of a trimmed string, and the fields of a module directive *)

Lemma cutSpace_prefix s w r :
  cutSpace s = Some (w, r) -> forall r', cutSpace (w +:+ r') = Some (w, r').
Proof.
  destruct s as [|b0 r0]; [discriminate|]. cbn [cutSpace].
  destruct (asciiSpace b0) eqn:H0.
  { intros [= <- <-] r'. rewrite sapp_cons, sapp_nil_l. cbn [cutSpace].
    rewrite H0. reflexivity. }
  destruct r0 as [|b1 r1]; [discriminate|].
  destruct (space2 b0 b1) eqn:H1.
  { intros [= <- <-] r'. rewrite !sapp_cons, sapp_nil_l. cbn [cutSpace].
    rewrite H0, H1. reflexivity. }
  destruct r1 as [|b2 r2]; [discriminate|].
  destruct (space3 b0 b1 b2) eqn:H2; [|discriminate].
  intros [= <- <-] r'. rewrite !sapp_cons, sapp_nil_l. cbn [cutSpace].
  rewrite H0, H1, H2. reflexivity.
Qed.

Lemma sapp_inv_head (w r r' : string) : w +:+ r = w +:+ r' -> r = r'.
Proof.
  induction w as [|b w IH]; [auto|]. rewrite !sapp_cons. intros [= H]. auto.
Qed.

(** Token lists that are the tokens of the string they spell. *)
Lemma tokens_detok_Sp w ts :
  tokens (detok (Sp w :: ts)) = Sp w :: ts ->
  tokens (detok ts) = ts
  /\ forall r', cutSpace (w +:+ r') = Some (w, r').
Proof.
  cbn [detok]. intros H.
  destruct (cutSpace (w +:+ detok ts)) as [[w' r']|] eqn:Hc.
  - rewrite (tokens_Sp _ _ _ Hc) in H. injection H as -> H.
    destruct (cutSpace_split _ _ _ Hc) as (Heq & _ & _).
    apply sapp_inv_head in Heq. subst r'. split; [exact H|].
    eapply cutSpace_prefix. exact Hc.
  - destruct (w +:+ detok ts) as [|b r] eqn:Hs; [discriminate H|].
    rewrite (tokens_Ch _ _ Hc) in H. discriminate H.
Qed.

Lemma tokens_detok_Ch b ts :
  tokens (detok (Ch b :: ts)) = Ch b :: ts ->
  tokens (detok ts) = ts /\ cutSpace (String b (detok ts)) = None.
Proof.
  cbn [detok]. intros H.
  destruct (cutSpace (String b (detok ts))) as [[w' r']|] eqn:Hc.
  - rewrite (tokens_Sp _ _ _ Hc) in H. discriminate H.
  - rewrite (tokens_Ch _ _ Hc) in H. injection H as H. auto.
Qed.

Lemma detok_app ts1 ts2 : detok (ts1 ++ ts2) = detok ts1 +:+ detok ts2.
Proof.
  induction ts1 as [|[w|b] ts1 IH]; cbn [app detok]; [reflexivity| |].
  - rewrite IH, sapp_assoc. reflexivity.
  - rewrite IH. reflexivity.
Qed.

Lemma tokens_detok_dropSp ts :
  tokens (detok ts) = ts -> tokens (detok (dropSp ts)) = dropSp ts.
Proof.
  induction ts as [|[w|b] ts IH]; cbn [dropSp]; auto.
  intros H. apply IH. apply (tokens_detok_Sp _ _ H).
Qed.

Lemma tokens_detok_init ts w :
  tokens (detok (ts ++ [Sp w])) = ts ++ [Sp w] -> tokens (detok ts) = ts.
Proof.
  induction ts as [|[w'|b] ts IH]; cbn [app]; intros H; [reflexivity| |].
  - apply tokens_detok_Sp in H as [H Hw]. cbn [detok].
    rewrite (tokens_Sp _ _ _ (Hw _)), (IH H). reflexivity.
  - apply tokens_detok_Ch in H as [H Hc]. cbn [detok].
    rewrite tokens_Ch, (IH H); [reflexivity|].
    rewrite detok_app in Hc. cbn [detok] in Hc. rewrite sapp_nil_r in Hc.
    rewrite <- (sapp_nil_r (detok ts)).
    change (String b (detok ts +:+ "")) with (String b (detok ts) +:+ "").
    apply cutSpace_ctx with (c := w); [discriminate|reflexivity|exact Hc].
Qed.

Lemma tokens_detok_dropSpEnd ts :
  tokens (detok ts) = ts ->
  tokens (detok (rev (dropSp (rev ts)))) = rev (dropSp (rev ts)).
Proof.
  induction ts as [|t ts IH] using rev_ind; [auto|]. intros H.
  rewrite rev_app_distr. cbn [rev app]. destruct t as [w|b]; cbn [dropSp].
  - apply IH. eapply tokens_detok_init. exact H.
  - cbn [rev]. rewrite rev_involutive. exact H.
Qed.

Lemma tokens_TrimSpace s :
  tokens (TrimSpace s) = rev (dropSp (rev (dropSp (tokens s)))).
Proof.
  unfold TrimSpace. apply tokens_detok_dropSpEnd, tokens_detok_dropSp.
  rewrite detok_tokens. reflexivity.
Qed.

(** The last token of a trimmed string is no white space. *)
Lemma tokens_TrimSpace_last s :
  tokens (TrimSpace s) = []
  \/ exists ts b, tokens (TrimSpace s) = ts ++ [Ch b].
Proof.
  rewrite tokens_TrimSpace.
  destruct (dropSp_head (rev (dropSp (tokens s)))) as [->|(b & ts & -> & _)];
    [auto|].
  right. exists (rev ts), b. reflexivity.
Qed.

Lemma prefix_app p s : String.prefix p s = true -> exists u, s = p +:+ u.
Proof.
  revert s. induction p as [|a p IH]; intros s; [exists s; reflexivity|].
  destruct s as [|b s]; [discriminate|]. cbn [String.prefix].
  destruct (Ascii.ascii_dec a b) as [->|]; [|discriminate].
  intros H. destruct (IH _ H) as [u ->]. exists u. reflexivity.
Qed.

(** An ASCII byte that is no white space is no white space in any
    context. *)
Lemma cutSpace_ascii b r :
  (code b <? 0x80)%N = true -> asciiSpace b = false ->
  cutSpace (String b r) = None.
Proof.
  intros Hb Hs. apply N.ltb_lt in Hb. cbn [cutSpace]. rewrite Hs.
  assert (H2 : forall b1, space2 b b1 = false).
  { intros b1. unfold space2. apply andb_false_intro1, N.eqb_neq. lia. }
  assert (H3 : forall b1 b2, space3 b b1 b2 = false).
  { intros b1 b2. unfold space3.
    assert ((code b =? 0xE1)%N = false) as -> by (apply N.eqb_neq; lia).
    assert ((code b =? 0xE2)%N = false) as -> by (apply N.eqb_neq; lia).
    assert ((code b =? 0xE3)%N = false) as -> by (apply N.eqb_neq; lia).
    reflexivity. }
  destruct r as [|b1 [|b2 r]]; rewrite ?H2, ?H3; reflexivity.
Qed.

Lemma tokens_module u :
  tokens ("module " +:+ u) = Chs "module" ++ Sp " " :: tokens u.
Proof.
  change ("module " +:+ u)
    with (String "m" (String "o" (String "d" (String "u" (String "l"
           (String "e" (String " " u))))))).
  rewrite !tokens_Ch by (apply cutSpace_ascii; reflexivity).
  rewrite (tokens_Sp (String " " u) " " u) by reflexivity. reflexivity.
Qed.

Lemma fieldsT_Chs_Sp f w ts :
  fieldsT (Chs f ++ Sp w :: ts) = consField f (fieldsT ts).
Proof.
  unfold fieldsT. rewrite spanCh_Chs. cbn [spanCh].
  destruct (spanCh ts) as [g gs]. cbn [fst snd]. rewrite sapp_nil_r.
  reflexivity.
Qed.

Lemma fieldsT_In_Ch b ts : In (Ch b) ts -> fieldsT ts <> [].
Proof.
  unfold fieldsT. induction ts as [|[w|c] ts IH]; [intros []| |].
  - intros [[=]|Hin]. cbn [spanCh]. specialize (IH Hin).
    destruct (spanCh ts) as [g gs]. exact IH.
  - intros _. cbn [spanCh]. destruct (spanCh ts) as [g gs]. discriminate.
Qed.

(** A trimmed line that starts with "module " has a second field: the
    error for a directive without one cannot arise. *)
Lemma module_line_fields text :
  HasPrefix (TrimSpace text) "module " = true ->
  exists name rest, Fields (TrimSpace text) = "module" :: name :: rest.
Proof.
  intros Hp. apply prefix_app in Hp as [u Hu].
  unfold Fields. pose proof (tokens_TrimSpace_last text) as Hlast.
  rewrite Hu in *. rewrite tokens_module in *.
  rewrite fieldsT_Chs_Sp. cbn [consField].
  assert (Hne : fieldsT (tokens u) <> []).
  { destruct Hlast as [Hnil|(ts & b & Hts)]; [discriminate Hnil|].
    apply (fieldsT_In_Ch b).
    destruct (tokens u) as [|x xs] using rev_ind.
    - apply (f_equal (@rev tok)) in Hts. rewrite !rev_app_distr in Hts.
      cbn [rev app] in Hts. discriminate Hts.
    - clear IHxs. apply (f_equal (@rev tok)) in Hts.
      change (Chs "module" ++ Sp " " :: xs ++ [x])
        with ((Chs "module" ++ [Sp " "]) ++ (xs ++ [x])) in Hts.
      rewrite !rev_app_distr in Hts. cbn [rev app] in Hts.
      injection Hts as -> _. apply in_or_app. right. left. reflexivity. }
  destruct (fieldsT (tokens u)) as [|name rest]; [congruence|]. eauto.
Qed.

(** [parseModuleLines] answers with the second field of the first line
    that, trimmed, starts with "module ". *)
Lemma parseModuleLines_first pre text post scanErr :
  Forall (fun l => HasPrefix (TrimSpace l) "module " = false) pre ->
  HasPrefix (TrimSpace text) "module " = true ->
  exists name rest,
    Fields (TrimSpace text) = "module" :: name :: rest
    /\ parseModuleLines (pre ++ text :: post) scanErr = Ok name.
Proof.
  intros Hpre Htext.
  destruct (module_line_fields _ Htext) as (name & rest & Hf).
  exists name, rest. split; [exact Hf|].
  induction Hpre as [|l pre Hl Hpre IH]; cbn [app parseModuleLines].
  - rewrite Htext, Hf. reflexivity.
  - rewrite Hl. exact IH.
Qed.

Example parseModuleDirective_ex :
  parseModuleDirective
    ("// a comment" +:+ demo.nl +:+ demo.tab +:+ "module   example.com/m  // x"
       +:+ String "013" demo.nl +:+ "module other" +:+ demo.nl)
  = Ok "example.com/m".
Proof. vm_compute. reflexivity. Qed.

(** ** The module locator *)

Lemma ancestor_Dir k d :
  filepath.ancestor k (filepath.Dir d) = filepath.ancestor (S k) d.
Proof. unfold filepath.ancestor. symmetry. apply Nat.iter_succ_r. Qed.

Lemma ancestor_fix k d : filepath.Dir d = d -> filepath.ancestor k d = d.
Proof.
  intros Hd. induction k as [|k IH]; [reflexivity|].
  unfold filepath.ancestor in *. rewrite Nat.iter_succ, IH. exact Hd.
Qed.

Section FindModulePath.

Variable E : Env.

Abbreviation goModOf d := (filepath.Join [d; "go.mod"]).

Lemma findModulePath_loop_unfold fuel startDir dir tr :
  findModulePath_loop E (S fuel) startDir dir tr
  = match os_ReadFile E tr (goModOf dir) with
    | Ok contents =>
      match parseModuleDirective contents with
      | Ok modulePath =>
        Some (Ok (dir, modulePath), tr ++ [EvReadFile (goModOf dir)])
      | Err e => Some (Err e, tr ++ [EvReadFile (goModOf dir)])
      end
    | Err err =>
      if negb (isNotExist err)
      then Some (Err err, tr ++ [EvReadFile (goModOf dir)])
      else if String.eqb (filepath.Dir dir) dir
           then Some (Err (ErrGoModNotFound startDir),
                      tr ++ [EvReadFile (goModOf dir)])
           else findModulePath_loop E fuel startDir (filepath.Dir dir)
                  (tr ++ [EvReadFile (goModOf dir)])
    end.
Proof.
  cbn [findModulePath_loop]. rewrite (bind_eq_Ok _ _ _ _ _ (call_eq _ _ _)).
  destruct (os_ReadFile E tr (goModOf dir)) as [contents|err].
  - unfold bind. destruct (parseModuleDirective contents); reflexivity.
  - destruct (negb (isNotExist err)); [reflexivity|].
    destruct (String.eqb (filepath.Dir dir) dir); reflexivity.
Qed.

(** The loop ends within [height dir] iterations. *)
Lemma findModulePath_loop_returns fuel startDir dir tr :
  filepath.height dir <= fuel ->
  exists r tr', findModulePath_loop E fuel startDir dir tr = Some (r, tr').
Proof.
  revert dir tr. induction fuel as [|fuel IH]; intros dir tr Hh.
  { pose proof (height_pos dir). lia. }
  rewrite findModulePath_loop_unfold.
  destruct (os_ReadFile E tr (goModOf dir)) as [contents|err].
  { destruct (parseModuleDirective contents); eauto. }
  destruct (negb (isNotExist err)); [eauto|].
  destruct (String.eqb_spec (filepath.Dir dir) dir) as [|Hne]; [eauto|].
  apply IH. pose proof (Dir_height dir Hne). lia.
Qed.

Lemma findModulePath_returns startDir : returns (findModulePath E startDir).
Proof.
  intros tr. apply findModulePath_loop_returns. apply height_bound.
Qed.

Lemma NoGoMod_Dir dir : NoGoMod E dir -> NoGoMod E (filepath.Dir dir).
Proof. intros H tr n. rewrite ancestor_Dir. apply H. Qed.

Lemma findModulePath_loop_not_found fuel startDir dir tr :
  NoGoMod E dir -> filepath.height dir <= fuel ->
  exists tr',
    findModulePath_loop E fuel startDir dir tr
    = Some (Err (ErrGoModNotFound startDir), tr').
Proof.
  revert dir tr. induction fuel as [|fuel IH]; intros dir tr Hno Hh.
  { pose proof (height_pos dir). lia. }
  rewrite findModulePath_loop_unfold.
  destruct (Hno tr 0) as (e & He & Hnot).
  change (filepath.ancestor 0 dir) with dir in He. rewrite He, Hnot.
  cbn [negb].
  destruct (String.eqb_spec (filepath.Dir dir) dir) as [|Hne]; [eauto|].
  apply IH; [apply NoGoMod_Dir, Hno|].
  pose proof (Dir_height dir Hne). lia.
Qed.

Lemma readEvents_S n dir :
  readEvents (S n) dir
  = EvReadFile (goModOf dir) :: readEvents n (filepath.Dir dir).
Proof.
  unfold readEvents. cbn [seq map]. f_equal.
  rewrite <- seq_shift, map_map. apply map_ext. intros k.
  rewrite ancestor_Dir. reflexivity.
Qed.

Lemma findModulePath_loop_found fuel startDir dir tr n contents :
  (forall k, k < n -> forall tr, exists e,
       os_ReadFile E tr (goModOf (filepath.ancestor k dir)) = Err e
       /\ isNotExist e = true) ->
  (forall tr, os_ReadFile E tr (goModOf (filepath.ancestor n dir)) = Ok contents) ->
  filepath.height dir <= fuel ->
  findModulePath_loop E fuel startDir dir tr
  = match parseModuleDirective contents with
    | Ok modulePath =>
      Some (Ok (filepath.ancestor n dir, modulePath),
            tr ++ readEvents (S n) dir)
    | Err e => Some (Err e, tr ++ readEvents (S n) dir)
    end.
Proof.
  revert fuel dir tr. induction n as [|n IH]; intros fuel dir tr Hbelow Hat Hh.
  - destruct fuel as [|fuel]; [pose proof (height_pos dir); lia|].
    rewrite findModulePath_loop_unfold.
    change (filepath.ancestor 0 dir) with dir in *. rewrite Hat.
    reflexivity.
  - destruct fuel as [|fuel]; [pose proof (height_pos dir); lia|].
    rewrite findModulePath_loop_unfold.
    destruct (Hbelow 0 ltac:(lia) tr) as (e & He & Hne).
    change (filepath.ancestor 0 dir) with dir in He. rewrite He, Hne.
    cbn [negb].
    destruct (String.eqb_spec (filepath.Dir dir) dir) as [Hfix|Hne'].
    { exfalso. specialize (Hat tr).
      rewrite (ancestor_fix (S n) dir Hfix), He in Hat. discriminate. }
    rewrite (IH fuel (filepath.Dir dir)).
    + rewrite ancestor_Dir, (readEvents_S (S n)), <- app_assoc. reflexivity.
    + intros k Hk tr0. rewrite ancestor_Dir. apply Hbelow. lia.
    + intros tr0. rewrite ancestor_Dir. apply Hat.
    + pose proof (Dir_height dir Hne'). lia.
Qed.

Lemma filepath_Abs_returns p : returns (filepath_Abs E p).
Proof.
  intros tr. unfold filepath_Abs. destruct (filepath.IsAbs p); [cbn; eauto|].
  rewrite (bind_eq_Ok _ _ _ _ _ (call_eq _ _ _)).
  destruct (os_Getwd E tr); cbn; eauto.
Qed.

(** C3: from a directory with no go.mod in it nor above it, the module
    locator returns the error "go.mod not found", and so the inference of
    the local import path returns an error; when the nearest go.mod is
    [n] levels up, the locator returns that directory and the second field
    of the first line that starts, once trimmed, with "module ". *)
Theorem findModulePath_spec :
  (forall startDir tr,
     NoGoMod E startDir ->
     exists tr',
       findModulePath E startDir tr
       = Some (Err (ErrGoModNotFound startDir), tr'))
  /\ (forall sourceDir tr,
        (forall abs tr1,
           filepath_Abs E (if String.eqb sourceDir "" then "./" else sourceDir) tr
           = Some (Ok abs, tr1) -> NoGoMod E abs) ->
        failed (inferLocalImportPath E sourceDir tr))
  /\ (forall startDir tr n contents pre text post scanErr,
        (forall k, k < n -> forall tr, exists e,
             os_ReadFile E tr (goModOf (filepath.ancestor k startDir)) = Err e
             /\ isNotExist e = true) ->
        (forall tr,
           os_ReadFile E tr (goModOf (filepath.ancestor n startDir))
           = Ok contents) ->
        scanLines contents = (pre ++ text :: post, scanErr) ->
        Forall (fun l => HasPrefix (TrimSpace l) "module " = false) pre ->
        HasPrefix (TrimSpace text) "module " = true ->
        exists name rest,
          Fields (TrimSpace text) = "module" :: name :: rest
          /\ findModulePath E startDir tr
             = Some (Ok (filepath.ancestor n startDir, name),
                     tr ++ readEvents (S n) startDir)).
Proof.
  split; [|split].
  - intros startDir tr Hno. apply findModulePath_loop_not_found; [exact Hno|].
    apply height_bound.
  - intros sourceDir tr Hno. unfold inferLocalImportPath, failed.
    set (sd := if String.eqb sourceDir "" then "./" else sourceDir) in *.
    destruct (filepath_Abs_returns sd tr) as ([abs|e] & tr1 & Habs).
    + rewrite (bind_eq_Ok _ _ _ _ _ Habs).
      destruct (findModulePath_loop_not_found
                  (2 + String.length abs) abs abs tr1 (Hno _ _ Habs)
                  (height_bound abs)) as (tr2 & Hfind).
      unfold findModulePath. rewrite (bind_eq_Err _ _ _ _ _ Hfind). eauto.
    + rewrite (bind_eq_Err _ _ _ _ _ Habs). eauto.
  - intros startDir tr n contents pre text post scanErr Hbelow Hat Hscan Hpre Htext.
    destruct (parseModuleLines_first pre text post scanErr Hpre Htext)
      as (name & rest & Hf & Hparse).
    exists name, rest. split; [exact Hf|].
    unfold findModulePath.
    rewrite (findModulePath_loop_found _ _ _ _ n contents Hbelow Hat
               (height_bound startDir)).
    unfold parseModuleDirective. rewrite Hscan, Hparse. reflexivity.
Qed.

End FindModulePath.

Lemma demo_NoGoMod : NoGoMod demo.env "/tmp/y".
Proof.
  assert (Hup : forall n, filepath.ancestor (2 + n) "/tmp/y" = "/").
  { induction n as [|n IH]; [vm_compute; reflexivity|].
    change (2 + S n) with (S (2 + n)). unfold filepath.ancestor in *.
    rewrite Nat.iter_succ, IH. vm_compute. reflexivity. }
  intros tr [|[|n]].
  - exists (ErrNotExist "/tmp/y/go.mod"). split; vm_compute; reflexivity.
  - exists (ErrNotExist "/tmp/go.mod"). split; vm_compute; reflexivity.
  - change (S (S n)) with (2 + n). rewrite Hup.
    exists (ErrNotExist "/go.mod"). split; vm_compute; reflexivity.
Qed.

(** The fixtures of [TestInferLocalImportPath_NoGoMod] (a directory with
    a source file and no go.mod above it) and of
    [TestInferLocalImportPath_AppendsPackageName] (go.mod one level up). *)
Lemma findModulePath_spec_witness :
  (exists tr', findModulePath demo.env "/tmp/y" []
               = Some (Err (ErrGoModNotFound "/tmp/y"), tr'))
  /\ failed (inferLocalImportPath demo.env "/tmp/y" [])
  /\ findModulePath demo.env "/tmp/x/foo" []
     = Some (Ok ("/tmp/x", "example.com/project"),
             [EvReadFile "/tmp/x/foo/go.mod"; EvReadFile "/tmp/x/go.mod"]).
Proof.
  destruct (findModulePath_spec demo.env) as (Ha & Hb & Hc).
  split; [apply Ha, demo_NoGoMod|]. split.
  - apply Hb. intros abs tr1 Habs. vm_compute in Habs.
    injection Habs as <- _. apply demo_NoGoMod.
  - destruct (Hc "/tmp/x/foo" [] 1 demo.goMod []
                 "module example.com/project" [""] None)
      as (name & rest & Hf & Hfind).
    + intros k Hk tr. assert (k = 0) as -> by lia.
      exists (ErrNotExist "/tmp/x/foo/go.mod"). split; vm_compute; reflexivity.
    + intros tr. vm_compute. reflexivity.
    + vm_compute. reflexivity.
    + constructor.
    + vm_compute. reflexivity.
    + vm_compute in Hf. injection Hf as <- _. rewrite Hfind.
      vm_compute. reflexivity.
Defined.

(** C3, the claim as worded: a go.mod is found and its first line begins
    with the module keyword, yet the module name is not what the locator
    returns.  With a tab after the keyword the locator returns "module
    directive not found"; with the module path in a block it returns the
    opening parenthesis. *)
Lemma findModulePath_keyword_without_space :
  os_ReadFile demo.env2 [] "/tabbed/go.mod"
  = Ok ("module" +:+ demo.tab +:+ "example.com/m" +:+ demo.nl)
  /\ HasPrefix ("module" +:+ demo.tab +:+ "example.com/m" +:+ demo.nl) "module"
     = true
  /\ findModulePath demo.env2 "/tabbed" []
     = Some (Err ErrModuleDirectiveNotFound, [EvReadFile "/tabbed/go.mod"])
  /\ os_ReadFile demo.env2 [] "/block/go.mod"
     = Ok ("module (" +:+ demo.nl +:+ demo.tab +:+ "example.com/m" +:+ demo.nl
             +:+ ")" +:+ demo.nl)
  /\ findModulePath demo.env2 "/block" []
     = Some (Ok ("/block", "("), [EvReadFile "/block/go.mod"]).
Proof. vm_compute. repeat split; reflexivity. Qed.

(** ** [lookupPackageDir] never returns an empty directory *)

Lemma Split_head_prefix s c : exists rest, s = nth 0 (Split s c) "" +:+ rest.
Proof.
  induction s as [|b r [rest IH]]; [exists ""; reflexivity|]. cbn [Split].
  destruct (Ascii.eqb b c); [exists (String b r); reflexivity|].
  destruct (Split r c) as [|f fs]; cbn [nth] in *.
  - exists r. reflexivity.
  - exists rest. rewrite sapp_cons, <- IH. reflexivity.
Qed.

Lemma Split_head_cons b r c :
  Ascii.eqb b c = false ->
  exists f, nth 0 (Split (String b r) c) "" = String b f.
Proof.
  intros Hb. cbn [Split]. rewrite Hb. destruct (Split r c); cbn [nth]; eauto.
Qed.

Lemma TrimSpace_cons_Ch b r :
  cutSpace (String b r) = None -> exists r', TrimSpace (String b r) = String b r'.
Proof.
  intros Hc. unfold TrimSpace. rewrite (tokens_Ch _ _ Hc). cbn [dropSp rev].
  rewrite dropSp_snoc_Ch, rev_app_distr. cbn [rev app detok]. eauto.
Qed.

Lemma TrimSpace_cutSpace s b r :
  TrimSpace s = String b r -> cutSpace (String b r) = None.
Proof.
  intros Hs. pose proof (tokens_TrimSpace s) as Ht.
  assert (Hv : tokens (detok (tokens (TrimSpace s))) = tokens (TrimSpace s)).
  { rewrite detok_tokens. reflexivity. }
  destruct (cutSpace (String b r)) as [[w r']|] eqn:Hc; [|reflexivity].
  exfalso. rewrite Hs in Ht. rewrite (tokens_Sp _ _ _ Hc) in Ht.
  destruct (dropSp_head (rev (dropSp (tokens s)))) as [Hd|(c & ts & Hd & _)];
    rewrite Hd in Ht; [discriminate Ht|].
  cbn [rev] in Ht.
  destruct (dropSp_head (tokens s)) as [Hd'|(c' & ts' & Hd' & _)];
    rewrite Hd' in Hd.
  - discriminate Hd.
  - cbn [rev] in Hd. rewrite dropSp_snoc_Ch in Hd.
    apply (f_equal (@rev tok)) in Hd. rewrite rev_app_distr in Hd.
    cbn [rev app] in Hd. rewrite <- Hd in Ht. discriminate Ht.
Qed.

Section LookupNonEmpty.

Variable E : Env.

Lemma lookupPackageDir_dir_nonempty importPath workDir tr dir isStd tr' :
  lookupPackageDir E importPath workDir tr = Some (Ok (dir, isStd), tr') ->
  dir <> "".
Proof.
  intros H.
  destruct (lookupPackageDir_spec E importPath workDir tr) as [Hfail Hok].
  cbv zeta in *.
  destruct (go_list E tr importPath workDir) as [out err] eqn:Hgo.
  cbn [fst snd] in *.
  assert (Herr : err = None /\ TrimSpace out <> "").
  { split.
    - destruct err; [|reflexivity]. exfalso.
      destruct (proj2 Hfail) as (e0 & s & He); [left; discriminate|].
      rewrite H in He. discriminate He.
    - intros Ht. destruct (proj2 Hfail) as (e0 & s & He); [right; exact Ht|].
      rewrite H in He. discriminate He. }
  destruct Herr as [Herr Hne]. rewrite (Hok Herr Hne) in H.
  injection H as <- _ _.
  destruct (TrimSpace_head out) as [?|(b & r & Hout & Hb)]; [congruence|].
  pose proof (TrimSpace_cutSpace _ _ _ Hout) as Hcut. rewrite Hout.
  assert (Hnl : Ascii.eqb b "010" = false).
  { destruct (Ascii.eqb_spec b "010") as [->|]; [discriminate|reflexivity]. }
  assert (Htab : Ascii.eqb b "009" = false).
  { destruct (Ascii.eqb_spec b "009") as [->|]; [discriminate|reflexivity]. }
  destruct (Split_head_cons b r "010" Hnl) as [f1 Hf1].
  destruct (Split_head_prefix (String b r) "010") as [rest1 Hr1].
  rewrite Hf1 in *.
  destruct (Split_head_cons b f1 "009" Htab) as [f2 Hf2].
  destruct (Split_head_prefix (String b f1) "009") as [rest2 Hr2].
  rewrite Hf2 in *.
  assert (Hcut2 : cutSpace (String b f2) = None).
  { rewrite <- (sapp_nil_r (String b f2)).
    apply cutSpace_ctx with (c := rest2 +:+ rest1);
      [discriminate|reflexivity|].
    rewrite <- sapp_assoc, <- Hr2, <- Hr1. exact Hcut. }
  destruct (TrimSpace_cons_Ch _ _ Hcut2) as [r' ->]. discriminate.
Qed.

End LookupNonEmpty.

(** ** The inference of the local import path *)

Section InferLocalImportPath.

Variable E : Env.

Lemma attempt_eq {S A} (c : M S A) s r s' :
  c s = Some (r, s') -> attempt c s = Some (Ok r, s').
Proof. unfold attempt. intros ->. reflexivity. Qed.

Lemma inferLocalImportPath_eq sourceDir tr abs mdir mpath pkg rel tr3 :
  located E sourceDir tr abs mdir mpath pkg rel tr3 ->
  let importPath := computedImportPath mpath rel pkg in
  let base := baseImportPath mpath rel in
  let tr4 := tr3 ++ [EvGoList importPath mdir] in
  let tr5 := tr4 ++ [EvGoList base mdir] in
  inferLocalImportPath E sourceDir tr
  = match lookupPackageDir E importPath mdir tr3 with
    | Some (Ok (dir, _), _) =>
      Some (Ok {| ModuleImportPath := importPath; SourceDirectory := dir |},
            tr4)
    | _ =>
      match lookupPackageDir E base mdir tr4 with
      | Some (Ok (dir, _), _) =>
        Some (Ok {| ModuleImportPath := base; SourceDirectory := dir |}, tr5)
      | _ =>
        Some (Ok {| ModuleImportPath := importPath; SourceDirectory := abs |},
              tr5)
      end
    end.
Proof.
  intros (tr1 & tr2 & Habs & Hfind & Hdetect & Hrel). cbv zeta.
  unfold inferLocalImportPath.
  rewrite (bind_eq_Ok _ _ _ _ _ Habs), (bind_eq_Ok _ _ _ _ _ Hfind).
  rewrite (bind_eq_Ok _ _ _ _ _ Hdetect), Hrel.
  change (liftR (Ok rel)) with (@ret trace _ rel).
  unfold ret at 1. unfold bind at 1.
  set (ip0 := computedImportPath mpath rel pkg).
  set (base := baseImportPath mpath rel).
  destruct (lookupPackageDir_returns E ip0 mdir tr3) as [r1 H1].
  rewrite (bind_eq_Ok _ _ _ _ _ (attempt_eq _ _ _ _ H1)), H1.
  destruct r1 as [[dir std]|e1].
  - pose proof (lookupPackageDir_dir_nonempty E _ _ _ _ _ _ H1) as Hne.
    unfold ret, bind.
    destruct (String.eqb_spec dir "") as [|_]; [congruence|reflexivity].
  - destruct (lookupPackageDir_returns E base mdir
                (tr3 ++ [EvGoList ip0 mdir])) as [r2 H2].
    unfold bind at 1.
    rewrite (bind_eq_Ok _ _ _ _ _ (attempt_eq _ _ _ _ H2)), H2.
    destruct r2 as [[dir std]|e2].
    + pose proof (lookupPackageDir_dir_nonempty E _ _ _ _ _ _ H2) as Hne.
      unfold ret.
      destruct (String.eqb_spec dir "") as [|_]; [congruence|reflexivity].
    + unfold ret. destruct (String.eqb abs ""); reflexivity.
Qed.

(** C1: once the module root, the package name and the relative path are
    found, the inference first runs [go list] on the computed import path;
    if that fails it runs it on the path without the package name and, when
    that succeeds, returns that path; if both fail it returns the computed
    path with the absolute source directory.  It returns no error in any
    of the three cases. *)
Theorem inferLocalImportPath_fallback
  (sourceDir : string) (tr : trace)
  (abs mdir mpath pkg rel : string) (tr3 : trace) :
  located E sourceDir tr abs mdir mpath pkg rel tr3 ->
  let importPath := computedImportPath mpath rel pkg in
  let base := baseImportPath mpath rel in
  let tr4 := tr3 ++ [EvGoList importPath mdir] in
  let tr5 := tr4 ++ [EvGoList base mdir] in
  (forall dir isStd,
     lookupPackageDir E importPath mdir tr3 = Some (Ok (dir, isStd), tr4) ->
     inferLocalImportPath E sourceDir tr
     = Some (Ok {| ModuleImportPath := importPath; SourceDirectory := dir |},
             tr4))
  /\ (forall e dir isStd,
        lookupPackageDir E importPath mdir tr3 = Some (Err e, tr4) ->
        lookupPackageDir E base mdir tr4 = Some (Ok (dir, isStd), tr5) ->
        inferLocalImportPath E sourceDir tr
        = Some (Ok {| ModuleImportPath := base; SourceDirectory := dir |},
                tr5))
  /\ (forall e e',
        lookupPackageDir E importPath mdir tr3 = Some (Err e, tr4) ->
        lookupPackageDir E base mdir tr4 = Some (Err e', tr5) ->
        inferLocalImportPath E sourceDir tr
        = Some (Ok {| ModuleImportPath := importPath; SourceDirectory := abs |},
                tr5))
  /\ exists ip tr', inferLocalImportPath E sourceDir tr = Some (Ok ip, tr').
Proof.
  intros Hloc. pose proof (inferLocalImportPath_eq _ _ _ _ _ _ _ _ Hloc) as Heq.
  cbv zeta in *. repeat split.
  - intros dir isStd H1. rewrite Heq, H1. reflexivity.
  - intros e dir isStd H1 H2. rewrite Heq, H1, H2. reflexivity.
  - intros e e' H1 H2. rewrite Heq, H1, H2. reflexivity.
  - rewrite Heq.
    destruct (lookupPackageDir E _ mdir tr3) as [[[[dir std]|e1] t1]|]; eauto;
      destruct (lookupPackageDir E _ mdir _) as [[[[dir std]|e2] t2]|]; eauto.
Qed.

(** C4: the package name is appended to the module path joined with the
    relative directory only when it is not "main" (nor empty) and differs
    from the last element; and for package main the inferred import path
    is the module path joined with the relative directory, whatever
    [go list] answers. *)
Theorem inferLocalImportPath_package_name
  (sourceDir : string) (tr : trace)
  (abs mdir mpath pkg rel : string) (tr3 : trace) :
  located E sourceDir tr abs mdir mpath pkg rel tr3 ->
  let base := baseImportPath mpath rel in
  base = (if String.eqb rel "." then mpath else path.Join [mpath; rel])
  /\ (computedImportPath mpath rel pkg <> base ->
      computedImportPath mpath rel pkg = path.Join [base; pkg]
      /\ pkg <> "main" /\ pkg <> "" /\ path.Base base <> pkg)
  /\ (pkg <> "main" -> pkg <> "" -> path.Base base <> pkg ->
      computedImportPath mpath rel pkg = path.Join [base; pkg])
  /\ (exists dir tr',
        inferLocalImportPath E sourceDir tr
        = Some (Ok {| ModuleImportPath := computedImportPath mpath rel pkg;
                      SourceDirectory := dir |}, tr')
        \/ inferLocalImportPath E sourceDir tr
           = Some (Ok {| ModuleImportPath := base; SourceDirectory := dir |},
                   tr'))
  /\ (pkg = "main" ->
      exists dir tr',
        inferLocalImportPath E sourceDir tr
        = Some (Ok {| ModuleImportPath := base; SourceDirectory := dir |},
                tr')).
Proof.
  intros Hloc. pose proof (inferLocalImportPath_eq _ _ _ _ _ _ _ _ Hloc) as Heq.
  cbv zeta in *.
  assert (Hres : exists dir tr',
             inferLocalImportPath E sourceDir tr
             = Some (Ok {| ModuleImportPath := computedImportPath mpath rel pkg;
                           SourceDirectory := dir |}, tr')
             \/ inferLocalImportPath E sourceDir tr
                = Some (Ok {| ModuleImportPath := baseImportPath mpath rel;
                              SourceDirectory := dir |}, tr')).
  { rewrite Heq.
    destruct (lookupPackageDir E _ mdir tr3) as [[[[dir std]|e1] t1]|]; eauto;
      destruct (lookupPackageDir E _ mdir _) as [[[[dir std]|e2] t2]|]; eauto. }
  split; [|split; [|split; [|split]]].
  - unfold baseImportPath, filepath.ToSlash.
    destruct (String.eqb rel "."); reflexivity.
  - unfold computedImportPath.
    destruct (String.eqb_spec pkg "") as [|Hne]; cbn [negb andb]; [congruence|].
    destruct (String.eqb_spec pkg "main") as [|Hmain]; cbn [negb];
      [congruence|].
    destruct (String.eqb_spec (path.Base (baseImportPath mpath rel)) pkg)
      as [|Hbase]; cbn [negb]; [congruence|]. auto.
  - intros Hmain Hne Hbase. unfold computedImportPath.
    destruct (String.eqb_spec pkg "") as [|_]; [congruence|].
    destruct (String.eqb_spec pkg "main") as [|_]; [congruence|].
    destruct (String.eqb_spec (path.Base (baseImportPath mpath rel)) pkg)
      as [|_]; [congruence|]. reflexivity.
  - exact Hres.
  - intros ->. destruct Hres as (dir & tr' & [H|H]); eauto.
Qed.

End InferLocalImportPath.

Lemma demo_located_lib :
  located demo.env "/tmp/x/lib" [] "/tmp/x/lib" "/tmp/x" "example.com/project"
    "util" "lib"
    [EvReadFile "/tmp/x/lib/go.mod"; EvReadFile "/tmp/x/go.mod";
     EvReadDir "/tmp/x/lib"; EvParseFile "/tmp/x/lib/util.go"].
Proof.
  exists [], [EvReadFile "/tmp/x/lib/go.mod"; EvReadFile "/tmp/x/go.mod"].
  repeat split; vm_compute; reflexivity.
Qed.

(** A package named "util" in directory lib: [go list] fails on
    example.com/project/lib/util and succeeds without the package name. *)
Lemma inferLocalImportPath_fallback_witness :
  inferLocalImportPath demo.env "/tmp/x/lib" []
  = Some (Ok {| ModuleImportPath := "example.com/project/lib";
                SourceDirectory := "/tmp/x/lib" |},
          [EvReadFile "/tmp/x/lib/go.mod"; EvReadFile "/tmp/x/go.mod";
           EvReadDir "/tmp/x/lib"; EvParseFile "/tmp/x/lib/util.go";
           EvGoList "example.com/project/lib/util" "/tmp/x";
           EvGoList "example.com/project/lib" "/tmp/x"]).
Proof.
  destruct (inferLocalImportPath_fallback demo.env _ _ _ _ _ _ _ _
              demo_located_lib) as (_ & H2 & _).
  eapply (H2 _ "/tmp/x/lib" false); vm_compute; reflexivity.
Defined.

Lemma demo_located_tool :
  located demo.env "/tmp/x/cmd/tool" [] "/tmp/x/cmd/tool" "/tmp/x"
    "example.com/project" "main" "cmd/tool"
    [EvReadFile "/tmp/x/cmd/tool/go.mod"; EvReadFile "/tmp/x/cmd/go.mod";
     EvReadFile "/tmp/x/go.mod";
     EvReadDir "/tmp/x/cmd/tool"; EvParseFile "/tmp/x/cmd/tool/main.go"].
Proof.
  exists [], [EvReadFile "/tmp/x/cmd/tool/go.mod";
              EvReadFile "/tmp/x/cmd/go.mod"; EvReadFile "/tmp/x/go.mod"].
  repeat split; vm_compute; reflexivity.
Qed.

(** The fixture of [TestInferLocalImportPath_PackageMain]. *)
Lemma inferLocalImportPath_package_name_witness :
  exists dir tr',
    inferLocalImportPath demo.env "/tmp/x/cmd/tool" []
    = Some (Ok {| ModuleImportPath := "example.com/project/cmd/tool";
                  SourceDirectory := dir |}, tr').
Proof.
  destruct (inferLocalImportPath_package_name demo.env _ _ _ _ _ _ _ _
              demo_located_tool) as (_ & _ & _ & _ & Hmain).
  exact (Hmain eq_refl).
Defined.

Example inferLocalImportPath_foo :
  inferLocalImportPath demo.env "/tmp/x/foo" []
  = Some (Ok {| ModuleImportPath := "example.com/project/foo";
                SourceDirectory := "/tmp/x/foo" |},
          [EvReadFile "/tmp/x/foo/go.mod"; EvReadFile "/tmp/x/go.mod";
           EvReadDir "/tmp/x/foo"; EvParseFile "/tmp/x/foo/foo.go";
           EvGoList "example.com/project/foo" "/tmp/x"]).
Proof. vm_compute. reflexivity. Qed.

(** Neither path resolves: the source directory is returned as it is. *)
Example inferLocalImportPath_gen :
  inferLocalImportPath demo.env "/tmp/x/gen" []
  = Some (Ok {| ModuleImportPath := "example.com/project/gen";
                SourceDirectory := "/tmp/x/gen" |},
          [EvReadFile "/tmp/x/gen/go.mod"; EvReadFile "/tmp/x/go.mod";
           EvReadDir "/tmp/x/gen"; EvParseFile "/tmp/x/gen/gen.go";
           EvGoList "example.com/project/gen" "/tmp/x";
           EvGoList "example.com/project/gen" "/tmp/x"]).
Proof. vm_compute. reflexivity. Qed.

(** ** Output file names *)

Lemma unwrapPtr_Unwraps T t u :
  Unwraps T t u ->
  exists n, forall fuel, n <= fuel -> unwrapPtr T fuel t = Some u.
Proof.
  induction 1 as [t Hnp|t e u Hp _ [n IH]].
  - exists 1. intros [|fuel] Hf; [lia|]. cbn [unwrapPtr].
    destruct (Shape (T t)) eqn:Hs; try reflexivity. elim (Hnp elem). reflexivity.
  - exists (S n). intros [|fuel] Hf; [lia|]. cbn [unwrapPtr]. rewrite Hp.
    apply IH. lia.
Qed.

Lemma unwrapPtr_sound T fuel t u :
  unwrapPtr T fuel t = Some u -> Unwraps T t u.
Proof.
  revert t. induction fuel as [|fuel IH]; intros t; [discriminate|].
  cbn [unwrapPtr]. destruct (Shape (T t)) eqn:Hs;
    try (intros [= <-]; apply Unwraps_done; intros e; rewrite Hs; discriminate).
  intros H. eapply Unwraps_step; [exact Hs|]. apply IH. exact H.
Qed.

Section ToString.

Variable E : Env.
Variable T : types.

Lemma exportedName_spec (r : rtype) :
  exportedName E r = if namedExported E r then Name r else "".
Proof.
  unfold exportedName, namedExported.
  destruct (String.eqb (Name r) ""); [reflexivity|].
  destruct (token_IsExported E (Name r)); reflexivity.
Qed.

Lemma exportedName_nonempty (r : rtype) :
  namedExported E r = true -> String.eqb (exportedName E r) "" = false.
Proof.
  intros H. rewrite exportedName_spec, H. unfold namedExported in H.
  apply andb_prop in H as [H _]. apply negb_true_iff in H. exact H.
Qed.

Lemma exportedName_empty (r : rtype) :
  namedExported E r = false -> exportedName E r = "".
Proof. intros H. rewrite exportedName_spec, H. reflexivity. Qed.

(** C8: the file name of a model is "" for nil; otherwise, with [u] the
    type left once the pointers are taken off, it is the name of [u] when
    [u] is a defined type with an exported name; else, when [u] is a slice
    or an array whose element, its pointers taken off, is such a type, that
    name followed by "Slice"; else "".  And [WriteSchemas] passes over a
    model whose file name is "". *)
Theorem toString_spec :
  (forall fuel, toString E T fuel None = Some "")
  /\ (forall t u,
        Unwraps T t u ->
        (namedExported E (T u) = true ->
         exists n, forall fuel, n <= fuel ->
           toString E T fuel (Some t) = Some (Name (T u)))
        /\ (namedExported E (T u) = false ->
            sliceElem (Shape (T u)) = None ->
            exists n, forall fuel, n <= fuel ->
              toString E T fuel (Some t) = Some "")
        /\ (namedExported E (T u) = false ->
            forall el e,
              sliceElem (Shape (T u)) = Some el -> Unwraps T el e ->
              exists n, forall fuel, n <= fuel ->
                toString E T fuel (Some t)
                = Some (if namedExported E (T e)
                        then Name (T e) +:+ "Slice" else "")))
  /\ (forall fuel outputDir model rest st,
        toString E T fuel model = Some "" ->
        WriteSchemas E T fuel outputDir (model :: rest) st
        = WriteSchemas E T fuel outputDir rest st).
Proof.
  split; [reflexivity|]. split.
  - intros t u Hu. destruct (unwrapPtr_Unwraps _ _ _ Hu) as [n Hn].
    split; [|split].
    + intros Hex. exists n. intros fuel Hf. unfold toString.
      rewrite (Hn fuel Hf), (exportedName_nonempty _ Hex). cbn [negb].
      rewrite exportedName_spec, Hex. reflexivity.
    + intros Hex Hel. exists n. intros fuel Hf. unfold toString.
      rewrite (Hn fuel Hf), (exportedName_empty _ Hex). cbn [negb String.eqb].
      destruct (Shape (T u)); try reflexivity; discriminate Hel.
    + intros Hex el e Hel He.
      destruct (unwrapPtr_Unwraps _ _ _ He) as [m Hm].
      exists (Nat.max n m). intros fuel Hf. unfold toString.
      rewrite (Hn fuel ltac:(lia)), (exportedName_empty _ Hex).
      cbn [negb String.eqb].
      assert (Hgoal :
                match unwrapPtr T fuel el with
                | Some elem =>
                  if negb (String.eqb (exportedName E (T elem)) "")
                  then Some (exportedName E (T elem) +:+ "Slice")
                  else Some ""
                | None => None
                end
                = Some (if namedExported E (T e)
                        then Name (T e) +:+ "Slice" else "")).
      { rewrite (Hm fuel ltac:(lia)), exportedName_spec.
        destruct (namedExported E (T e)) eqn:Hne; [|reflexivity].
        unfold namedExported in Hne. apply andb_prop in Hne as [Hne _].
        rewrite Hne. reflexivity. }
      destruct (Shape (T u)); try discriminate Hel;
        injection Hel as ->; exact Hgoal.
  - intros fuel outputDir model rest st Hs. cbn [WriteSchemas].
    rewrite Hs. reflexivity.
Qed.

End ToString.

Lemma demo_Unwraps_SubjectPtr :
  Unwraps demo.T demo.tSubjectPtr demo.tSubject.
Proof.
  eapply Unwraps_step; [reflexivity|]. apply Unwraps_done. discriminate.
Qed.

(** [toString(&example.Subject{})] of [TestToStringAndExportedName]. *)
Lemma toString_spec_witness :
  exists n, forall fuel, n <= fuel ->
    toString demo.env demo.T fuel (Some demo.tSubjectPtr) = Some "Subject".
Proof.
  destruct (toString_spec demo.env demo.T) as (_ & H & _).
  destruct (H _ _ demo_Unwraps_SubjectPtr) as (Hnamed & _).
  apply Hnamed. reflexivity.
Defined.

(** The cases of [TestToStringAndExportedName], and a model of type
    [uuid.UUID], a defined array type. *)
Example toString_tests :
  map (toString demo.env demo.T 3)
      [Some demo.tSubject; Some demo.tSubjectPtr; Some demo.tWrapper;
       Some demo.tSubjectPtrSlice; None; Some demo.tUUID; Some demo.tString]
  = [Some "Subject"; Some "Subject"; Some ""; Some "SubjectSlice"; Some "";
     Some "UUID"; Some ""].
Proof. vm_compute. reflexivity. Qed.

(** On [type P *P] the loop that takes the pointers off does not end. *)
Lemma unwrapPtr_P fuel : unwrapPtr demo.T fuel demo.tP = None.
Proof. induction fuel as [|fuel IH]; [reflexivity|exact IH]. Qed.

Example toString_P fuel : toString demo.env demo.T fuel (Some demo.tP) = None.
Proof. unfold toString. rewrite unwrapPtr_P. reflexivity. Qed.

(** ** The dependent-package walk *)

Example collectDependentPackages_nested :
  collectDependentPackages demo.T 6 [Some demo.tNested]
  = Some ["github.com/google/uuid"; "pkt.systems/schemator"; "time"].
Proof. vm_compute. reflexivity. Qed.

(** A struct that refers to itself through a pointer: the visited set ends
    the walk. *)
Example collectDependentPackages_Node :
  collectDependentPackages demo.T 6 [Some demo.tNode; None; Some demo.tSubject]
  = Some ["main"; "pkt.systems/schemator/example"; "time"].
Proof. vm_compute. reflexivity. Qed.

(** C2: on a model of type [P] declared [type P *P] the walk does not end:
    the loop that takes the pointers off runs before the visited set is
    looked at, and [P] is its own element type.  No bound on the number of
    steps gives a result. *)
Theorem collectDependentPackages_pointer_cycle :
  forall fuel, collectDependentPackages demo.T fuel [Some demo.tP] = None.
Proof.
  intros fuel. unfold collectDependentPackages. cbn [visitModels].
  change (TypeOf (Some demo.tP)) with (Some demo.tP).
  assert (H : visitTypeForPackages demo.T fuel (Some demo.tP) (∅, ∅) = None).
  { destruct fuel as [|fuel]; [reflexivity|].
    cbn [visitTypeForPackages]. rewrite unwrapPtr_P. reflexivity. }
  rewrite H. reflexivity.
Qed.

(** ** Computations: what they preserve, and that they return *)

Section Preserves.

Context {S : Type} (R : S -> S -> Prop) `{!Reflexive R} `{!Transitive R}.

Lemma preserves_ret {A} (a : A) : preserves R (ret a).
Proof. intros s r s' [= <- <-]. reflexivity. Qed.

Lemma preserves_fail {A} e : preserves R (@fail S A e).
Proof. intros s r s' [= <- <-]. reflexivity. Qed.

Lemma preserves_diverge {A} : preserves R (@diverge S A).
Proof. intros s r s' [=]. Qed.

Lemma preserves_liftR {A} (x : result A) : preserves R (liftR x).
Proof. destruct x; [apply preserves_ret|apply preserves_fail]. Qed.

Lemma preserves_liftE (x : option error) : preserves R (liftE x).
Proof. destruct x; [apply preserves_fail|apply preserves_ret]. Qed.

Lemma preserves_liftO {A} (x : option A) : preserves R (liftO x).
Proof. destruct x; [apply preserves_ret|apply preserves_diverge]. Qed.

Lemma preserves_bind {A B} (c : M S A) (k : A -> M S B) :
  preserves R c -> (forall a, preserves R (k a)) -> preserves R (bind c k).
Proof.
  intros Hc Hk s r s' H. apply bind_inv in H as [(e & H & _)|(a & s1 & H & H')].
  - exact (Hc _ _ _ H).
  - etrans; [exact (Hc _ _ _ H)|exact (Hk _ _ _ _ H')].
Qed.

Lemma preserves_attempt {A} (c : M S A) : preserves R c -> preserves R (attempt c).
Proof.
  intros Hc s r s'. unfold attempt.
  destruct (c s) as [[r1 s1]|] eqn:H; [|discriminate].
  intros [= <- <-]. exact (Hc _ _ _ H).
Qed.

Lemma preserves_finally {A B} (c : M S A) (d : M S B) :
  preserves R c -> preserves R d -> preserves R (finally c d).
Proof.
  intros Hc Hd s r s'. unfold finally.
  destruct (c s) as [[r1 s1]|] eqn:H1; [|discriminate].
  destruct (d s1) as [[r2 s2]|] eqn:H2; [|discriminate].
  intros [= <- <-]. etrans; [exact (Hc _ _ _ H1)|exact (Hd _ _ _ H2)].
Qed.

End Preserves.

Section Returns.

Context {S : Type}.

Lemma returns_ret {A} (a : A) : returns (@ret S A a).
Proof. intros s. cbn. eauto. Qed.

Lemma returns_fail {A} e : returns (@fail S A e).
Proof. intros s. cbn. eauto. Qed.

Lemma returns_liftR {A} (x : result A) : returns (@liftR S A x).
Proof. destruct x; [apply returns_ret|apply returns_fail]. Qed.

Lemma returns_liftE (x : option error) : returns (@liftE S x).
Proof. destruct x; [apply returns_fail|apply returns_ret]. Qed.

Lemma returns_bind {A B} (c : M S A) (k : A -> M S B) :
  returns c -> (forall a, returns (k a)) -> returns (bind c k).
Proof.
  intros Hc Hk s. unfold bind. destruct (Hc s) as ([a|e] & s1 & ->); [|eauto].
  apply Hk.
Qed.

Lemma returns_attempt {A} (c : M S A) : returns c -> returns (attempt c).
Proof. intros Hc s. unfold attempt. destruct (Hc s) as (r & s1 & ->). eauto. Qed.

Lemma returns_finally {A B} (c : M S A) (d : M S B) :
  returns c -> returns d -> returns (finally c d).
Proof.
  intros Hc Hd s. unfold finally. destruct (Hc s) as (r & s1 & ->).
  destruct (Hd s1) as (r' & s2 & ->). eauto.
Qed.

End Returns.

Lemma returns_call {A} ev (f : trace -> A) : returns (call ev f).
Proof. intros tr. rewrite call_eq. eauto. Qed.

Lemma returns_io {A} (c : M trace A) : returns c -> returns (io c).
Proof. intros Hc s. unfold io. destruct (Hc (log s)) as (r & tr & ->). eauto. Qed.

Global Instance quiet_refl : Reflexive quiet.
Proof. intros tr. exists []. split; [symmetry; apply app_nil_r|constructor]. Qed.

Global Instance quiet_trans : Transitive quiet.
Proof.
  intros tr1 tr2 tr3 (e1 & -> & H1) (e2 & -> & H2). exists (e1 ++ e2).
  split; [symmetry; apply app_assoc|]. apply Forall_app. auto.
Qed.

Global Instance quietS_refl : Reflexive quietS.
Proof. intros s. split; reflexivity. Qed.

Global Instance quietS_trans : Transitive quietS.
Proof.
  intros s1 s2 s3 [Hf1 Hq1] [Hf2 Hq2]. split; [congruence|].
  etrans; eassumption.
Qed.

Lemma preserves_call {A} ev (f : trace -> A) :
  isHarvest ev = false -> preserves quiet (call ev f).
Proof.
  intros Hev tr r tr'. rewrite call_eq. intros [= <- <-].
  exists [ev]. split; [reflexivity|]. constructor; [exact Hev|constructor].
Qed.

Lemma preserves_io {A} (c : M trace A) :
  preserves quiet c -> preserves quietS (io c).
Proof.
  intros Hc s r s'. unfold io.
  destruct (c (log s)) as [[r1 tr1]|] eqn:H; [|discriminate].
  intros [= <- <-]. split; [reflexivity|]. exact (Hc _ _ _ H).
Qed.

Lemma preserves_getGen : preserves quietS getGen.
Proof. intros s r s' [= <- <-]. reflexivity. Qed.

Lemma preserves_setImportPaths ips : preserves quietS (setImportPaths ips).
Proof. intros s r s' [= <- <-]. split; reflexivity. Qed.

Lemma returns_getGen : returns getGen.
Proof. intros s. cbn. unfold getGen. eauto. Qed.

Lemma returns_setImportPaths ips : returns (setImportPaths ips).
Proof. intros s. unfold setImportPaths. eauto. Qed.

Create HintDb pres discriminated.
Create HintDb rets discriminated.

#[global] Hint Resolve preserves_getGen preserves_setImportPaths : pres.
#[global] Hint Extern 1 (preserves quiet (call _ _)) =>
  apply preserves_call; reflexivity : pres.
#[global] Hint Resolve returns_ret returns_fail returns_liftR returns_liftE
  returns_call returns_getGen returns_setImportPaths : rets.

(** Goals about a computation built from the combinators: split at each
    [bind], and take the cases of what is matched on. *)
Ltac pres :=
  repeat first
    [ match goal with
      | |- Reflexive _ => exact _
      | |- Transitive _ => exact _
      end
    | solve [auto 1 with pres]
    | simple apply @preserves_ret
    | simple apply @preserves_fail
    | simple apply @preserves_liftR
    | simple apply @preserves_liftE
    | simple apply @preserves_liftO
    | simple apply @preserves_diverge
    | simple apply @preserves_attempt
    | simple apply @preserves_finally
    | simple apply @preserves_io
    | simple apply @preserves_bind; [| |intros ?]
    | match goal with
      | |- preserves _ (match ?x with _ => _ end) => destruct x
      end ].

Ltac rets :=
  repeat first
    [ solve [auto 1 with rets]
    | simple apply @returns_attempt
    | simple apply @returns_finally
    | simple apply @returns_io
    | simple apply @returns_bind; [|intros ?]
    | match goal with
      | |- returns (match ?x with _ => _ end) => destruct x
      end ].

Section Generator.

Variable E : Env.

Lemma lookupPackageDir_quiet importPath workDir :
  preserves quiet (lookupPackageDir E importPath workDir).
Proof. unfold lookupPackageDir. pres. Qed.

Lemma lookupPackageDir_rets importPath workDir :
  returns (lookupPackageDir E importPath workDir).
Proof. unfold lookupPackageDir. rets. Qed.

Lemma findModulePath_quiet startDir : preserves quiet (findModulePath E startDir).
Proof.
  unfold findModulePath. generalize (2 + String.length startDir) as fuel.
  generalize startDir at 2 as dir.
  intros dir fuel. revert dir.
  induction fuel as [|fuel IH]; intros dir; cbn [findModulePath_loop]; pres.
Qed.

Lemma detectPackageName_loop_quiet dir entries :
  preserves quiet (detectPackageName_loop E dir entries).
Proof.
  induction entries as [|entry rest IH]; cbn [detectPackageName_loop]; pres.
Qed.

Lemma detectPackageName_loop_rets dir entries :
  returns (detectPackageName_loop E dir entries).
Proof.
  induction entries as [|entry rest IH]; cbn [detectPackageName_loop]; rets.
Qed.

Hint Resolve detectPackageName_loop_quiet : pres.
Hint Resolve detectPackageName_loop_rets : rets.

Lemma detectPackageName_quiet dir : preserves quiet (detectPackageName E dir).
Proof. unfold detectPackageName. pres. Qed.

Lemma detectPackageName_rets dir : returns (detectPackageName E dir).
Proof. unfold detectPackageName. rets. Qed.

Lemma filepath_Abs_quiet p : preserves quiet (filepath_Abs E p).
Proof. unfold filepath_Abs. pres. Qed.

Hint Resolve lookupPackageDir_quiet findModulePath_quiet
  detectPackageName_quiet filepath_Abs_quiet : pres.
Hint Resolve lookupPackageDir_rets findModulePath_returns
  detectPackageName_rets filepath_Abs_returns : rets.

Lemma inferLocalImportPath_quiet sourceDir :
  preserves quiet (inferLocalImportPath E sourceDir).
Proof. unfold inferLocalImportPath. pres. Qed.

Lemma inferLocalImportPath_rets sourceDir :
  returns (inferLocalImportPath E sourceDir).
Proof. unfold inferLocalImportPath. rets. Qed.

Lemma ensureSourceDirectory_quiet ip :
  preserves quiet (ensureSourceDirectory E ip).
Proof. unfold ensureSourceDirectory. pres. Qed.

Lemma ensureSourceDirectory_rets ip : returns (ensureSourceDirectory E ip).
Proof. unfold ensureSourceDirectory. rets. Qed.

Lemma statAll_quiet files : preserves quiet (statAll E files).
Proof. induction files as [|p rest IH]; cbn [statAll]; pres. Qed.

Lemma statAll_rets files : returns (statAll E files).
Proof. induction files as [|p rest IH]; cbn [statAll]; rets. Qed.

Hint Resolve inferLocalImportPath_quiet ensureSourceDirectory_quiet
  statAll_quiet : pres.
Hint Resolve inferLocalImportPath_rets ensureSourceDirectory_rets
  statAll_rets : rets.

Lemma appendInferred_quiet pkgs existing :
  preserves quietS (appendInferred pkgs existing).
Proof.
  revert existing.
  induction pkgs as [|pkg rest IH]; intros existing; cbn [appendInferred]; pres.
Qed.

Lemma appendInferred_rets pkgs existing : returns (appendInferred pkgs existing).
Proof.
  revert existing.
  induction pkgs as [|pkg rest IH]; intros existing; cbn [appendInferred]; rets.
Qed.

Lemma resolveEach_quiet i pending resolved :
  preserves quietS (resolveEach E i pending resolved).
Proof.
  revert i resolved.
  induction pending as [|ip rest IH]; intros i resolved; cbn [resolveEach];
    pres.
Qed.

Lemma resolveEach_rets i pending resolved :
  returns (resolveEach E i pending resolved).
Proof.
  revert i resolved.
  induction pending as [|ip rest IH]; intros i resolved; cbn [resolveEach];
    rets.
Qed.

Hint Resolve appendInferred_quiet resolveEach_quiet : pres.
Hint Resolve appendInferred_rets resolveEach_rets : rets.

Variable T : types.
Variable fuel : nat.

Lemma resolveImportPaths_quiet models :
  preserves quietS (resolveImportPaths E T fuel models).
Proof. unfold resolveImportPaths. pres. Qed.

(** [resolveImportPaths] returns when the walk over the types of the
    models ends. *)
Lemma resolveImportPaths_rets models :
  collectDependentPackages T fuel models <> None ->
  returns (resolveImportPaths E T fuel models).
Proof.
  intros Hwalk. unfold resolveImportPaths.
  destruct (collectDependentPackages T fuel models) as [pkgs|]; [|congruence].
  change (@liftO state _ (Some pkgs)) with (@ret state _ pkgs). rets.
Qed.

End Generator.

(** ** The generator *)

Section Generate.

Variable E : Env.
Variable T : types.
Variable fuel : nat.

Lemma statAll_missing files p :
  In p files -> (forall tr, os_Stat E tr p <> None) ->
  forall tr, failed (statAll E files tr).
Proof.
  intros Hin Hp. induction files as [|q rest IH]; [destruct Hin|].
  intros tr. cbn [statAll]. rewrite (bind_eq_Ok _ _ _ _ _ (call_eq _ _ _)).
  destruct (os_Stat E tr q) as [e|] eqn:Hq.
  - cbn. unfold failed. eauto.
  - destruct Hin as [->|Hin]; [elim (Hp tr); exact Hq|].
    cbn [liftE]. rewrite (bind_eq_Ok _ _ _ _ _ eq_refl). apply IH. exact Hin.
Qed.

Lemma Generate_after_resolve (model : any) (st : state) r1 st1 p :
  resolveImportPaths E T fuel [model] st = Some (r1, st1) ->
  In p (filesThatMustExist (gen st)) ->
  (forall tr, os_Stat E tr p <> None) ->
  exists e st',
    Generate E T fuel model st = Some (Err e, st') /\ quiet (log st) (log st').
Proof.
  intros Hres Hin Hp. unfold Generate.
  destruct (resolveImportPaths_quiet E T fuel _ _ _ _ Hres) as [Hfiles Hq1].
  destruct r1 as [ips|e].
  - rewrite (bind_eq_Ok _ _ _ _ _ Hres).
    rewrite (bind_eq_Ok _ _ _ _ _ (eq_refl : getGen st1 = Some (Ok (gen st1), st1))).
    rewrite <- Hfiles in Hin.
    destruct (statAll_missing _ _ Hin Hp (log st1)) as (e & tr2 & Hstat).
    assert (Hio : io (statAll E (filesThatMustExist (gen st1))) st1
                  = Some (Err e, {| gen := gen st1; log := tr2 |})).
    { unfold io. rewrite Hstat. reflexivity. }
    rewrite (bind_eq_Err _ _ _ _ _ Hio). eexists _, _. split; [reflexivity|].
    cbn [log]. etrans; [exact Hq1|]. exact (statAll_quiet E _ _ _ _ Hstat).
  - rewrite (bind_eq_Err _ _ _ _ _ Hres). eauto.
Qed.

(** C9: when the models before [model] are written and writing [model]
    returns an error, [WriteSchemas] returns that error in the state in
    which it arose: the models after it are not looked at. *)
Theorem WriteSchemas_aborts
  (outputDir : string) (before : list any) (model : any) (rest : list any)
  (st st1 st2 : state) (filename : string) (e : error) :
  WriteSchemas E T fuel outputDir before st = Some (Ok tt, st1) ->
  toString E T fuel model = Some filename ->
  filename <> "" ->
  WriteSchema E T fuel model
    (filepath.Join [outputDir; filename +:+ ".schema.json"]) st1
  = Some (Err e, st2) ->
  WriteSchemas E T fuel outputDir (before ++ model :: rest) st
  = Some (Err e, st2).
Proof.
  intros Hbefore Hname Hne Hwrite. revert st Hbefore.
  induction before as [|m before IH]; intros st Hbefore.
  - injection Hbefore as ->. cbn [app WriteSchemas]. rewrite Hname.
    cbn [liftO]. rewrite bind_ret_l.
    destruct (String.eqb_spec filename "") as [|_]; [congruence|].
    rewrite (bind_eq_Err _ _ _ _ _ Hwrite). reflexivity.
  - cbn [app WriteSchemas] in *.
    destruct (toString E T fuel m) as [f|]; [|discriminate Hbefore].
    cbn [liftO] in *. rewrite bind_ret_l in Hbefore |- *.
    destruct (String.eqb f ""); [apply IH; exact Hbefore|].
    apply bind_Ok in Hbefore as (u & st' & Hm & Hbefore).
    rewrite (bind_eq_Ok _ _ _ _ _ Hm). apply IH. exact Hbefore.
Qed.

End Generate.

Example Generate_Subject :
  exists st',
    Generate demo.env demo.T 6 (Some demo.tSubject)
      {| gen := {| filesThatMustExist := []; importPaths := [] |}; log := [] |}
    = Some (Ok "{}", st')
    /\ map ModuleImportPath (importPaths (gen st'))
       = ["example.com/project/foo"; "pkt.systems/schemator/example"; "time"].
Proof. eexists. split; vm_compute; reflexivity. Qed.

(** Three models; the file of the second cannot be created. *)
Lemma WriteSchemas_aborts_witness :
  exists st2,
    WriteSchemas demo.env demo.T 6 "out"
      [Some demo.tSubject; Some demo.tUUID; Some demo.tNested]
      {| gen := {| filesThatMustExist := []; importPaths := [] |}; log := [] |}
    = Some (Err (ErrExternal "permission denied"), st2).
Proof.
  eexists.
  eapply (WriteSchemas_aborts demo.env demo.T 6 "out" [Some demo.tSubject]
            (Some demo.tUUID) [Some demo.tNested] _ _ _ "UUID").
  - vm_compute. reflexivity.
  - reflexivity.
  - discriminate.
  - vm_compute. reflexivity.
Defined.

(** ** The dependent-package walk: what it collects *)

Lemma Unwraps_fun T t u u' : Unwraps T t u -> Unwraps T t u' -> u = u'.
Proof.
  induction 1 as [t Hnp|t e u Hp _ IH]; inversion 1 as [? Hnp'|? e' ? Hp' Hu'];
    subst.
  - reflexivity.
  - elim (Hnp e'). exact Hp'.
  - elim (Hnp' e). exact Hp.
  - apply IH. congruence.
Qed.

Lemma Visits_kid_trans T t u c v :
  Visits T t u -> In c (kids (Shape (T u))) -> Visits T c v -> Visits T t v.
Proof.
  intros Htu Hc Hcv. induction Hcv as [c v Hu|c u' c' v Hcu' IH Hc' Hu].
  - eapply Visits_kid; eassumption.
  - eapply Visits_kid; [apply IH; assumption|exact Hc'|exact Hu].
Qed.

Lemma size_list_to_set_le (l : list nat) :
  size (list_to_set l : gset nat) <= length l.
Proof.
  induction l as [|t l IH].
  - change (list_to_set [] : gset nat) with (∅ : gset nat).
    rewrite size_empty. cbn. lia.
  - change (list_to_set (t :: l) : gset nat)
      with ({[t]} ∪ (list_to_set l : gset nat)).
    rewrite size_union_alt, size_singleton. cbn [length].
    pose proof (subseteq_size ((list_to_set l : gset nat) ∖ {[t]})
                  (list_to_set l) ltac:(set_solver)). lia.
Qed.

Section Walk.

Variable T : types.

Lemma walked_nil st : walked T [] st st.
Proof.
  split; [reflexivity|]. split; [intros t []|]. split; [auto|].
  split; [intros v Hv Hn; contradiction|].
  intros p. split; [auto|].
  intros [?|(_ & v & Hv & Hn & _)]; [assumption|contradiction].
Qed.

Lemma walked_cons t ts st st1 st2 :
  walked T [t] st st1 -> walked T ts st1 st2 -> walked T (t :: ts) st st2.
Proof.
  intros (Hs1 & Hu1 & Hv1 & Hc1 & Hp1) (Hs2 & Hu2 & Hv2 & Hc2 & Hp2).
  split; [set_solver|]. split; [|split; [|split]].
  - intros t' [<-|Hin].
    + destruct (Hu1 t (or_introl eq_refl)) as (u & Hu & Hin). exists u.
      split; [exact Hu|]. set_solver.
    + apply Hu2. exact Hin.
  - intros v Hv. destruct (Hv2 v Hv) as [Hv'|(t' & Hin & Hvis)].
    + destruct (Hv1 v Hv') as [?|(t' & [<-|[]] & Hvis)]; [auto|].
      right. exists t. split; [left; reflexivity|exact Hvis].
    + right. exists t'. split; [right; exact Hin|exact Hvis].
  - intros v Hv Hn c w Hc Hw. destruct (decide (v ∈ st1.2)) as [Hv1'|Hv1'].
    + apply Hs2. eapply Hc1; eassumption.
    + eapply Hc2; eassumption.
  - intros p. rewrite Hp2, Hp1. split.
    + intros [[?|(Hne & v & Hv & Hn & Hp)]|(Hne & v & Hv & Hn & Hp)]; [auto| |].
      * right. split; [exact Hne|]. exists v.
        split; [apply Hs2; exact Hv|]. split; [exact Hn|exact Hp].
      * right. split; [exact Hne|]. exists v.
        split; [exact Hv|]. split; [|exact Hp].
        intros Hv'. apply Hn, Hs1, Hv'.
    + intros [?|(Hne & v & Hv & Hn & Hp)]; [auto|].
      destruct (decide (v ∈ st1.2)) as [Hv1'|Hv1'].
      * left. right. split; [exact Hne|]. exists v. auto.
      * right. split; [exact Hne|]. exists v. auto.
Qed.

Lemma visitFields_walked visit fields st st' :
  (forall c st0 st1, In c fields -> visit (Some c) st0 = Some st1 ->
                     walked T [c] st0 st1) ->
  visitFields visit fields st = Some st' -> walked T fields st st'.
Proof.
  revert st. induction fields as [|c fields IH]; intros st Hvisit; cbn [visitFields].
  - intros [= <-]. apply walked_nil.
  - destruct (visit (Some c) st) as [st1|] eqn:Hc; [|discriminate].
    intros Hrest. eapply walked_cons.
    + eapply Hvisit; [left; reflexivity|exact Hc].
    + apply IH; [|exact Hrest]. intros c' st0 st2 Hin. apply Hvisit. right.
      exact Hin.
Qed.

(** The cases of [switch t.Kind()] are a loop over the component types. *)
Lemma visitTypeForPackages_unfold fuel t st :
  visitTypeForPackages T (S fuel) (Some t) st
  = match unwrapPtr T (S fuel) t with
    | None => None
    | Some u =>
      if decide (u ∈ st.2) then Some st
      else
        visitFields (visitTypeForPackages T fuel) (kids (Shape (T u)))
          (if negb (String.eqb (PkgPath (T u)) "")
           then {[PkgPath (T u)]} ∪ st.1 else st.1,
           {[u]} ∪ st.2)
    end.
Proof.
  cbn [visitTypeForPackages]. destruct (unwrapPtr T (S fuel) t) as [u|];
    [|reflexivity].
  destruct st as [pk vis]. cbn [fst snd].
  destruct (decide (u ∈ vis)); [reflexivity|].
  destruct (Shape (T u)); cbn [kids visitFields]; try reflexivity.
  - destruct (visitTypeForPackages T fuel (Some elem) _); reflexivity.
  - destruct (visitTypeForPackages T fuel (Some elem) _); reflexivity.
  - destruct (visitTypeForPackages T fuel (Some elem) _); reflexivity.
  - destruct (visitTypeForPackages T fuel (Some key) _) as [st1|];
      [|reflexivity].
    destruct (visitTypeForPackages T fuel (Some elem) st1); reflexivity.
Qed.

Lemma visitTypeForPackages_walked fuel t st st' :
  visitTypeForPackages T fuel (Some t) st = Some st' -> walked T [t] st st'.
Proof.
  revert t st st'. induction fuel as [|fuel IH]; intros t st st';
    [discriminate|].
  rewrite visitTypeForPackages_unfold.
  destruct (unwrapPtr T (S fuel) t) as [u|] eqn:Hu; [|discriminate].
  apply unwrapPtr_sound in Hu.
  destruct (decide (u ∈ st.2)) as [Hin|Hnew].
  - intros [= <-]. split; [reflexivity|].
    split; [intros t' [<-|[]]; eauto|]. split; [auto|].
    split; [intros v Hv Hn; contradiction|].
    intros p. split; [auto|].
    intros [?|(_ & v & Hv & Hn & _)]; [assumption|contradiction].
  - intros Hfields.
    apply visitFields_walked in Hfields;
      [|intros c st0 st1 _; apply IH].
    destruct Hfields as (Hs & Hk & Hv & Hc & Hp). cbn [fst snd] in *.
    split; [set_solver|]. split; [|split; [|split]].
    + intros t' [<-|[]]. exists u. split; [exact Hu|]. set_solver.
    + intros v Hv'. destruct (Hv v Hv') as [Hv1|(c & Hin & Hvis)].
      * apply elem_of_union in Hv1 as [Hv1|Hv1]; [|auto].
        apply elem_of_singleton in Hv1 as ->. right. exists t.
        split; [left; reflexivity|]. apply Visits_start. exact Hu.
      * right. exists t. split; [left; reflexivity|].
        eapply Visits_kid_trans; [apply Visits_start; exact Hu|exact Hin|].
        exact Hvis.
    + intros v Hv' Hn c w Hcin Hw. destruct (decide (v = u)) as [->|Hvu].
      * destruct (Hk c Hcin) as (w' & Hw' & Hin').
        rewrite (Unwraps_fun _ _ _ _ Hw Hw'). exact Hin'.
      * eapply Hc; [exact Hv'|set_solver|exact Hcin|exact Hw].
    + intros p. rewrite Hp. split.
      * intros [Hp1|(Hne & v & Hv' & Hn & Hpv)].
        -- destruct (String.eqb_spec (PkgPath (T u)) "") as [He|He];
             cbn [negb] in Hp1; [auto|].
           apply elem_of_union in Hp1 as [Hp1|Hp1]; [|auto].
           apply elem_of_singleton in Hp1 as ->. right. split; [exact He|].
           exists u. repeat split; [set_solver|exact Hnew].
        -- right. split; [exact Hne|]. exists v. repeat split; auto.
           set_solver.
      * intros [Hp0|(Hne & v & Hv' & Hn & Hpv)].
        -- left. destruct (negb _); set_solver.
        -- destruct (decide (v = u)) as [->|Hvu].
           ++ left. subst p.
              destruct (String.eqb_spec (PkgPath (T u)) "") as [He|He];
                [congruence|]. cbn [negb]. set_solver.
           ++ right. split; [exact Hne|]. exists v. repeat split; auto.
              set_solver.
Qed.

Lemma visitModels_walked fuel models st st' :
  visitModels T fuel models st = Some st' ->
  walked T (omap id models) st st'.
Proof.
  revert st. induction models as [|[t|] models IH]; intros st;
    cbn [visitModels omap].
  - intros [= <-]. apply walked_nil.
  - change (TypeOf (Some t)) with (Some t). cbn [id].
    destruct (visitTypeForPackages T fuel (Some t) st) as [st1|] eqn:Ht;
      [|discriminate].
    intros Hrest. eapply walked_cons.
    + eapply visitTypeForPackages_walked. exact Ht.
    + apply IH. exact Hrest.
  - apply IH.
Qed.

Lemma In_omap_id (models : list any) t : In t (omap id models) <-> In (Some t) models.
Proof.
  induction models as [|[t'|] models IH]; cbn [omap id In].
  - reflexivity.
  - cbn. rewrite IH. split; intros [H|H]; auto; left; congruence.
  - rewrite IH. split; [auto|]. intros [[=]|H]; exact H.
Qed.

(** All the walk comes to is visited in the end. *)
Lemma walked_complete ts pk vis :
  walked T ts (∅, ∅) (pk, vis) ->
  forall t v, In t ts -> Visits T t v -> v ∈ vis.
Proof.
  intros (_ & Hu & _ & Hc & _) t v Hin Hvis. cbn [fst snd] in *.
  induction Hvis as [t v Hv|t u c v Htu IH Hcin Hv].
  - destruct (Hu t Hin) as (u & Hu' & Huin).
    rewrite (Unwraps_fun _ _ _ _ Hv Hu'). exact Huin.
  - eapply Hc; [apply IH; exact Hin|set_solver|exact Hcin|exact Hv].
Qed.

Lemma collectDependentPackages_elem fuel models out :
  collectDependentPackages T fuel models = Some out ->
  StronglySorted String.le out /\ NoDup out
  /\ forall p, In p out <->
               (p <> "" /\ exists t v, In (Some t) models /\ Visits T t v
                                       /\ PkgPath (T v) = p).
Proof.
  unfold collectDependentPackages.
  destruct (visitModels T fuel models (∅, ∅)) as [[pk vis]|] eqn:Hwalk;
    [|discriminate].
  intros [= <-]. apply visitModels_walked in Hwalk.
  pose proof (walked_complete _ _ _ Hwalk) as Hcomplete.
  destruct Hwalk as (_ & _ & Hsound & _ & Hpk). cbn [fst snd] in *.
  unfold sort_Strings. split; [apply StronglySorted_merge_sort; apply _|].
  split.
  { rewrite merge_sort_Permutation. apply NoDup_elements. }
  intros p. rewrite <- list_elem_of_In, merge_sort_Permutation, elem_of_elements.
  rewrite Hpk. split.
  - intros [Hp|(Hne & v & Hv & _ & Hpv)]; [set_solver|].
    split; [exact Hne|]. destruct (Hsound v Hv) as [?|(t & Hin & Hvis)];
      [set_solver|].
    exists t, v. rewrite <- In_omap_id. auto.
  - intros (Hne & t & v & Hin & Hvis & Hpv). right. split; [exact Hne|].
    exists v. split; [|split; [set_solver|exact Hpv]].
    eapply Hcomplete; [apply In_omap_id; exact Hin|exact Hvis].
Qed.

(** ** The dependent-package walk: when it ends *)

Lemma unwrapPtr_mono fuel fuel' t u :
  unwrapPtr T fuel t = Some u -> fuel <= fuel' -> unwrapPtr T fuel' t = Some u.
Proof.
  revert fuel' t. induction fuel as [|fuel IH]; intros fuel' t; [discriminate|].
  intros H Hle. destruct fuel' as [|fuel']; [lia|]. cbn [unwrapPtr] in *.
  destruct (Shape (T t)); try exact H. apply IH; [exact H|lia].
Qed.

Section Ends.

Variable U : list tid.
Variable d : nat.
Hypothesis Hclosed : closedUnder T U = true.
Hypothesis Hdepth : pointerDepth T d U = true.

Lemma closedUnder_kid t c : In t U -> In c (kids (Shape (T t))) -> In c U.
Proof.
  intros Ht Hc. unfold closedUnder in Hclosed.
  rewrite forallb_forall in Hclosed. specialize (Hclosed t Ht).
  rewrite forallb_forall in Hclosed. specialize (Hclosed c Hc).
  apply existsb_exists in Hclosed as (x & Hx & Heq).
  apply Nat.eqb_eq in Heq. subst. exact Hx.
Qed.

Lemma unwrapPtr_in fuel t u : In t U -> unwrapPtr T fuel t = Some u -> In u U.
Proof.
  revert t. induction fuel as [|fuel IH]; intros t Ht; [discriminate|].
  cbn [unwrapPtr]. destruct (Shape (T t)) eqn:Hs;
    try (intros [= <-]; exact Ht).
  apply IH. eapply closedUnder_kid; [exact Ht|]. rewrite Hs. left. reflexivity.
Qed.

Lemma unwrapPtr_ends fuel t :
  In t U -> d <= fuel -> exists u, unwrapPtr T fuel t = Some u /\ In u U.
Proof.
  intros Ht Hle. unfold pointerDepth in Hdepth.
  rewrite forallb_forall in Hdepth. specialize (Hdepth t Ht).
  destruct (unwrapPtr T d t) as [u|] eqn:Hu; [|discriminate].
  exists u. split; [eapply unwrapPtr_mono; eassumption|].
  eapply unwrapPtr_in; eassumption.
Qed.

Lemma unvisited_mono vis vis' : vis ⊆ vis' -> unvisited U vis' <= unvisited U vis.
Proof. intros H. apply subseteq_size. set_solver. Qed.

Lemma unvisited_mark u vis :
  In u U -> u ∉ vis -> unvisited U ({[u]} ∪ vis) < unvisited U vis.
Proof.
  intros Hu Hn. apply subset_size. apply list_elem_of_In in Hu.
  split; [set_solver|]. intros Hsub.
  assert (u ∈ (list_to_set U : gset nat) ∖ ({[u]} ∪ vis)) by set_solver.
  set_solver.
Qed.

Lemma visitFields_ends fuel cs st :
  (forall c st0, In c U -> d + unvisited U st0.2 < fuel ->
                 exists st1, visitTypeForPackages T fuel (Some c) st0 = Some st1) ->
  (forall c, In c cs -> In c U) ->
  d + unvisited U st.2 < fuel ->
  exists st', visitFields (visitTypeForPackages T fuel) cs st = Some st'.
Proof.
  intros Hvisit. revert st. induction cs as [|c cs IH]; intros st Hcs Hm;
    cbn [visitFields]; [eauto|].
  destruct (Hvisit c st (Hcs c (or_introl eq_refl)) Hm) as [st1 H1].
  rewrite H1. apply IH; [intros c' Hc'; apply Hcs; right; exact Hc'|].
  destruct (visitTypeForPackages_walked _ _ _ _ H1) as (Hsub & _).
  pose proof (unvisited_mono _ _ Hsub). lia.
Qed.

Lemma visitTypeForPackages_ends fuel t st :
  In t U -> d + unvisited U st.2 < fuel ->
  exists st', visitTypeForPackages T fuel (Some t) st = Some st'.
Proof.
  revert t st. induction fuel as [|fuel IH]; intros t st Ht Hm; [lia|].
  rewrite visitTypeForPackages_unfold.
  destruct (unwrapPtr_ends (S fuel) t Ht ltac:(lia)) as (u & -> & Hu).
  destruct (decide (u ∈ st.2)) as [Hin|Hnew]; [eauto|].
  apply visitFields_ends.
  - intros c st0. apply IH.
  - intros c Hc. eapply closedUnder_kid; eassumption.
  - cbn [snd]. pose proof (unvisited_mark u st.2 Hu Hnew). lia.
Qed.

Lemma visitModels_ends fuel models st :
  (forall t, In (Some t) models -> In t U) ->
  d + unvisited U st.2 < fuel ->
  exists st', visitModels T fuel models st = Some st'.
Proof.
  revert st. induction models as [|[t|] models IH]; intros st Hin Hm;
    cbn [visitModels]; [eauto| |].
  - change (TypeOf (Some t)) with (Some t).
    destruct (visitTypeForPackages_ends fuel t st
                (Hin t (or_introl eq_refl)) Hm) as [st1 H1].
    rewrite H1. apply IH; [intros t' Ht'; apply Hin; right; exact Ht'|].
    destruct (visitTypeForPackages_walked _ _ _ _ H1) as (Hsub & _).
    pose proof (unvisited_mono _ _ Hsub). lia.
  - apply IH; [intros t' Ht'; apply Hin; right; exact Ht'|exact Hm].
Qed.

Lemma unvisited_bound vis : unvisited U vis <= length U.
Proof.
  unfold unvisited. transitivity (size (list_to_set U : gset nat)).
  - apply subseteq_size. set_solver.
  - apply size_list_to_set_le.
Qed.

End Ends.

End Walk.

(** X1: when [collectDependentPackages] returns, its result is in
    ascending byte order without repetition, and holds exactly the
    non-empty package paths of the types the walk comes to from the models:
    each model's type without its pointers, and, from such a type, the
    struct fields, slice and array elements, map keys and map elements
    without their pointers.  (The package of a pointer type that is passed
    is not collected.) *)
Theorem collectDependentPackages_collects
  (T : types) (fuel : nat) (models : list any) (out : list string) :
  collectDependentPackages T fuel models = Some out ->
  StronglySorted String.le out /\ NoDup out
  /\ forall p, In p out <->
               (p <> "" /\ exists t v, In (Some t) models /\ Visits T t v
                                       /\ PkgPath (T v) = p).
Proof. apply collectDependentPackages_elem. Qed.

Lemma collectDependentPackages_collects_witness :
  StronglySorted String.le
    ["github.com/google/uuid"; "pkt.systems/schemator"; "time"]
  /\ exists t v, In (Some t) [Some demo.tNested] /\ Visits demo.T t v
                 /\ PkgPath (demo.T v) = "time".
Proof.
  assert (H : collectDependentPackages demo.T 6 [Some demo.tNested]
              = Some ["github.com/google/uuid"; "pkt.systems/schemator"; "time"]).
  { vm_compute. reflexivity. }
  destruct (collectDependentPackages_collects _ _ _ _ H) as (Hs & _ & Hm).
  split; [exact Hs|]. apply Hm. simpl. auto.
Defined.

(** X2: the walk ends whenever the types it can reach lie in a finite set
    [U] closed under component types in which taking the pointers off
    ends within [d] steps: a bound of more than [d + length U] steps
    gives a result. *)
Theorem collectDependentPackages_returns
  (T : types) (U : list tid) (d : nat) (models : list any) (fuel : nat) :
  closedUnder T U = true ->
  pointerDepth T d U = true ->
  (forall t, In (Some t) models -> In t U) ->
  d + length U < fuel ->
  exists out, collectDependentPackages T fuel models = Some out.
Proof.
  intros Hc Hd Hin Hfuel. unfold collectDependentPackages.
  destruct (visitModels_ends T U d Hc Hd fuel models (∅, ∅) Hin) as [[pk vis] ->].
  - pose proof (unvisited_bound T U d Hc Hd (∅ : gset nat)) as Hb. cbn [snd]. unfold tid in *. lia.
  - eauto.
Qed.

Lemma collectDependentPackages_returns_witness :
  exists out, collectDependentPackages demo.T 30 [Some demo.tNested; None] = Some out.
Proof.
  apply (collectDependentPackages_returns demo.T demo.nestedUniverse 2).
  - vm_compute. reflexivity.
  - vm_compute. reflexivity.
  - intros t [[= <-]|[[=]|[]]]. simpl. auto.
  - simpl. lia.
Defined.

(** X3: the result depends only on which types the models have: neither
    on their order or repetition (nor, in the model, on the bound on the
    steps). *)
Theorem collectDependentPackages_order
  (T : types) (fuel1 fuel2 : nat) (models1 models2 : list any)
  (out1 out2 : list string) :
  collectDependentPackages T fuel1 models1 = Some out1 ->
  collectDependentPackages T fuel2 models2 = Some out2 ->
  (forall t, In (Some t) models1 <-> In (Some t) models2) ->
  out1 = out2.
Proof.
  intros H1 H2 Hsame.
  destruct (collectDependentPackages_elem _ _ _ _ H1) as (Hs1 & Hn1 & Hm1).
  destruct (collectDependentPackages_elem _ _ _ _ H2) as (Hs2 & Hn2 & Hm2).
  apply (StronglySorted_unique String.le); [exact Hs1|exact Hs2|].
  apply NoDup_Permutation; [exact Hn1|exact Hn2|].
  intros p. rewrite !list_elem_of_In, Hm1, Hm2.
  split; intros (Hne & t & v & Hin & Hv); (split; [exact Hne|]);
    exists t, v; (split; [apply Hsame; exact Hin|exact Hv]).
Qed.

Lemma collectDependentPackages_order_witness :
  exists out1 out2,
    collectDependentPackages demo.T 6 [Some demo.tNode; Some demo.tSubject]
    = Some out1
    /\ collectDependentPackages demo.T 9
         [Some demo.tSubject; None; Some demo.tNode; Some demo.tSubject]
       = Some out2
    /\ out1 = out2.
Proof.
  assert (H1 : collectDependentPackages demo.T 6
                 [Some demo.tNode; Some demo.tSubject]
               = Some ["main"; "pkt.systems/schemator/example"; "time"]).
  { vm_compute. reflexivity. }
  assert (H2 : collectDependentPackages demo.T 9
                 [Some demo.tSubject; None; Some demo.tNode; Some demo.tSubject]
               = Some ["main"; "pkt.systems/schemator/example"; "time"]).
  { vm_compute. reflexivity. }
  eexists _, _. split; [exact H1|]. split; [exact H2|].
  apply (collectDependentPackages_order _ _ _ _ _ _ _ H1 H2).
  intros t. simpl. intuition congruence.
Defined.

(** The walk ends on a finite set of types, and its result does not depend
    on the bound on its steps. *)
Lemma collectDependentPackages_some
  (T : types) (U : list tid) (d : nat) (models : list any) (fuel : nat) :
  closedUnder T U = true ->
  pointerDepth T d U = true ->
  (forall t, In (Some t) models -> In t U) ->
  d + length U < fuel ->
  exists out, collectDependentPackages T fuel models = Some out.
Proof.
  intros Hc Hd Hin Hfuel. unfold collectDependentPackages.
  destruct (visitModels_ends T U d Hc Hd fuel models (∅, ∅) Hin) as [[pk vis] ->].
  - pose proof (unvisited_bound T U d Hc Hd (∅ : gset nat)) as Hb. cbn [snd].
    unfold tid in *. lia.
  - eauto.
Qed.

Lemma collectDependentPackages_fuel
  (T : types) (fuel1 fuel2 : nat) (models : list any) (out1 out2 : list string) :
  collectDependentPackages T fuel1 models = Some out1 ->
  collectDependentPackages T fuel2 models = Some out2 ->
  out1 = out2.
Proof.
  intros H1 H2.
  destruct (collectDependentPackages_elem _ _ _ _ H1) as (Hs1 & Hn1 & Hm1).
  destruct (collectDependentPackages_elem _ _ _ _ H2) as (Hs2 & Hn2 & Hm2).
  apply (StronglySorted_unique String.le); [exact Hs1|exact Hs2|].
  apply NoDup_Permutation; [exact Hn1|exact Hn2|].
  intros p. rewrite !list_elem_of_In, Hm1, Hm2. reflexivity.
Qed.

(** ** The module directive *)

Lemma fieldOK_Fields f : fieldOK f -> Fields f = [f].
Proof.
  intros [Hne Hrun]. specialize (Hrun "" eq_refl).
  rewrite sapp_nil_r in Hrun. change (tokens "") with (@nil tok) in Hrun.
  unfold Fields, fieldsT. rewrite Hrun, spanCh_Chs. cbn [spanCh fst snd].
  rewrite sapp_nil_r. destruct f; [congruence|reflexivity].
Qed.

Lemma scanTokens_err ls :
  (scanTokens ls).2 = None \/ (scanTokens ls).2 = Some ErrTooLong.
Proof.
  induction ls as [|l r IH]; cbn [scanTokens]; [left; reflexivity|].
  destruct (65535 <? N.of_nat (String.length l))%N; [right; reflexivity|].
  destruct (scanTokens r) as [ls' e]. exact IH.
Qed.

Lemma scanLines_err contents :
  (scanLines contents).2 = None \/ (scanLines contents).2 = Some ErrTooLong.
Proof. unfold scanLines. apply scanTokens_err. Qed.

(** The lines are looked at in order: the first that starts, once trimmed,
    with "module " decides, and without one the scanner's error does. *)
Lemma parseModuleLines_cases lines scanErr :
  (exists pre text post,
      lines = pre ++ text :: post
      /\ Forall (fun l => HasPrefix (TrimSpace l) "module " = false) pre
      /\ HasPrefix (TrimSpace text) "module " = true)
  \/ (Forall (fun l => HasPrefix (TrimSpace l) "module " = false) lines
      /\ parseModuleLines lines scanErr
         = Err (match scanErr with
                | Some err => err
                | None => ErrModuleDirectiveNotFound
                end)).
Proof.
  induction lines as [|l lines IH].
  - right. split; [constructor|]. cbn. destruct scanErr; reflexivity.
  - destruct (HasPrefix (TrimSpace l) "module ") eqn:Hl.
    + left. exists [], l, lines. split; [reflexivity|]. split; [constructor|exact Hl].
    + destruct IH as [(pre & text & post & -> & Hpre & Htext)|[Hall Hparse]].
      * left. exists (l :: pre), text, post. split; [reflexivity|].
        split; [constructor; assumption|exact Htext].
      * right. split; [constructor; assumption|].
        cbn [parseModuleLines]. rewrite Hl. exact Hparse.
Qed.

Lemma parseModuleDirective_cases contents :
  (exists name, parseModuleDirective contents = Ok name /\ fieldOK name)
  \/ parseModuleDirective contents = Err ErrTooLong
  \/ parseModuleDirective contents = Err ErrModuleDirectiveNotFound.
Proof.
  unfold parseModuleDirective.
  pose proof (scanLines_err contents) as Herr.
  destruct (scanLines contents) as [lines scanErr]. cbn [snd] in Herr.
  destruct (parseModuleLines_cases lines scanErr)
    as [(pre & text & post & -> & Hpre & Htext)|[_ Hparse]].
  - destruct (parseModuleLines_first pre text post scanErr Hpre Htext)
      as (name & rest & Hf & ->).
    left. exists name. split; [reflexivity|].
    pose proof (Fields_fieldOK (TrimSpace text)) as H. rewrite Hf in H.
    inversion H as [|? ? _ H2]; subst. inversion H2; subst. assumption.
  - right. rewrite Hparse. destruct Herr as [-> | ->]; auto.
Qed.

(** X4: [parseModuleDirective] never returns its error "invalid module
    directive": a trimmed line that starts with "module " has a second
    field.  And the module path it returns is not empty and holds no white
    space. *)
Theorem parseModuleDirective_name (contents : string) :
  (forall line,
     parseModuleDirective contents <> Err (ErrInvalidModuleDirective line))
  /\ (forall name,
        parseModuleDirective contents = Ok name ->
        name <> "" /\ Fields name = [name]).
Proof.
  destruct (parseModuleDirective_cases contents)
    as [(name & -> & Hok)|[-> | ->]].
  - split; [discriminate|]. intros name' [= <-].
    split; [exact (proj1 Hok)|exact (fieldOK_Fields _ Hok)].
  - split; discriminate.
  - split; discriminate.
Qed.

Lemma parseModuleDirective_name_witness :
  "example.com/project" <> ""
  /\ Fields "example.com/project" = ["example.com/project"].
Proof.
  apply (proj2 (parseModuleDirective_name demo.goMod)).
  vm_compute. reflexivity.
Defined.

(** X5: [parseModuleDirective] returns a module path exactly when one of
    the lines the scanner yields starts, once trimmed, with "module ";
    otherwise it returns the scanner's error when the scanner stopped at a
    line too long for its buffer, else "module directive not found".  (A
    line too long after the directive is never reached.) *)
Theorem parseModuleDirective_found (contents : string) :
  ((exists name, parseModuleDirective contents = Ok name)
   <-> Exists (fun l => HasPrefix (TrimSpace l) "module " = true)
              (scanLines contents).1)
  /\ (Forall (fun l => HasPrefix (TrimSpace l) "module " = false)
             (scanLines contents).1 ->
      parseModuleDirective contents
      = Err (match (scanLines contents).2 with
             | Some _ => ErrTooLong
             | None => ErrModuleDirectiveNotFound
             end)).
Proof.
  unfold parseModuleDirective.
  pose proof (scanLines_err contents) as Herr.
  destruct (scanLines contents) as [lines scanErr]. cbn [fst snd] in *.
  destruct (parseModuleLines_cases lines scanErr)
    as [(pre & text & post & -> & Hpre & Htext)|[Hall Hparse]].
  - destruct (parseModuleLines_first pre text post scanErr Hpre Htext)
      as (name & rest & Hf & ->).
    split.
    + split; [intros _|eauto]. apply Exists_app. right. left. exact Htext.
    + intros Hall. apply Forall_app in Hall as [_ Hall].
      inversion Hall as [|? ? Hno _]; subst. congruence.
  - rewrite Hparse. split.
    + split; [intros [name [=]]|].
      intros Hex. apply Exists_exists in Hex as (l & Hin & Hl).
      rewrite Forall_forall in Hall. rewrite (Hall l Hin) in Hl. discriminate.
    + intros _. destruct Herr as [-> | ->]; reflexivity.
Qed.

Lemma parseModuleDirective_found_witness :
  parseModuleDirective ("go 1.22" +:+ demo.nl +:+ "modules x" +:+ demo.nl)
  = Err ErrModuleDirectiveNotFound.
Proof.
  apply (proj2 (parseModuleDirective_found
                  ("go 1.22" +:+ demo.nl +:+ "modules x" +:+ demo.nl))).
  vm_compute. repeat constructor.
Defined.

(** ** The module locator: how far it reads *)

Section Locator.

Variable E : Env.

Abbreviation goModOf d := (filepath.Join [d; "go.mod"]).

Lemma findModulePath_loop_reads fuel startDir dir tr :
  filepath.height dir <= fuel ->
  exists r n,
    1 <= n <= fuel
    /\ findModulePath_loop E fuel startDir dir tr
       = Some (r, tr ++ readEvents n dir).
Proof.
  revert dir tr. induction fuel as [|fuel IH]; intros dir tr Hh.
  { pose proof (height_pos dir). lia. }
  rewrite findModulePath_loop_unfold.
  assert (H1 : tr ++ [EvReadFile (goModOf dir)] = tr ++ readEvents 1 dir)
    by reflexivity.
  destruct (os_ReadFile E tr (goModOf dir)) as [contents|err].
  { destruct (parseModuleDirective contents); eexists _, 1;
      (split; [lia|rewrite H1; reflexivity]). }
  destruct (negb (isNotExist err)).
  { eexists _, 1. split; [lia|rewrite H1; reflexivity]. }
  destruct (String.eqb_spec (filepath.Dir dir) dir) as [|Hne].
  { eexists _, 1. split; [lia|rewrite H1; reflexivity]. }
  destruct (IH (filepath.Dir dir) (tr ++ [EvReadFile (goModOf dir)]))
    as (r & n & Hn & Hrun).
  { pose proof (Dir_height dir Hne). lia. }
  exists r, (S n). split; [lia|]. rewrite Hrun, readEvents_S, <- app_assoc.
  reflexivity.
Qed.

(** The loop climbs over the directories without a go.mod. *)
Lemma findModulePath_loop_climb fuel startDir dir tr n :
  (forall k, k < n -> forall tr, exists e,
       os_ReadFile E tr (goModOf (filepath.ancestor k dir)) = Err e
       /\ isNotExist e = true) ->
  (forall e,
     os_ReadFile E (tr ++ readEvents n dir) (goModOf (filepath.ancestor n dir))
     = Err e -> isNotExist e = false) ->
  filepath.height dir <= fuel ->
  findModulePath_loop E fuel startDir dir tr
  = match os_ReadFile E (tr ++ readEvents n dir)
            (goModOf (filepath.ancestor n dir)) with
    | Ok contents =>
      match parseModuleDirective contents with
      | Ok modulePath =>
        Some (Ok (filepath.ancestor n dir, modulePath),
              tr ++ readEvents (S n) dir)
      | Err e => Some (Err e, tr ++ readEvents (S n) dir)
      end
    | Err e => Some (Err e, tr ++ readEvents (S n) dir)
    end.
Proof.
  revert fuel dir tr. induction n as [|n IH]; intros fuel dir tr Hbelow Hat Hh.
  - destruct fuel as [|fuel]; [pose proof (height_pos dir); lia|].
    rewrite findModulePath_loop_unfold.
    change (filepath.ancestor 0 dir) with dir in *.
    change (readEvents 0 dir) with (@nil event) in *.
    rewrite app_nil_r in *.
    destruct (os_ReadFile E tr (goModOf dir)) as [contents|err];
      [reflexivity|].
    rewrite (Hat err eq_refl). reflexivity.
  - destruct fuel as [|fuel]; [pose proof (height_pos dir); lia|].
    rewrite findModulePath_loop_unfold.
    destruct (Hbelow 0 ltac:(lia) tr) as (e & He & Hne).
    change (filepath.ancestor 0 dir) with dir in He. rewrite He, Hne.
    cbn [negb].
    assert (Hshift : forall m,
               tr ++ readEvents (S m) dir
               = (tr ++ [EvReadFile (goModOf dir)])
                   ++ readEvents m (filepath.Dir dir)).
    { intros m. rewrite readEvents_S, <- app_assoc. reflexivity. }
    rewrite !Hshift in *. rewrite <- !ancestor_Dir in *.
    destruct (String.eqb_spec (filepath.Dir dir) dir) as [Hfix|Hne'].
    { exfalso.
      destruct (Hbelow 0 ltac:(lia)
                  ((tr ++ [EvReadFile (goModOf dir)])
                     ++ readEvents n (filepath.Dir dir)))
        as (e' & He' & Hne2).
      change (filepath.ancestor 0 dir) with dir in He'.
      rewrite (ancestor_fix n _ (f_equal filepath.Dir Hfix)), Hfix in Hat.
      rewrite Hfix in He'.
      rewrite (Hat e' He') in Hne2. discriminate. }
    apply IH.
    + intros k Hk tr0. rewrite ancestor_Dir. apply Hbelow. lia.
    + exact Hat.
    + pose proof (Dir_height dir Hne'). lia.
Qed.

End Locator.

(** X6: the module locator always returns: its loop ends on every file
    system, and all it does is read the go.mod of the start directory, of
    its parent, and so on upwards, at most [2 + len(startDir)] of them. *)
Theorem findModulePath_reads (E : Env) (startDir : string) (tr : trace) :
  exists r n,
    1 <= n <= 2 + String.length startDir
    /\ findModulePath E startDir tr = Some (r, tr ++ readEvents n startDir).
Proof.
  apply findModulePath_loop_reads. apply height_bound.
Qed.

(** X7: the nearest go.mod decides.  When the directories below level [n]
    have no go.mod and the read at level [n] does not answer "not exist",
    the locator stops there: a go.mod without a module directive or a read
    error (permission denied, say) is returned as the error, and no go.mod
    further up is read. *)
Theorem findModulePath_nearest
  (E : Env) (startDir : string) (tr : trace) (n : nat) :
  (forall k, k < n -> forall tr, exists e,
       os_ReadFile E tr (filepath.Join [filepath.ancestor k startDir; "go.mod"])
       = Err e
       /\ isNotExist e = true) ->
  let tr_n := tr ++ readEvents n startDir in
  let modFile := filepath.Join [filepath.ancestor n startDir; "go.mod"] in
  (forall contents e,
     os_ReadFile E tr_n modFile = Ok contents ->
     parseModuleDirective contents = Err e ->
     findModulePath E startDir tr
     = Some (Err e, tr ++ readEvents (S n) startDir))
  /\ (forall e,
        os_ReadFile E tr_n modFile = Err e -> isNotExist e = false ->
        findModulePath E startDir tr
        = Some (Err e, tr ++ readEvents (S n) startDir)).
Proof.
  intros Hbelow tr_n modFile. split.
  - intros contents e Hread Hparse. unfold findModulePath.
    rewrite (findModulePath_loop_climb E _ _ _ _ n Hbelow).
    + fold tr_n modFile. rewrite Hread, Hparse. reflexivity.
    + fold tr_n modFile. rewrite Hread. discriminate.
    + apply height_bound.
  - intros e Hread Hne. unfold findModulePath.
    rewrite (findModulePath_loop_climb E _ _ _ _ n Hbelow).
    + fold tr_n modFile. rewrite Hread. reflexivity.
    + fold tr_n modFile. rewrite Hread. intros e' [= <-]. exact Hne.
    + apply height_bound.
Qed.

Lemma findModulePath_nearest_witness :
  findModulePath demo.env2 "/srv/app/pkg" []
  = Some (Err ErrModuleDirectiveNotFound, [] ++ readEvents 2 "/srv/app/pkg").
Proof.
  assert (Hbelow : forall k, k < 1 -> forall tr, exists e,
             os_ReadFile demo.env2 tr
               (filepath.Join [filepath.ancestor k "/srv/app/pkg"; "go.mod"])
             = Err e
             /\ isNotExist e = true).
  { intros k Hk tr. assert (k = 0) as -> by lia.
    eexists. split; vm_compute; reflexivity. }
  apply (proj1 (findModulePath_nearest demo.env2 "/srv/app/pkg" [] 1 Hbelow)
           ("go 1.22" +:+ demo.nl)).
  - vm_compute. reflexivity.
  - vm_compute. reflexivity.
Defined.

(** ** The package name detector *)

(** X8: the first entry of the directory listing that is a file named
    [*.go] but not [*_test.go] decides: it alone is parsed and the
    outcome, package name or parse error, is returned, whatever entries
    follow.  Without such an entry the detector returns "no go source
    files found" and parses nothing. *)
Theorem detectPackageName_first_source_file
  (E : Env) (dir : string) (tr : trace) (entries : list DirEntry) :
  os_ReadDir E tr dir = Ok entries ->
  (forall pre entry post,
     entries = pre ++ entry :: post ->
     forallb (fun e => negb (isSourceFile e)) pre = true ->
     isSourceFile entry = true ->
     let filePath := filepath.Join [dir; entryName entry] in
     detectPackageName E dir tr
     = Some (parser_ParseFile E (tr ++ [EvReadDir dir]) filePath,
             tr ++ [EvReadDir dir; EvParseFile filePath]))
  /\ (forallb (fun e => negb (isSourceFile e)) entries = true ->
      detectPackageName E dir tr
      = Some (Err (ErrNoGoSourceFiles dir), tr ++ [EvReadDir dir])).
Proof.
  intros Hread. unfold detectPackageName.
  rewrite (bind_eq_Ok _ _ _ _ _ (call_eq _ _ _)), Hread.
  cbn [liftR]. rewrite bind_ret_l. clear Hread.
  set (tr1 := tr ++ [EvReadDir dir]).
  assert (Hskip : forall e rest,
             isSourceFile e = false ->
             detectPackageName_loop E dir (e :: rest) tr1
             = detectPackageName_loop E dir rest tr1).
  { intros e rest He. cbn [detectPackageName_loop]. unfold isSourceFile in He.
    destruct (entryIsDir e); [reflexivity|]. cbn [negb andb] in He.
    destruct (HasSuffix (entryName e) ".go"); [|reflexivity].
    cbn [negb andb orb] in *. rewrite negb_false_iff in He. rewrite He.
    reflexivity. }
  split.
  - intros pre entry post -> Hpre Hentry.
    set (filePath := filepath.Join [dir; entryName entry]).
    change (tr ++ [EvReadDir dir; EvParseFile filePath])
      with (tr ++ [EvReadDir dir] ++ [EvParseFile filePath]).
    rewrite app_assoc. fold tr1.
    induction pre as [|e pre IH]; cbn [app].
    + cbn [detectPackageName_loop]. unfold isSourceFile in Hentry.
      destruct (entryIsDir entry); [discriminate|]. cbn [negb andb] in Hentry.
      destruct (HasSuffix (entryName entry) ".go"); [|discriminate].
      cbn [negb andb orb] in *. rewrite negb_true_iff in Hentry.
      rewrite Hentry. rewrite (bind_eq_Ok _ _ _ _ _ (call_eq _ _ _)).
      fold filePath.
      destruct (parser_ParseFile E tr1 filePath); reflexivity.
    + cbn [forallb] in Hpre. apply andb_prop in Hpre as [He Hpre].
      rewrite negb_true_iff in He. rewrite (Hskip _ _ He). exact (IH Hpre).
  - intros Hall. induction entries as [|e entries IH]; [reflexivity|].
    cbn [forallb] in Hall. apply andb_prop in Hall as [He Hall].
    rewrite negb_true_iff in He. rewrite (Hskip _ _ He). exact (IH Hall).
Qed.

Lemma detectPackageName_first_source_file_witness :
  detectPackageName demo.env "/tmp/x/lib" []
  = Some (Ok "util", [EvReadDir "/tmp/x/lib"; EvParseFile "/tmp/x/lib/util.go"])
  /\ detectPackageName demo.env2 "/srv/app/pkg" []
     = Some (Err (ErrNoGoSourceFiles "/srv/app/pkg"), [EvReadDir "/srv/app/pkg"]).
Proof.
  split.
  - apply (proj1 (detectPackageName_first_source_file demo.env "/tmp/x/lib" []
                    _ eq_refl)
             [{| entryName := "testdata"; entryIsDir := true |};
              {| entryName := "util_test.go"; entryIsDir := false |}]
             {| entryName := "util.go"; entryIsDir := false |} []).
    + reflexivity.
    + vm_compute. reflexivity.
    + vm_compute. reflexivity.
  - apply (proj2 (detectPackageName_first_source_file demo.env2 "/srv/app/pkg"
                    [] _ eq_refl)).
    vm_compute. reflexivity.
Defined.

(** ** Resolving one entry *)

Lemma ensureSourceDirectory_cases (E : Env) (ip : ImportPath) (tr : trace) :
  exists r,
    ensureSourceDirectory E ip tr
    = Some (r, if String.eqb (SourceDirectory ip) "" then
                 tr ++ [EvGoList (ModuleImportPath ip) ""]
               else tr)
    /\ match r with
       | Ok ip' =>
         ModuleImportPath ip' = ModuleImportPath ip
         /\ SourceDirectory ip' <> ""
         /\ (SourceDirectory ip <> "" -> ip' = ip)
       | Err e =>
         SourceDirectory ip = ""
         /\ exists cause,
              e = ErrResolveSourceDirectory (ModuleImportPath ip) cause
              /\ lookupPackageDir E (ModuleImportPath ip) "" tr
                 = Some (Err cause, tr ++ [EvGoList (ModuleImportPath ip) ""])
       end.
Proof.
  unfold ensureSourceDirectory.
  destruct (String.eqb_spec (SourceDirectory ip) "") as [Hd|Hd]; cbn [negb].
  - destruct (lookupPackageDir_returns E (ModuleImportPath ip) "" tr)
      as ([[dir isStd]|cause] & Hrun).
    + rewrite (bind_eq_Ok _ _ _ _ _ (attempt_eq _ _ _ _ Hrun)).
      pose proof (lookupPackageDir_dir_nonempty E _ _ _ _ _ _ Hrun) as Hne.
      destruct (String.eqb_spec dir "") as [|_]; [congruence|].
      eexists. split; [reflexivity|]. cbn.
      split; [reflexivity|]. split; [exact Hne|congruence].
    + rewrite (bind_eq_Ok _ _ _ _ _ (attempt_eq _ _ _ _ Hrun)).
      eexists. split; [reflexivity|]. split; [exact Hd|]. eauto.
  - eexists. split; [reflexivity|].
    split; [reflexivity|]. split; [exact Hd|reflexivity].
Qed.

(** X9: [ensureSourceDirectory] leaves an entry whose source directory is
    set as it is, without running [go list].  Whenever it returns an
    entry, that entry has the import path it was given and a source
    directory that is not empty; an error it returns is the one of
    [go list], wrapped, on an entry without a directory: its own error
    "go list returned empty directory" is never returned. *)
Theorem ensureSourceDirectory_spec (E : Env) (ip : ImportPath) (tr : trace) :
  (SourceDirectory ip <> "" ->
   ensureSourceDirectory E ip tr = Some (Ok ip, tr))
  /\ exists r,
       ensureSourceDirectory E ip tr
       = Some (r, if String.eqb (SourceDirectory ip) "" then
                    tr ++ [EvGoList (ModuleImportPath ip) ""]
                  else tr)
       /\ match r with
          | Ok ip' =>
            ModuleImportPath ip' = ModuleImportPath ip
            /\ SourceDirectory ip' <> ""
          | Err e =>
            SourceDirectory ip = ""
            /\ exists cause,
                 e = ErrResolveSourceDirectory (ModuleImportPath ip) cause
                 /\ lookupPackageDir E (ModuleImportPath ip) "" tr
                    = Some (Err cause, tr ++ [EvGoList (ModuleImportPath ip) ""])
          end.
Proof.
  destruct (ensureSourceDirectory_cases E ip tr) as (r & Hrun & Hr). split.
  - intros Hd. rewrite Hrun.
    destruct (String.eqb_spec (SourceDirectory ip) "") as [|_]; [congruence|].
    destruct r as [ip'|e]; [|destruct Hr; congruence].
    destruct Hr as (_ & _ & Heq). rewrite (Heq Hd). reflexivity.
  - exists r. split; [exact Hrun|]. destruct r as [ip'|e]; [|exact Hr].
    destruct Hr as (H1 & H2 & _). split; assumption.
Qed.

Lemma ensureSourceDirectory_spec_witness :
  ensureSourceDirectory demo.env
    {| ModuleImportPath := "no/such/pkg"; SourceDirectory := "vendor/x" |} []
  = Some (Ok {| ModuleImportPath := "no/such/pkg";
                SourceDirectory := "vendor/x" |}, []).
Proof.
  apply (proj1 (ensureSourceDirectory_spec demo.env
                  {| ModuleImportPath := "no/such/pkg";
                     SourceDirectory := "vendor/x" |} [])).
  discriminate.
Defined.

(** ** The working directory *)

(** X10: [withWorkingDir] puts the working directory back.  When
    [os.Getwd] fails nothing else is called.  Otherwise the last call, on
    every way out, is [os.Chdir] to the directory [os.Getwd] answered, and
    its error is dropped: when the change to [dir] fails [fn] is not run
    and that error is returned; else what [fn] returns is returned. *)
Theorem withWorkingDir_restores
  {A : Type} (E : Env) (dir : string) (fn : M trace A)
  (tr : trace) (r : result A) (tr' : trace) :
  withWorkingDir E dir fn tr = Some (r, tr') ->
  match os_Getwd E tr with
  | Err e => r = Err e /\ tr' = tr ++ [EvGetwd]
  | Ok cwd =>
    exists tr'',
      tr' = tr'' ++ [EvChdir cwd]
      /\ match os_Chdir E (tr ++ [EvGetwd]) dir with
         | Some e => r = Err e /\ tr'' = tr ++ [EvGetwd; EvChdir dir]
         | None => fn (tr ++ [EvGetwd; EvChdir dir]) = Some (r, tr'')
         end
  end.
Proof.
  unfold withWorkingDir.
  rewrite (bind_eq_Ok _ _ _ _ _ (call_eq _ _ _)).
  destruct (os_Getwd E tr) as [cwd|e]; cbn [liftR].
  - rewrite bind_ret_l. unfold finally.
    rewrite (bind_eq_Ok _ _ _ _ _ (call_eq _ _ _)).
    rewrite <- app_assoc. cbn [app].
    destruct (os_Chdir E (tr ++ [EvGetwd]) dir) as [e|]; cbn [liftE].
    + rewrite (bind_eq_Err _ _ _ _ _ eq_refl). rewrite call_eq.
      intros [= <- <-]. eexists. split; [reflexivity|]. split; reflexivity.
    + rewrite bind_ret_l.
      destruct (fn (tr ++ [EvGetwd; EvChdir dir])) as [[r1 tr1]|]; [|discriminate].
      rewrite call_eq. intros [= <- <-]. eexists. split; reflexivity.
  - rewrite (bind_eq_Err _ _ _ _ _ eq_refl). intros [= <- <-].
    split; reflexivity.
Qed.

Lemma withWorkingDir_restores_witness :
  exists tr'',
    [EvGetwd; EvChdir "/locked"; EvChdir "/tmp/y"] = tr'' ++ [EvChdir "/tmp/y"]
    /\ @Err nat (ErrExternal "permission denied")
       = Err (ErrExternal "permission denied")
    /\ tr'' = [EvGetwd; EvChdir "/locked"].
Proof.
  apply (withWorkingDir_restores demo.env2 "/locked" (ret 5) []
           (Err (ErrExternal "permission denied"))
           [EvGetwd; EvChdir "/locked"; EvChdir "/tmp/y"]).
  vm_compute. reflexivity.
Defined.

(** ** Harvesting the comments of one import path *)

(** X11: the calls of [addGoCommentsForImportPath].  An entry without
    import path or without source directory is refused before any call.
    For a relative directory the only call is [AddGoComments] on the
    cleaned directory: the working directory is neither asked for nor
    changed.  For an absolute directory the working directory is changed
    to the cleaned directory, [AddGoComments] is run on ".", and the
    working directory is put back, also when [AddGoComments] fails. *)
Theorem addGoCommentsForImportPath_calls
  (E : Env) (r : Reflector) (ip : ImportPath) (tr : trace) :
  let mip := ModuleImportPath ip in
  let dir := SourceDirectory ip in
  (mip = "" ->
   addGoCommentsForImportPath E r ip tr
   = Some (Err ErrMissingModuleImportPath, tr))
  /\ (mip <> "" -> dir = "" ->
      addGoCommentsForImportPath E r ip tr
      = Some (Err (ErrSourceDirectoryEmpty mip), tr))
  /\ (mip <> "" -> dir <> "" -> filepath.IsAbs dir = false ->
      exists res,
        addGoCommentsForImportPath E r ip tr
        = Some (res, tr ++ [EvAddGoComments mip (filepath.Clean dir)]))
  /\ (mip <> "" -> filepath.IsAbs dir = true ->
      forall cwd,
        os_Getwd E tr = Ok cwd ->
        os_Chdir E (tr ++ [EvGetwd]) (filepath.Clean dir) = None ->
        exists res,
          addGoCommentsForImportPath E r ip tr
          = Some (res, tr ++ [EvGetwd; EvChdir (filepath.Clean dir);
                              EvAddGoComments mip "."; EvChdir cwd])).
Proof.
  intros mip dir. unfold addGoCommentsForImportPath. fold mip dir.
  assert (Hadd : forall d t, exists res,
             bind (AddGoComments E r mip d)
                  (fun r0 => ret (sanitizeReflector r0)) t
             = Some (res, t ++ [EvAddGoComments mip d])).
  { intros d t. unfold AddGoComments, bind, call.
    destruct (jsonschema_AddGoComments E t (rCommentMap r) mip d) as [m|e];
      cbn; eauto. }
  split; [|split; [|split]].
  - intros ->. reflexivity.
  - intros Hm ->. destruct (String.eqb_spec mip "") as [|_]; [congruence|].
    reflexivity.
  - intros Hm Hd Habs.
    destruct (String.eqb_spec mip "") as [|_]; [congruence|].
    destruct (String.eqb_spec dir "") as [|_]; [congruence|].
    rewrite Habs. cbn [negb]. apply Hadd.
  - intros Hm Habs cwd Hwd Hcd.
    destruct (String.eqb_spec mip "") as [|_]; [congruence|].
    destruct (String.eqb_spec dir "") as [Hd|_].
    { rewrite Hd in Habs. discriminate Habs. }
    rewrite Habs. cbn [negb]. unfold withWorkingDir.
    rewrite (bind_eq_Ok _ _ _ _ _ (call_eq _ _ _)), Hwd. cbn [liftR].
    rewrite bind_ret_l. unfold finally.
    rewrite (bind_eq_Ok _ _ _ _ _ (call_eq _ _ _)), Hcd. cbn [liftE].
    rewrite bind_ret_l.
    destruct (Hadd "." ((tr ++ [EvGetwd]) ++ [EvChdir (filepath.Clean dir)]))
      as (res & ->).
    rewrite call_eq. exists res. rewrite <- !app_assoc. reflexivity.
Qed.

Lemma addGoCommentsForImportPath_calls_witness :
  exists res,
    addGoCommentsForImportPath demo.env demo.emptyReflector
      {| ModuleImportPath := "example.com/temp/foo";
         SourceDirectory := "/tmp//x/foo/" |} []
    = Some (res, [] ++ [EvGetwd; EvChdir "/tmp/x/foo";
                        EvAddGoComments "example.com/temp/foo" ".";
                        EvChdir "/tmp/x/foo"]).
Proof.
  apply (proj2 (proj2 (proj2
           (addGoCommentsForImportPath_calls demo.env demo.emptyReflector
              {| ModuleImportPath := "example.com/temp/foo";
                 SourceDirectory := "/tmp//x/foo/" |} [])))).
  - discriminate.
  - reflexivity.
  - reflexivity.
  - reflexivity.
Defined.

(** ** Comments that sanitizing leaves as they are, and what it keeps *)

(** Single-spaced tokens are the tokens of their fields joined by spaces. *)
Lemma interTok_fieldsT ts :
  singleSpaced ts = true -> ts <> [] ->
  exists f fs,
    spanCh ts = (f, fs) /\ f <> "" /\ interTok (f :: fs) = ts.
Proof.
  remember (length ts) as n eqn:Hn. revert ts Hn.
  induction n as [n IH] using lt_wf_ind. intros ts -> Hs Hne.
  destruct ts as [|[w|b] r]; [congruence|discriminate Hs|]. clear Hne.
  destruct r as [|[w|c] r'].
  - exists (String b ""), []. repeat split. discriminate.
  - cbn [singleSpaced] in Hs. destruct r' as [|[w'|c] r3]; try discriminate Hs.
    apply andb_prop in Hs as [Hw Hs]. apply String.eqb_eq in Hw. subst w.
    destruct (IH (length (Ch c :: r3)) ltac:(cbn [length]; lia) _ eq_refl Hs
                ltac:(discriminate)) as (f & fs & Hspan & Hf & Hinter).
    exists (String b ""), (f :: fs). cbn [spanCh] in Hspan |- *.
    rewrite Hspan. split; [|split; [discriminate|]].
    + destruct f; [congruence|reflexivity].
    + change (interTok (String b "" :: f :: fs))
        with (Ch b :: Sp " " :: interTok (f :: fs)).
      rewrite Hinter. reflexivity.
  - change (singleSpaced (Ch b :: Ch c :: r'))
      with (singleSpaced (Ch c :: r')) in Hs.
    destruct (IH (length (Ch c :: r')) ltac:(cbn [length]; lia) _ eq_refl Hs
                ltac:(discriminate)) as (f & fs & Hspan & Hf & Hinter).
    exists (String b f), fs. cbn [spanCh] in Hspan |- *.
    rewrite Hspan. split; [reflexivity|]. split; [discriminate|].
    rewrite <- Hinter. cbn [interTok Chs]. destruct fs; reflexivity.
Qed.

Lemma Collapsed_fixed s : Collapsed s -> sanitizeCommentText s = s.
Proof.
  unfold Collapsed, sanitizeCommentText. intros Hs.
  destruct (String.eqb_spec s "") as [|Hne]; [reflexivity|].
  assert (Hts : tokens s <> []).
  { intros Hnil. apply Hne. rewrite <- (detok_tokens s), Hnil. reflexivity. }
  destruct (interTok_fieldsT _ Hs Hts) as (f & fs & Hspan & Hf & Hinter).
  rewrite <- (detok_tokens (Join (Fields s) " ")).
  rewrite (tokens_Join _ (Fields_fieldOK s)).
  unfold Fields, fieldsT. rewrite Hspan.
  replace (consField f fs) with (f :: fs) by (destruct f; [congruence|reflexivity]).
  rewrite Hinter. apply detok_tokens.
Qed.

(** X12: the comments sanitizing leaves as they are are exactly the
    collapsed ones: those whose white space is single spaces (U+0020), each
    between two bytes that are no white space. *)
Theorem sanitizeCommentText_fixed_iff (s : string) :
  sanitizeCommentText s = s <-> Collapsed s.
Proof.
  split.
  - intros H. rewrite <- H. apply sanitizeCommentText_Collapsed.
  - apply Collapsed_fixed.
Qed.

Lemma sanitizeCommentText_fixed_iff_witness :
  sanitizeCommentText "Info summary line. Wrapped onto a new line."
  = "Info summary line. Wrapped onto a new line.".
Proof.
  apply (proj2 (sanitizeCommentText_fixed_iff
                  "Info summary line. Wrapped onto a new line.")).
  vm_compute. reflexivity.
Defined.

Lemma tokens_Sp_nonempty s : Forall (fun t => t <> Sp "") (tokens s).
Proof.
  induction s as [|s w r Hc IH|b r Hc IH] using tokens_ind.
  - constructor.
  - rewrite (tokens_Sp _ _ _ Hc). constructor; [|exact IH].
    destruct (cutSpace_split _ _ _ Hc) as (_ & Hw & _). congruence.
  - rewrite (tokens_Ch _ _ Hc). constructor; [discriminate|exact IH].
Qed.

Lemma Join_fields_length f fs :
  String.length (Join (f :: fs) " ")
  = String.length f
    + fold_right (fun f n => String.length f + 1 + n) 0 fs.
Proof.
  unfold Join. revert f. induction fs as [|g fs IH]; intros f; [cbn; lia|].
  change (String.concat " " (f :: g :: fs))
    with (f +:+ " " +:+ String.concat " " (g :: fs)).
  rewrite !slength_app, IH. cbn [fold_right].
  change (String.length " ") with 1. lia.
Qed.

Lemma spanCh_length ts :
  Forall (fun t => t <> Sp "") ts ->
  String.length (spanCh ts).1
  + fold_right (fun f n => String.length f + 1 + n) 0 (spanCh ts).2
  <= String.length (detok ts).
Proof.
  induction 1 as [|[w|b] ts Ht Hts IH]; [cbn; lia| |].
  - cbn [spanCh detok]. destruct (spanCh ts) as [f fs]. cbn [fst snd] in *.
    rewrite slength_app.
    assert (1 <= String.length w) by (destruct w; [congruence|cbn; lia]).
    destruct f; cbn [consField fold_right String.length] in *; lia.
  - cbn [spanCh detok]. destruct (spanCh ts) as [f fs]. cbn [fst snd] in *.
    cbn [String.length]. lia.
Qed.

(** X13: sanitizing a comment loses no text: its words, the maximal runs
    of bytes that are no white space, are the same and in the same order;
    and the comment never becomes longer. *)
Theorem sanitizeCommentText_keeps_fields (s : string) :
  Fields (sanitizeCommentText s) = Fields s
  /\ String.length (sanitizeCommentText s) <= String.length s.
Proof.
  split; [apply sanitizeCommentText_Fields|].
  unfold sanitizeCommentText.
  destruct (String.eqb s ""); [lia|].
  pose proof (spanCh_length _ (tokens_Sp_nonempty s)) as H.
  rewrite detok_tokens in H. unfold Fields, fieldsT.
  destruct (spanCh (tokens s)) as [f fs]. cbn [fst snd] in H.
  destruct f as [|b f]; cbn [consField].
  - destruct fs as [|g fs]; [cbn; lia|]. rewrite Join_fields_length.
    cbn [fold_right String.length] in H. lia.
  - rewrite Join_fields_length. lia.
Qed.

(** ** What a successful inference returns *)

Lemma Clean_nonempty p : path.Clean p <> "".
Proof.
  unfold path.Clean. destruct (String.eqb p ""); [discriminate|].
  destruct (HasPrefix p "/"); [discriminate|].
  destruct (String.eqb_spec (Join (rev (fold_left (path.cleanStep false)
                                          (Split p "/") [])) "/") "")
    as [|Hne]; [discriminate|exact Hne].
Qed.

Lemma Join_nonempty elem :
  Exists (fun e => e <> "") elem -> path.Join elem <> "".
Proof.
  induction 1 as [e rest He|e rest Hex IH]; cbn [path.Join].
  - destruct (String.eqb_spec e "") as [|_]; [congruence|].
    apply Clean_nonempty.
  - destruct (String.eqb e ""); [exact IH|apply Clean_nonempty].
Qed.

Lemma baseImportPath_nonempty mpath rel :
  mpath <> "" -> baseImportPath mpath rel <> "".
Proof.
  intros Hm. unfold baseImportPath.
  destruct (negb (String.eqb rel ".")); [|exact Hm].
  apply Join_nonempty. left. exact Hm.
Qed.

Lemma computedImportPath_nonempty mpath rel pkg :
  mpath <> "" -> computedImportPath mpath rel pkg <> "".
Proof.
  intros Hm. pose proof (baseImportPath_nonempty mpath rel Hm) as Hb.
  unfold computedImportPath.
  destruct (negb (String.eqb pkg "") && negb (String.eqb pkg "main"));
    [|exact Hb].
  destruct (negb (String.eqb (path.Base (baseImportPath mpath rel)) pkg));
    [|exact Hb].
  apply Join_nonempty. left. exact Hb.
Qed.

Section InferredFields.

Variable E : Env.

Lemma findModulePath_loop_Ok fuel startDir dir tr d mp tr' :
  findModulePath_loop E fuel startDir dir tr = Some (Ok (d, mp), tr') ->
  mp <> "".
Proof.
  revert dir tr. induction fuel as [|fuel IH]; intros dir tr; [discriminate|].
  rewrite findModulePath_loop_unfold.
  destruct (os_ReadFile E tr _) as [contents|err].
  - destruct (parseModuleDirective_cases contents)
      as [(name & Hp & Hok)|[Hp|Hp]]; rewrite Hp; [|discriminate..].
    intros [= _ <- _]. exact (proj1 Hok).
  - destruct (negb (isNotExist err)); [discriminate|].
    destruct (String.eqb (filepath.Dir dir) dir); [discriminate|]. apply IH.
Qed.

Lemma filepath_Abs_nonempty p tr a tr' :
  p <> "" -> filepath_Abs E p tr = Some (Ok a, tr') -> a <> "".
Proof.
  intros Hp. unfold filepath_Abs. destruct (filepath.IsAbs p).
  - intros [= <- _]. apply Clean_nonempty.
  - rewrite (bind_eq_Ok _ _ _ _ _ (call_eq _ _ _)).
    destruct (os_Getwd E tr) as [wd|e]; [|discriminate].
    cbn [liftR]. rewrite bind_ret_l. intros [= <- _].
    change (filepath.Join [wd; p] <> "").
    apply Join_nonempty. right. left. exact Hp.
Qed.

Lemma inferLocalImportPath_located sourceDir tr ip tr' :
  inferLocalImportPath E sourceDir tr = Some (Ok ip, tr') ->
  exists abs mdir mpath pkg rel tr3,
    located E sourceDir tr abs mdir mpath pkg rel tr3
    /\ abs <> "" /\ mpath <> "".
Proof.
  intros H. unfold inferLocalImportPath in H.
  apply bind_Ok in H as (abs & tr1 & Habs & H).
  apply bind_Ok in H as ([mdir mpath] & tr2 & Hfind & H).
  apply bind_Ok in H as (pkg & tr3 & Hpkg & H).
  apply bind_Ok in H as (rel & tr3' & Hrel & H).
  apply liftR_Ok in Hrel as [Hrel ->].
  exists abs, mdir, mpath, pkg, rel, tr3. split; [|split].
  - exists tr1, tr2. auto.
  - refine (filepath_Abs_nonempty _ _ _ _ _ Habs).
    destruct (String.eqb_spec sourceDir ""); [discriminate|assumption].
  - exact (findModulePath_loop_Ok _ _ _ _ _ _ _ Hfind).
Qed.

Lemma inferLocalImportPath_Ok_fields sourceDir tr ip tr' :
  inferLocalImportPath E sourceDir tr = Some (Ok ip, tr') ->
  ModuleImportPath ip <> "" /\ SourceDirectory ip <> "".
Proof.
  intros H.
  destruct (inferLocalImportPath_located _ _ _ _ H)
    as (abs & mdir & mpath & pkg & rel & tr3 & Hloc & Habs & Hm).
  rewrite (inferLocalImportPath_eq E _ _ _ _ _ _ _ _ Hloc) in H.
  pose proof (computedImportPath_nonempty mpath rel pkg Hm) as Hc.
  pose proof (baseImportPath_nonempty mpath rel Hm) as Hb.
  destruct (lookupPackageDir E (computedImportPath mpath rel pkg) mdir tr3)
    as [[[[dir std]|e1] t1]|] eqn:H1.
  { injection H as <- _. cbn. split; [exact Hc|].
    exact (lookupPackageDir_dir_nonempty E _ _ _ _ _ _ H1). }
  - destruct (lookupPackageDir E (baseImportPath mpath rel) mdir _)
      as [[[[dir std]|e2] t2]|] eqn:H2; injection H as <- _; cbn.
    + split; [exact Hb|].
      exact (lookupPackageDir_dir_nonempty E _ _ _ _ _ _ H2).
    + split; assumption.
    + split; assumption.
  - destruct (lookupPackageDir E (baseImportPath mpath rel) mdir _)
      as [[[[dir std]|e2] t2]|] eqn:H2; injection H as <- _; cbn.
    + split; [exact Hb|].
      exact (lookupPackageDir_dir_nonempty E _ _ _ _ _ _ H2).
    + split; assumption.
    + split; assumption.
Qed.

End InferredFields.

(** X14: when the inference of the local import path succeeds, neither
    field of what it returns is empty: the import path starts from a
    module path that is not empty, and the directory is the one [go list]
    printed, never empty, or the absolute source directory. *)
Theorem inferLocalImportPath_fields
  (E : Env) (sourceDir : string) (tr : trace) (ip : ImportPath) (tr' : trace) :
  inferLocalImportPath E sourceDir tr = Some (Ok ip, tr') ->
  ModuleImportPath ip <> "" /\ SourceDirectory ip <> "".
Proof. apply inferLocalImportPath_Ok_fields. Qed.

Lemma inferLocalImportPath_fields_witness :
  "example.com/project/foo" <> "" /\ "/tmp/x/foo" <> "".
Proof.
  apply (inferLocalImportPath_fields demo.env "/tmp/x/foo" []
           {| ModuleImportPath := "example.com/project/foo";
              SourceDirectory := "/tmp/x/foo" |}
           [EvReadFile "/tmp/x/foo/go.mod"; EvReadFile "/tmp/x/go.mod";
            EvReadDir "/tmp/x/foo"; EvParseFile "/tmp/x/foo/foo.go";
            EvGoList "example.com/project/foo" "/tmp/x"]).
  vm_compute. reflexivity.
Defined.

(** ** The exported helpers *)

Lemma ImportPaths_map importPaths :
  ImportPaths importPaths
  = map (fun p => {| ModuleImportPath := p; SourceDirectory := "" |})
        importPaths.
Proof.
  unfold ImportPaths.
  assert (H : forall l acc,
             fold_left
               (fun ips ip =>
                  ips ++ [{| ModuleImportPath := ip; SourceDirectory := "" |}])
               l acc
             = acc ++ map (fun p => {| ModuleImportPath := p;
                                       SourceDirectory := "" |}) l).
  { induction l as [|p l IH]; intros acc; cbn [fold_left map].
    - symmetry. apply app_nil_r.
    - rewrite IH, <- app_assoc. reflexivity. }
  destruct importPaths as [|p l]; [reflexivity|]. rewrite H. reflexivity.
Qed.

Lemma InferImportPath_cases (E : Env) (sourceDirectory : list string) tr :
  exists ip tr',
    InferImportPath E sourceDirectory tr = Some (Ok ip, tr')
    /\ ((inferLocalImportPath E (hd "" sourceDirectory) tr = Some (Ok ip, tr')
         /\ ModuleImportPath ip <> "" /\ SourceDirectory ip <> "")
        \/ ((exists e,
               inferLocalImportPath E (hd "" sourceDirectory) tr
               = Some (Err e, tr'))
            /\ ip = {| ModuleImportPath := ""; SourceDirectory := "" |})).
Proof.
  unfold InferImportPath.
  change (match sourceDirectory with d :: _ => d | [] => "" end)
    with (hd "" sourceDirectory).
  destruct (inferLocalImportPath_rets E (hd "" sourceDirectory) tr)
    as ([ip|e] & tr' & Hrun);
    rewrite (bind_eq_Ok _ _ _ _ _ (attempt_eq _ _ _ _ Hrun)).
  - exists ip, tr'. split; [reflexivity|]. left. split; [exact Hrun|].
    exact (inferLocalImportPath_Ok_fields E _ _ _ _ Hrun).
  - eexists _, tr'. split; [reflexivity|]. right. eauto.
Qed.

(** X15: [InferImportPath] always returns an import path, never an error:
    the one inferred for its first argument (the current directory when it
    has none), with both fields set; or, when the inference fails, the
    zero import path, both fields empty.  So its result has an empty
    [ModuleImportPath] exactly when the inference failed. *)
Theorem InferImportPath_zero_on_failure
  (E : Env) (sourceDirectory : list string) (tr : trace) :
  exists ip tr',
    InferImportPath E sourceDirectory tr = Some (Ok ip, tr')
    /\ ((inferLocalImportPath E (hd "" sourceDirectory) tr = Some (Ok ip, tr')
         /\ ModuleImportPath ip <> "" /\ SourceDirectory ip <> "")
        \/ ((exists e,
               inferLocalImportPath E (hd "" sourceDirectory) tr
               = Some (Err e, tr'))
            /\ ip = {| ModuleImportPath := ""; SourceDirectory := "" |}))
    /\ (ModuleImportPath ip = ""
        <-> exists e,
              inferLocalImportPath E (hd "" sourceDirectory) tr
              = Some (Err e, tr')).
Proof.
  destruct (InferImportPath_cases E sourceDirectory tr)
    as (ip & tr' & Hrun & Hcases).
  exists ip, tr'. split; [exact Hrun|]. split; [exact Hcases|].
  destruct Hcases as [(Hok & Hm & Hd)|[(e & Herr) ->]].
  - split; [congruence|].
    intros (e & He). rewrite Hok in He. discriminate.
  - split; eauto.
Qed.

Lemma InferImportPath_zero_on_failure_witness :
  InferImportPath demo.env ["/tmp/x/missing"] []
  = Some (Ok {| ModuleImportPath := ""; SourceDirectory := "" |},
          [EvReadFile "/tmp/x/missing/go.mod"; EvReadFile "/tmp/x/go.mod";
           EvReadDir "/tmp/x/missing"])
  /\ exists e,
       inferLocalImportPath demo.env "/tmp/x/missing" []
       = Some (Err e, [EvReadFile "/tmp/x/missing/go.mod";
                       EvReadFile "/tmp/x/go.mod";
                       EvReadDir "/tmp/x/missing"]).
Proof.
  destruct (InferImportPath_zero_on_failure demo.env ["/tmp/x/missing"] [])
    as (ip & tr' & Hrun & _ & Hiff).
  assert (Hc : InferImportPath demo.env ["/tmp/x/missing"] []
               = Some (Ok {| ModuleImportPath := ""; SourceDirectory := "" |},
                       [EvReadFile "/tmp/x/missing/go.mod";
                        EvReadFile "/tmp/x/go.mod";
                        EvReadDir "/tmp/x/missing"])).
  { vm_compute. reflexivity. }
  split; [exact Hc|]. rewrite Hc in Hrun. injection Hrun as <- <-.
  apply Hiff. reflexivity.
Defined.

(** ** Resolving the import paths of the generator *)

Lemma indexExisting_lookup ips i (ex : gmap string nat) p :
  p <> "" ->
  (is_Some (indexExisting i ips ex !! p)
   <-> is_Some (ex !! p) \/ In p (map ModuleImportPath ips)).
Proof.
  intros Hp. revert i ex.
  induction ips as [|ip rest IH]; intros i ex; cbn [indexExisting map In].
  - tauto.
  - rewrite IH.
    destruct (String.eqb_spec (ModuleImportPath ip) "") as [Heq|Hne];
      cbn [negb].
    + split; [intros [H|H]; auto|intros [H|[H|H]]; auto; congruence].
    + rewrite lookup_insert_is_Some. split.
      * intros [[H|[_ H]]|H]; auto.
      * intros [H|[H|H]]; auto.
        destruct (decide (ModuleImportPath ip = p)); auto.
Qed.

Lemma appendInferred_spec pkgs (ex : gmap string nat) s :
  exists added,
    appendInferred pkgs ex s
    = Some (Ok tt,
            {| gen := {| filesThatMustExist := filesThatMustExist (gen s);
                         importPaths :=
                           importPaths (gen s)
                             ++ map (fun p => {| ModuleImportPath := p;
                                                 SourceDirectory := "" |})
                                    added |};
               log := log s |})
    /\ NoDup added
    /\ forall p, In p added <-> In p pkgs /\ p <> "" /\ ex !! p = None.
Proof.
  revert ex s. induction pkgs as [|pkg rest IH]; intros ex s;
    cbn [appendInferred].
  - exists []. destruct s as [[f ips] tr]. cbn. rewrite app_nil_r.
    split; [reflexivity|]. split; [constructor|]. tauto.
  - destruct (String.eqb_spec pkg "") as [Hpkg|Hpkg].
    { destruct (IH ex s) as (added & Hrun & Hnd & Hin). exists added.
      split; [exact Hrun|]. split; [exact Hnd|]. intros p. rewrite Hin.
      cbn [In]. split; [tauto|]. intros [[->|H] [H1 H2]]; [congruence|auto]. }
    destruct (ex !! pkg) as [i|] eqn:Hex.
    { destruct (IH ex s) as (added & Hrun & Hnd & Hin). exists added.
      split; [exact Hrun|]. split; [exact Hnd|]. intros p. rewrite Hin.
      cbn [In]. split; [tauto|]. intros [[->|H] [H1 H2]]; [congruence|auto]. }
    unfold bind at 1, getGen. unfold bind at 1, setImportPaths.
    match goal with
    | |- context [appendInferred rest ?ex' ?s'] =>
      destruct (IH ex' s') as (added & Hrun & Hnd & Hin); rewrite Hrun
    end.
    exists (pkg :: added). cbn [gen log filesThatMustExist importPaths map].
    rewrite <- app_assoc. split; [reflexivity|]. split.
    + constructor; [|exact Hnd]. rewrite list_elem_of_In, Hin.
      intros (_ & _ & Hl).
      rewrite lookup_insert_eq in Hl. discriminate.
    + intros p. cbn [In]. rewrite Hin. split.
      * intros [<-|(H1 & H2 & H3)]; [auto|].
        destruct (decide (pkg = p)) as [<-|Hne].
        { rewrite lookup_insert_eq in H3. discriminate. }
        rewrite lookup_insert_ne in H3 by exact Hne. auto.
      * intros ([->|H1] & H2 & H3); [auto|].
        destruct (decide (pkg = p)) as [->|Hne]; [auto|].
        right. rewrite lookup_insert_ne by exact Hne. auto.
Qed.

Section Resolve.

Variable E : Env.

Lemma resolveEach_Ok pending :
  forall i resolved s out s',
    importPaths (gen s) = resolved ++ pending ->
    length resolved = i ->
    resolveEach E i pending resolved s = Some (Ok out, s') ->
    gen s' = {| filesThatMustExist := filesThatMustExist (gen s);
                importPaths := out |}
    /\ exists res', out = resolved ++ res' /\ Forall2 resolvedFrom pending res'.
Proof.
  induction pending as [|ip rest IH]; intros i resolved s out s' Hips Hlen H;
    cbn [resolveEach] in H.
  - injection H as <- <-. rewrite app_nil_r in Hips.
    destruct s as [[f ips] tr]. cbn in *. subst ips.
    split; [reflexivity|]. exists []. rewrite app_nil_r.
    split; [reflexivity|constructor].
  - destruct (String.eqb_spec (ModuleImportPath ip) "") as [|Hm];
      [discriminate|].
    apply bind_Ok in H as (rip & s1 & Hens & H). unfold io in Hens.
    destruct (ensureSourceDirectory_cases E ip (log s)) as (r & Hrun & Hr).
    rewrite Hrun in Hens. injection Hens as -> <-.
    destruct Hr as (Hm' & Hd' & Hsame).
    unfold bind at 1, getGen in H. unfold bind at 1, setImportPaths in H.
    cbn [gen log filesThatMustExist importPaths] in H.
    rewrite Hips in H.
    rewrite (insert_app_r_alt resolved (ip :: rest) i rip ltac:(lia)) in H.
    replace (i - length resolved) with 0 in H by lia.
    change (<[0:=rip]> (ip :: rest)) with (rip :: rest) in H.
    apply IH in H.
    + destruct H as (Hgen & res' & -> & HF). split; [exact Hgen|].
      exists (rip :: res'). rewrite <- app_assoc. split; [reflexivity|].
      constructor; [|exact HF]. repeat split; assumption.
    + cbn. rewrite <- app_assoc. reflexivity.
    + rewrite length_app. cbn. lia.
Qed.

Lemma resolveEach_fixed pending :
  forall i resolved f tr,
    Forall (fun ip => ModuleImportPath ip <> "" /\ SourceDirectory ip <> "")
           pending ->
    length resolved = i ->
    let s := {| gen := {| filesThatMustExist := f;
                          importPaths := resolved ++ pending |};
                log := tr |} in
    resolveEach E i pending resolved s = Some (Ok (resolved ++ pending), s).
Proof.
  induction pending as [|ip rest IH]; intros i resolved f tr Hall Hlen s;
    cbn [resolveEach].
  - rewrite app_nil_r. reflexivity.
  - inversion Hall as [|? ? [Hm Hd] Hrest]; subst.
    destruct (String.eqb_spec (ModuleImportPath ip) "") as [|_]; [congruence|].
    assert (Hens : io (ensureSourceDirectory E ip) s = Some (Ok ip, s)).
    { unfold io, ensureSourceDirectory.
      destruct (String.eqb_spec (SourceDirectory ip) "") as [|_];
        [congruence|]. reflexivity. }
    rewrite (bind_eq_Ok _ _ _ _ _ Hens).
    unfold bind at 1, getGen. unfold bind at 1, setImportPaths.
    cbn [gen log filesThatMustExist importPaths s].
    rewrite (insert_app_r_alt resolved (ip :: rest) (length resolved) ip
               ltac:(lia)).
    replace (length resolved - length resolved) with 0 by lia.
    change (<[0:=ip]> (ip :: rest)) with (ip :: rest).
    specialize (IH (S (length resolved)) (resolved ++ [ip]) f tr Hrest).
    rewrite <- !app_assoc in IH. cbn [app] in IH. apply IH.
    rewrite length_app. cbn. lia.
Qed.

Variable T : types.
Variable fuel : nat.

(** A successful resolution, step by step. *)
Lemma resolveImportPaths_Ok models s out s' :
  resolveImportPaths E T fuel models s = Some (Ok out, s') ->
  exists pkgs ips0 added,
    collectDependentPackages T fuel models = Some pkgs
    /\ (importPaths (gen s) <> [] -> ips0 = importPaths (gen s))
    /\ (importPaths (gen s) = [] ->
        exists ip tr1,
          inferLocalImportPath E "./" (log s) = Some (Ok ip, tr1)
          /\ ips0 = [ip])
    /\ ips0 <> []
    /\ NoDup added
    /\ (forall p, In p added
                  <-> In p pkgs /\ p <> ""
                      /\ ~ In p (map ModuleImportPath ips0))
    /\ Forall2 resolvedFrom
         (ips0 ++ map (fun p => {| ModuleImportPath := p;
                                   SourceDirectory := "" |}) added)
         out
    /\ gen s' = {| filesThatMustExist := filesThatMustExist (gen s);
                   importPaths := out |}.
Proof.
  intros H. unfold resolveImportPaths in H.
  unfold bind at 1, getGen in H.
  set (ex0 := indexExisting 0 (importPaths (gen s)) ∅) in H.
  assert (Hex0 : forall p, p <> "" ->
               (is_Some (ex0 !! p)
                <-> In p (map ModuleImportPath (importPaths (gen s))))).
  { intros p Hp. unfold ex0.
    rewrite (indexExisting_lookup _ _ _ _ Hp), lookup_empty.
    split; [intros [[x [=]]|Hi]; exact Hi|auto]. }
  clearbody ex0.
  apply bind_Ok in H as (ex & s1 & Hfirst & H).
  apply bind_Ok in H as (pkgs & s1' & Hwalk & H).
  destruct (collectDependentPackages T fuel models) as [pkgs0|] eqn:Hcollect;
    [|discriminate Hwalk].
  injection Hwalk as -> <-.
  destruct (appendInferred_spec pkgs ex s1) as (added & Happ & Hnd & Hin).
  rewrite (bind_eq_Ok _ _ _ _ _ Happ) in H.
  unfold bind at 1, getGen in H. cbn [gen importPaths] in H.
  apply resolveEach_Ok with (resolved := []) in H; [|reflexivity|reflexivity].
  destruct H as (Hgen & res' & -> & HF). cbn [app gen filesThatMustExist] in *.
  exists pkgs, (importPaths (gen s1)), added.
  split; [reflexivity|].
  destruct (importPaths (gen s)) as [|ip0 rest0] eqn:Hips;
    cbn [length Nat.eqb] in Hfirst.
  - apply bind_Ok in Hfirst as (ip & s2 & Hinf & Hfirst).
    unfold bind at 1, setImportPaths in Hfirst. injection Hfirst as <- <-.
    unfold io in Hinf.
    destruct (inferLocalImportPath E "./" (log s)) as [[r tr1]|] eqn:Hrun;
      [|discriminate Hinf].
    injection Hinf as -> <-.
    cbn [gen importPaths filesThatMustExist log app] in *.
    split; [congruence|]. split.
    { intros _. exists ip, tr1. split; reflexivity. }
    split; [discriminate|]. split; [exact Hnd|]. split; [|split; assumption].
    intros p. rewrite Hin. cbn [map In].
    split; intros (H1 & H2 & H3); (split; [exact H1|]); (split; [exact H2|]).
    + intros [<-|[]]. rewrite lookup_insert_eq in H3. discriminate.
    + destruct (decide (ModuleImportPath ip = p)) as [Heq|Hne];
        [elim H3; left; exact Heq|].
      rewrite lookup_insert_ne by exact Hne. apply eq_None_not_Some.
      rewrite (Hex0 p H2). intros [].
  - injection Hfirst as <- <-.
    split; [intros _; exact Hips|]. split; [discriminate|].
    rewrite Hips in *. split; [discriminate|].
    split; [exact Hnd|]. split; [|split; assumption].
    intros p. rewrite Hin.
    split; intros (H1 & H2 & H3); (split; [exact H1|]); (split; [exact H2|]).
    + rewrite <- (Hex0 p H2). apply eq_None_not_Some. exact H3.
    + apply eq_None_not_Some. rewrite (Hex0 p H2). exact H3.
Qed.

End Resolve.

Lemma Forall2_resolvedFrom l k :
  Forall2 resolvedFrom l k ->
  map ModuleImportPath k = map ModuleImportPath l
  /\ Forall (fun ip => ModuleImportPath ip <> "") l
  /\ Forall (fun ip => ModuleImportPath ip <> "" /\ SourceDirectory ip <> "") k.
Proof.
  induction 1 as [|ip ip' l k (Hm & Hm' & Hd & _) _ (IH1 & IH2 & IH3)].
  - repeat split; constructor.
  - cbn [map]. rewrite Hm', IH1. split; [reflexivity|].
    split; constructor; try assumption. split; congruence.
Qed.

Lemma map_ModuleImportPath_mk added :
  map ModuleImportPath
      (map (fun p => {| ModuleImportPath := p; SourceDirectory := "" |}) added)
  = added.
Proof. rewrite map_map. cbn. apply map_id. Qed.

(** X16: what a successful [resolveImportPaths] leaves.  The list it
    returns is the list the generator keeps; it is not empty, and every
    entry has an import path and a source directory; every package the
    walk over the models collected is among its import paths; and the
    required files are as they were. *)
Theorem resolveImportPaths_resolves
  (E : Env) (T : types) (fuel : nat) (models : list any)
  (s : state) (out : list ImportPath) (s' : state) :
  resolveImportPaths E T fuel models s = Some (Ok out, s') ->
  importPaths (gen s') = out
  /\ filesThatMustExist (gen s') = filesThatMustExist (gen s)
  /\ out <> []
  /\ Forall (fun ip => ModuleImportPath ip <> "" /\ SourceDirectory ip <> "")
            out
  /\ exists pkgs,
       collectDependentPackages T fuel models = Some pkgs
       /\ forall p, In p pkgs -> In p (map ModuleImportPath out).
Proof.
  intros H.
  destruct (resolveImportPaths_Ok E T fuel _ _ _ _ H)
    as (pkgs & ips0 & added & Hcollect & _ & _ & Hne & _ & Hin & HF & Hgen).
  destruct (Forall2_resolvedFrom _ _ HF) as (Hmap & _ & Hall).
  rewrite Hgen. cbn. split; [reflexivity|]. split; [reflexivity|].
  split; [|split; [exact Hall|]].
  - intros ->. apply Forall2_length in HF. rewrite length_app in HF.
    destruct ips0; [congruence|cbn in HF; lia].
  - exists pkgs. split; [exact Hcollect|]. intros p Hp.
    rewrite Hmap, map_app, map_ModuleImportPath_mk. apply in_or_app.
    destruct (collectDependentPackages_elem _ _ _ _ Hcollect) as (_ & _ & Hel).
    destruct (proj1 (Hel p) Hp) as [Hpne _].
    destruct (in_dec string_dec p (map ModuleImportPath ips0)) as [Hi|Hni];
      [left; exact Hi|right]. apply Hin. auto.
Qed.

Lemma resolveImportPaths_resolves_witness :
  importPaths
    {| filesThatMustExist := [];
       importPaths :=
         [{| ModuleImportPath := "example.com/project/foo";
             SourceDirectory := "/tmp/x/foo" |};
          {| ModuleImportPath := "pkt.systems/schemator/example";
             SourceDirectory := "/src/schemator/example" |};
          {| ModuleImportPath := "time";
             SourceDirectory := "/usr/lib/go/src/time" |}] |}
  = [{| ModuleImportPath := "example.com/project/foo";
        SourceDirectory := "/tmp/x/foo" |};
     {| ModuleImportPath := "pkt.systems/schemator/example";
        SourceDirectory := "/src/schemator/example" |};
     {| ModuleImportPath := "time";
        SourceDirectory := "/usr/lib/go/src/time" |}].
Proof.
  refine (proj1 (resolveImportPaths_resolves demo.env demo.T 6
                   [Some demo.tSubject]
                   {| gen := {| filesThatMustExist := []; importPaths := [] |};
                      log := [] |}
                   _ {| gen := _; log := _ |} _)).
  vm_compute. reflexivity.
Defined.

(** X17: the entries the generator was configured with keep their place
    and their import path, and one that came with a source directory is
    returned as it was; and resolution brings no import path in twice:
    when the configured import paths are distinct, so are the resolved. *)
Theorem resolveImportPaths_keeps_configured
  (E : Env) (T : types) (fuel : nat) (models : list any)
  (s : state) (out : list ImportPath) (s' : state) :
  resolveImportPaths E T fuel models s = Some (Ok out, s') ->
  (forall i ip,
     importPaths (gen s) !! i = Some ip ->
     exists ip', out !! i = Some ip' /\ resolvedFrom ip ip')
  /\ (NoDup (map ModuleImportPath (importPaths (gen s))) ->
      NoDup (map ModuleImportPath out)).
Proof.
  intros H.
  destruct (resolveImportPaths_Ok E T fuel _ _ _ _ H)
    as (pkgs & ips0 & added & Hcollect & Hcfg & Hinf & Hne & Hnd & Hin & HF & _).
  destruct (Forall2_resolvedFrom _ _ HF) as (Hmap & _ & _).
  split.
  - intros i ip Hi.
    assert (Hips : importPaths (gen s) <> []).
    { intros Heq. rewrite Heq in Hi. discriminate. }
    rewrite <- (Hcfg Hips) in Hi.
    apply (Forall2_lookup_l _ _ _ i ip HF).
    apply lookup_app_l_Some. exact Hi.
  - intros Hnd0. rewrite Hmap, map_app, map_ModuleImportPath_mk.
    apply NoDup_app. split; [|split; [|exact Hnd]].
    + destruct (importPaths (gen s)) as [|ip0 rest0] eqn:Hips.
      * destruct (Hinf eq_refl) as (ip & tr1 & _ & ->). cbn.
        apply NoDup_singleton.
      * rewrite (Hcfg ltac:(discriminate)). exact Hnd0.
    + intros p Hp Hp'. rewrite list_elem_of_In in Hp, Hp'.
      apply Hin in Hp' as (_ & _ & Hno). exact (Hno Hp).
Qed.

Lemma resolveImportPaths_keeps_configured_witness :
  exists ip',
    [{| ModuleImportPath := "time"; SourceDirectory := "vendor/time" |};
     {| ModuleImportPath := "pkt.systems/schemator/example";
        SourceDirectory := "/src/schemator/example" |}] !! 0 = Some ip'
    /\ resolvedFrom
         {| ModuleImportPath := "time"; SourceDirectory := "vendor/time" |} ip'.
Proof.
  refine (proj1 (resolveImportPaths_keeps_configured demo.env demo.T 6
                   [Some demo.tSubject]
                   {| gen := {| filesThatMustExist := [];
                                importPaths :=
                                  [{| ModuleImportPath := "time";
                                      SourceDirectory := "vendor/time" |}] |};
                      log := [] |}
                   _ {| gen := _; log := _ |} _) 0 _ eq_refl).
  vm_compute. reflexivity.
Defined.

Lemma resolveImportPaths_fixed E T fuel models s pkgs :
  collectDependentPackages T fuel models = Some pkgs ->
  importPaths (gen s) <> [] ->
  Forall (fun ip => ModuleImportPath ip <> "" /\ SourceDirectory ip <> "")
         (importPaths (gen s)) ->
  (forall p, In p pkgs -> p <> "" ->
             In p (map ModuleImportPath (importPaths (gen s)))) ->
  resolveImportPaths E T fuel models s = Some (Ok (importPaths (gen s)), s).
Proof.
  intros Hcollect Hne Hall Hpk.
  destruct s as [[f out] tr']. cbn [gen importPaths] in *.
  unfold resolveImportPaths.
  unfold bind at 1, getGen. cbn [gen importPaths].
  destruct out as [|ip0 out0] eqn:Hout0; [congruence|].
  rewrite <- Hout0 in *. replace (length out =? 0) with false
    by (rewrite Hout0; reflexivity).
  rewrite bind_ret_l, Hcollect. cbn [liftO]. rewrite bind_ret_l.
  match goal with
  | |- bind (appendInferred pkgs ?ex) _ ?s0 = _ =>
    destruct (appendInferred_spec pkgs ex s0) as (added2 & Happ & _ & Hin2);
      rewrite (bind_eq_Ok _ _ _ _ _ Happ)
  end.
  assert (added2 = []) as ->.
  { destruct added2 as [|p added2]; [reflexivity|]. exfalso.
    destruct (proj1 (Hin2 p) (or_introl eq_refl)) as (Hp & Hpne & Hno).
    apply eq_None_not_Some in Hno. apply Hno.
    apply (indexExisting_lookup _ _ _ _ Hpne). right. exact (Hpk p Hp Hpne). }
  cbn [map gen importPaths filesThatMustExist log]. rewrite app_nil_r.
  unfold bind at 1, getGen. cbn [gen importPaths].
  exact (resolveEach_fixed E out 0 [] f tr' Hall eq_refl).
Qed.

Lemma resolveImportPaths_Ok_fixed E T fuel models s out s' :
  resolveImportPaths E T fuel models s = Some (Ok out, s') ->
  forall s2, gen s2 = gen s' ->
    resolveImportPaths E T fuel models s2 = Some (Ok out, s2).
Proof.
  intros H s2 Hs2.
  destruct (resolveImportPaths_Ok E T fuel _ _ _ _ H)
    as (pkgs & ips0 & added & Hcollect & _ & _ & Hne & _ & Hin & HF & Hgen).
  destruct (Forall2_resolvedFrom _ _ HF) as (Hmap & _ & Hall).
  assert (Hout : importPaths (gen s2) = out) by (rewrite Hs2, Hgen; reflexivity).
  rewrite <- Hout in *.
  apply (resolveImportPaths_fixed E T fuel models s2 pkgs Hcollect).
  - intros Heq. rewrite Heq in HF. apply Forall2_length in HF.
    rewrite length_app in HF. destruct ips0; [congruence|cbn in HF; lia].
  - exact Hall.
  - intros p Hp Hpne.
    rewrite Hmap, map_app, map_ModuleImportPath_mk. apply in_or_app.
    destruct (in_dec string_dec p (map ModuleImportPath ips0)) as [Hi|Hni];
      [left; exact Hi|right]. apply Hin. auto.
Qed.

(** X18: resolutions are kept for the next call.  After a successful
    [resolveImportPaths], a second one on the same models returns the same
    list and leaves the generator as it is, without any call to the
    operating system or to [go list]. *)
Theorem resolveImportPaths_cached
  (E : Env) (T : types) (fuel : nat) (models : list any)
  (s : state) (out : list ImportPath) (s' : state) :
  resolveImportPaths E T fuel models s = Some (Ok out, s') ->
  resolveImportPaths E T fuel models s' = Some (Ok out, s').
Proof.
  intros H. exact (resolveImportPaths_Ok_fixed _ _ _ _ _ _ _ H s' eq_refl).
Qed.

Lemma resolveImportPaths_cached_witness :
  exists out s',
    resolveImportPaths demo.env demo.T 6 [Some demo.tSubject]
      {| gen := {| filesThatMustExist := []; importPaths := [] |}; log := [] |}
    = Some (Ok out, s')
    /\ resolveImportPaths demo.env demo.T 6 [Some demo.tSubject] s'
       = Some (Ok out, s').
Proof.
  eexists _, {| gen := _; log := _ |}. split.
  - vm_compute. reflexivity.
  - apply (resolveImportPaths_cached demo.env demo.T 6 [Some demo.tSubject]
             {| gen := {| filesThatMustExist := []; importPaths := [] |};
                log := [] |}).
    vm_compute. reflexivity.
Defined.

(** ** An entry without import path *)

Section EmptyImportPath.

Variable E : Env.
Variable T : types.
Variable fuel : nat.

Lemma resolveImportPaths_head_empty models s ip rest pkgs :
  importPaths (gen s) = ip :: rest ->
  ModuleImportPath ip = "" ->
  collectDependentPackages T fuel models = Some pkgs ->
  exists s',
    resolveImportPaths E T fuel models s
    = Some (Err (ErrMissingModuleImportPathAt 0), s')
    /\ log s' = log s.
Proof.
  intros Hips Hm Hcollect. unfold resolveImportPaths.
  unfold bind at 1, getGen. rewrite Hips. cbn [length Nat.eqb].
  rewrite bind_ret_l, Hcollect. cbn [liftO]. rewrite bind_ret_l.
  match goal with
  | |- context [bind (appendInferred pkgs ?ex) _ ?s0] =>
    destruct (appendInferred_spec pkgs ex s0) as (added & Happ & _ & _);
      rewrite (bind_eq_Ok _ _ _ _ _ Happ)
  end.
  unfold bind at 1, getGen. cbn [gen importPaths]. rewrite Hips.
  cbn [app resolveEach]. rewrite Hm. cbn. eauto.
Qed.

Lemma Generate_walk_None model st :
  collectDependentPackages T fuel [model] = None ->
  importPaths (gen st) <> [] ->
  Generate E T fuel model st = None.
Proof.
  intros Hwalk Hips. unfold Generate. apply bind_eq_None.
  unfold resolveImportPaths. unfold bind at 1, getGen.
  destruct (importPaths (gen st)) as [|ip rest]; [congruence|].
  cbn [length Nat.eqb]. rewrite bind_ret_l, Hwalk. reflexivity.
Qed.

Lemma Generate_head_empty model st ip rest :
  importPaths (gen st) = ip :: rest ->
  ModuleImportPath ip = "" ->
  (forall r st',
     Generate E T fuel model st = Some (r, st') ->
     r = Err (ErrMissingModuleImportPathAt 0) /\ log st' = log st)
  /\ (collectDependentPackages T fuel [model] <> None ->
      exists st',
        Generate E T fuel model st
        = Some (Err (ErrMissingModuleImportPathAt 0), st')
        /\ log st' = log st).
Proof.
  intros Hips Hm.
  assert (Hrun : forall pkgs,
             collectDependentPackages T fuel [model] = Some pkgs ->
             exists st',
               Generate E T fuel model st
               = Some (Err (ErrMissingModuleImportPathAt 0), st')
               /\ log st' = log st).
  { intros pkgs Hc.
    destruct (resolveImportPaths_head_empty [model] st ip rest pkgs Hips Hm Hc)
      as (st' & Hres & Hlog).
    exists st'. split; [|exact Hlog].
    unfold Generate. rewrite (bind_eq_Err _ _ _ _ _ Hres). reflexivity. }
  split.
  - intros r st' Hgen.
    destruct (collectDependentPackages T fuel [model]) as [pkgs|] eqn:Hc.
    + destruct (Hrun pkgs eq_refl) as (st2 & Hgen' & Hlog).
      rewrite Hgen' in Hgen. injection Hgen as <- <-. auto.
    + rewrite (Generate_walk_None model st Hc) in Hgen; [discriminate|].
      rewrite Hips. discriminate.
  - intros Hwalk.
    destruct (collectDependentPackages T fuel [model]) as [pkgs|] eqn:Hc;
      [|congruence].
    exact (Hrun pkgs eq_refl).
Qed.

End EmptyImportPath.

(** X19: a generator configured with an entry whose [ModuleImportPath] is
    empty never generates a schema: whatever [Generate] returns is an
    error, and nothing is harvested or reflected. *)
Theorem Generate_empty_module_import_path
  (E : Env) (T : types) (fuel : nat) (g : generator) (ip : ImportPath)
  (model : any) (tr : trace) (r : result string) (st' : state) :
  In ip (importPaths g) ->
  ModuleImportPath ip = "" ->
  Generate E T fuel model {| gen := g; log := tr |} = Some (r, st') ->
  isErr r = true /\ quiet tr (log st').
Proof.
  intros Hin Hm Hgen. unfold Generate in Hgen.
  apply bind_inv in Hgen as [(e & Hres & ->)|(out & s1 & Hres & _)].
  - split; [reflexivity|].
    exact (proj2 (resolveImportPaths_quiet E T fuel _ _ _ _ Hres)).
  - exfalso.
    destruct (resolveImportPaths_Ok E T fuel _ _ _ _ Hres)
      as (pkgs & ips0 & added & _ & Hcfg & _ & _ & _ & _ & HF & _).
    cbn [gen] in Hcfg.
    destruct (Forall2_resolvedFrom _ _ HF) as (_ & Hall & _).
    rewrite Hcfg in Hall by (intros Heq; rewrite Heq in Hin; destruct Hin).
    apply Forall_app in Hall as [Hall _]. rewrite Forall_forall in Hall.
    exact (Hall ip (proj2 (list_elem_of_In _ _) Hin) Hm).
Qed.

Lemma Generate_empty_module_import_path_witness :
  isErr (@Err string (ErrMissingModuleImportPathAt 1)) = true
  /\ quiet [] [EvGoList "time" ""].
Proof.
  refine (Generate_empty_module_import_path demo.env demo.T 6
            {| filesThatMustExist := [];
               importPaths :=
                 [{| ModuleImportPath := "time"; SourceDirectory := "" |};
                  {| ModuleImportPath := ""; SourceDirectory := "/tmp/x/foo" |}] |}
            {| ModuleImportPath := ""; SourceDirectory := "/tmp/x/foo" |}
            (Some demo.tSubject) [] _ {| gen := _; log := _ |} _ eq_refl _).
  - right. left. reflexivity.
  - vm_compute. reflexivity.
Defined.

(** X20: [ImportPathsWithLocal] always returns one entry more than the
    import paths it is given: the local one first, then one entry without
    source directory for each import path, in order.  When the inference
    of the local import path fails the first entry is the zero import
    path, and a generator made from the list generates nothing: whatever
    [Generate] returns for a model is "import path 0 missing
    ModuleImportPath", with no call made; and it does return that error
    for every model whose types lie in a finite set that holds the
    component types of its members and in which taking the pointers off
    ends, whatever the bound on the walk above the size of that set. *)
Theorem ImportPathsWithLocal_spec
  (E : Env) (T : types) (paths : list string) (tr : trace) :
  exists localip tr',
    InferImportPath E [] tr = Some (Ok localip, tr')
    /\ ImportPathsWithLocal E paths tr
       = Some (Ok (localip
                     :: map (fun p => {| ModuleImportPath := p;
                                         SourceDirectory := "" |}) paths),
               tr')
    /\ ((exists e, inferLocalImportPath E "" tr = Some (Err e, tr')) ->
        localip = {| ModuleImportPath := ""; SourceDirectory := "" |}
        /\ forall files model tr2 fuel,
             let st :=
               {| gen := New files
                           (localip
                              :: map (fun p => {| ModuleImportPath := p;
                                                  SourceDirectory := "" |})
                                     paths);
                  log := tr2 |} in
             (forall r st',
                Generate E T fuel model st = Some (r, st') ->
                r = Err (ErrMissingModuleImportPathAt 0) /\ log st' = tr2)
             /\ (forall U d,
                   closedUnder T U = true ->
                   pointerDepth T d U = true ->
                   (forall t, model = Some t -> In t U) ->
                   d + length U < fuel ->
                   exists st',
                     Generate E T fuel model st
                     = Some (Err (ErrMissingModuleImportPathAt 0), st')
                     /\ log st' = tr2)).
Proof.
  destruct (InferImportPath_cases E [] tr) as (localip & tr' & Hrun & Hcases).
  exists localip, tr'. split; [exact Hrun|]. split.
  - unfold ImportPathsWithLocal. rewrite (bind_eq_Ok _ _ _ _ _ Hrun).
    rewrite ImportPaths_map. reflexivity.
  - intros (e & Herr).
    destruct Hcases as [(Hok & _)|[_ ->]].
    { cbn [hd] in Hok. rewrite Hok in Herr. discriminate. }
    split; [reflexivity|]. intros files model tr2 fuel st.
    destruct (Generate_head_empty E T fuel model st _ _ eq_refl eq_refl)
      as [Hsafe Hlive].
    split; [exact Hsafe|]. intros U d Hc Hd Hin Hfuel. apply Hlive.
    destruct (collectDependentPackages_some T U d [model] fuel Hc Hd) as [out ->];
      [|exact Hfuel|discriminate].
    intros t [->|[]]. apply Hin. reflexivity.
Qed.

Lemma ImportPathsWithLocal_spec_witness :
  ImportPathsWithLocal demo.env2 ["x/y"] []
  = Some (Ok [{| ModuleImportPath := ""; SourceDirectory := "" |};
              {| ModuleImportPath := "x/y"; SourceDirectory := "" |}],
          [EvGetwd; EvReadFile "/tmp/y/go.mod";
           EvReadFile "/tmp/go.mod"; EvReadFile "/go.mod"])
  /\ exists st',
       Generate demo.env2 demo.T 20 (Some demo.tSubject)
         {| gen := New []
                     [{| ModuleImportPath := ""; SourceDirectory := "" |};
                      {| ModuleImportPath := "x/y"; SourceDirectory := "" |}];
            log := [] |}
       = Some (Err (ErrMissingModuleImportPathAt 0), st')
       /\ log st' = [].
Proof.
  destruct (ImportPathsWithLocal_spec demo.env2 demo.T ["x/y"] [])
    as (localip & tr' & Hrun & Hlist & Hfail).
  assert (Hc : InferImportPath demo.env2 [] []
               = Some (Ok {| ModuleImportPath := ""; SourceDirectory := "" |},
                       [EvGetwd; EvReadFile "/tmp/y/go.mod";
                        EvReadFile "/tmp/go.mod"; EvReadFile "/go.mod"])).
  { vm_compute. reflexivity. }
  rewrite Hc in Hrun. injection Hrun as <- <-.
  split; [exact Hlist|].
  destruct Hfail as [_ Hgen].
  { eexists. vm_compute. reflexivity. }
  destruct (Hgen [] (Some demo.tSubject) [] 20) as [_ Hlive].
  apply (Hlive demo.subjectUniverse 2).
  - vm_compute. reflexivity.
  - vm_compute. reflexivity.
  - intros t [= <-]. vm_compute. auto.
  - vm_compute. lia.
Defined.

(** ** Calls of a class: what a computation adds to the trace *)

Global Instance extendsBy_refl P : Reflexive (extendsBy P).
Proof. intros tr. exists []. split; [symmetry; apply app_nil_r|reflexivity]. Qed.

Global Instance extendsBy_trans P : Transitive (extendsBy P).
Proof.
  intros tr1 tr2 tr3 (e1 & -> & H1) (e2 & -> & H2). exists (e1 ++ e2).
  split; [symmetry; apply app_assoc|]. rewrite forallb_app, H1, H2. reflexivity.
Qed.

Global Instance extendsByS_refl P : Reflexive (extendsByS P).
Proof. intros s. unfold extendsByS. reflexivity. Qed.

Global Instance extendsByS_trans P : Transitive (extendsByS P).
Proof. intros s1 s2 s3 H1 H2. unfold extendsByS in *. etrans; eassumption. Qed.

Lemma preserves_call_by {A} P ev (f : trace -> A) :
  P ev = true -> preserves (extendsBy P) (call ev f).
Proof.
  intros Hev tr r tr'. rewrite call_eq. intros [= <- <-].
  exists [ev]. split; [reflexivity|]. cbn. rewrite Hev. reflexivity.
Qed.

Lemma preserves_io_by {A} P (c : M trace A) :
  preserves (extendsBy P) c -> preserves (extendsByS P) (io c).
Proof.
  intros Hc s r s'. unfold io.
  destruct (c (log s)) as [[r1 tr1]|] eqn:H; [|discriminate].
  intros [= <- <-]. exact (Hc _ _ _ H).
Qed.

Lemma preserves_getGen_by P : preserves (extendsByS P) getGen.
Proof. intros s r s' [= <- <-]. reflexivity. Qed.

Lemma preserves_setImportPaths_by P ips :
  preserves (extendsByS P) (setImportPaths ips).
Proof. intros s r s' [= <- <-]. unfold extendsByS. reflexivity. Qed.

Global Instance sameGen_refl P : Reflexive (sameGen P).
Proof. intros s. split; reflexivity. Qed.

Global Instance sameGen_trans P : Transitive (sameGen P).
Proof.
  intros s1 s2 s3 [Hg1 H1] [Hg2 H2]. split; [congruence|]. etrans; eassumption.
Qed.

Lemma preserves_io_same {A} P (c : M trace A) :
  preserves (extendsBy P) c -> preserves (sameGen P) (io c).
Proof.
  intros Hc s r s'. unfold io.
  destruct (c (log s)) as [[r1 tr1]|] eqn:H; [|discriminate].
  intros [= <- <-]. split; [reflexivity|]. exact (Hc _ _ _ H).
Qed.

Lemma preserves_getGen_same P : preserves (sameGen P) getGen.
Proof. intros s r s' [= <- <-]. reflexivity. Qed.

Create HintDb presby discriminated.

#[global] Hint Resolve preserves_getGen_same : presby.

#[global] Hint Resolve preserves_getGen_by preserves_setImportPaths_by : presby.
#[global] Hint Extern 1 (preserves (extendsBy _) (call _ _)) =>
  apply preserves_call_by; reflexivity : presby.

Ltac pres_by :=
  repeat first
    [ match goal with
      | |- Reflexive _ => exact _
      | |- Transitive _ => exact _
      end
    | solve [auto 1 with presby]
    | simple apply @preserves_ret
    | simple apply @preserves_fail
    | simple apply @preserves_liftR
    | simple apply @preserves_liftE
    | simple apply @preserves_liftO
    | simple apply @preserves_diverge
    | simple apply @preserves_attempt
    | simple apply @preserves_finally
    | simple apply @preserves_io_by
    | simple apply @preserves_io_same
    | simple apply @preserves_bind; [| |intros ?]
    | match goal with
      | |- preserves _ (match ?x with _ => _ end) => destruct x
      end ].

Section NoWrite.

Variable E : Env.

Abbreviation reads := (extendsBy noWrite).
Abbreviation readsS := (extendsByS noWrite).

Lemma lookupPackageDir_reads importPath workDir :
  preserves reads (lookupPackageDir E importPath workDir).
Proof. unfold lookupPackageDir. pres_by. Qed.

Lemma findModulePath_noWrite startDir :
  preserves reads (findModulePath E startDir).
Proof.
  unfold findModulePath. generalize (2 + String.length startDir) as fuel.
  generalize startDir at 2 as dir.
  intros dir fuel. revert dir.
  induction fuel as [|fuel IH]; intros dir; cbn [findModulePath_loop]; pres_by.
Qed.

Lemma detectPackageName_loop_reads dir entries :
  preserves reads (detectPackageName_loop E dir entries).
Proof.
  induction entries as [|entry rest IH]; cbn [detectPackageName_loop]; pres_by.
Qed.

Hint Resolve detectPackageName_loop_reads : presby.

Lemma detectPackageName_reads dir : preserves reads (detectPackageName E dir).
Proof. unfold detectPackageName. pres_by. Qed.

Lemma filepath_Abs_reads p : preserves reads (filepath_Abs E p).
Proof. unfold filepath_Abs. pres_by. Qed.

Hint Resolve lookupPackageDir_reads findModulePath_noWrite
  detectPackageName_reads filepath_Abs_reads : presby.

Lemma inferLocalImportPath_reads sourceDir :
  preserves reads (inferLocalImportPath E sourceDir).
Proof. unfold inferLocalImportPath. pres_by. Qed.

Lemma ensureSourceDirectory_reads ip :
  preserves reads (ensureSourceDirectory E ip).
Proof. unfold ensureSourceDirectory. pres_by. Qed.

Lemma statAll_reads files : preserves reads (statAll E files).
Proof. induction files as [|p rest IH]; cbn [statAll]; pres_by. Qed.

Hint Resolve inferLocalImportPath_reads ensureSourceDirectory_reads
  statAll_reads : presby.

Lemma appendInferred_reads pkgs existing :
  preserves readsS (appendInferred pkgs existing).
Proof.
  revert existing.
  induction pkgs as [|pkg rest IH]; intros existing; cbn [appendInferred];
    pres_by.
Qed.

Lemma resolveEach_reads i pending resolved :
  preserves readsS (resolveEach E i pending resolved).
Proof.
  revert i resolved.
  induction pending as [|ip rest IH]; intros i resolved; cbn [resolveEach];
    pres_by.
Qed.

Hint Resolve appendInferred_reads resolveEach_reads : presby.

Lemma AddGoComments_reads r base dir :
  preserves reads (AddGoComments E r base dir).
Proof. unfold AddGoComments. pres_by. Qed.

Hint Resolve AddGoComments_reads : presby.

Lemma addGoCommentsForImportPath_reads r ip :
  preserves reads (addGoCommentsForImportPath E r ip).
Proof. unfold addGoCommentsForImportPath, withWorkingDir. pres_by. Qed.

Hint Resolve addGoCommentsForImportPath_reads : presby.

Lemma addGoCommentsAll_reads ips :
  forall r, preserves reads (addGoCommentsAll E r ips).
Proof.
  induction ips as [|ip rest IH]; intros r; cbn [addGoCommentsAll]; pres_by.
Qed.

Hint Resolve addGoCommentsAll_reads : presby.

Variable T : types.
Variable fuel : nat.

Lemma resolveImportPaths_reads models :
  preserves readsS (resolveImportPaths E T fuel models).
Proof. unfold resolveImportPaths. pres_by. Qed.

Hint Resolve resolveImportPaths_reads : presby.

Lemma Generate_reads model : preserves readsS (Generate E T fuel model).
Proof. unfold Generate. pres_by. Qed.

End NoWrite.

Lemma filter_noWrite evs :
  forallb noWrite evs = true ->
  List.filter isWrite evs = [] /\ List.filter isCreate evs = [].
Proof.
  induction evs as [|ev evs IH]; [split; reflexivity|].
  cbn [forallb]. intros H. apply andb_prop in H as [Hev H].
  destruct (IH H) as [IH1 IH2]. cbn [List.filter]. rewrite IH1, IH2.
  destruct ev; try discriminate Hev; split; reflexivity.
Qed.

(** X21: [Generate] writes nothing: none of its calls makes a directory,
    creates a file or writes to one, whatever it returns. *)
Theorem Generate_writes_nothing
  (E : Env) (T : types) (fuel : nat) (model : any)
  (st : state) (r : result string) (st' : state) :
  Generate E T fuel model st = Some (r, st') ->
  exists evs, log st' = log st ++ evs /\ List.filter isWrite evs = [].
Proof.
  intros H. destruct (Generate_reads E T fuel model _ _ _ H) as (evs & Hlog & Hevs).
  exists evs. split; [exact Hlog|]. exact (proj1 (filter_noWrite _ Hevs)).
Qed.

Lemma Generate_writes_nothing_witness :
  exists evs,
    [EvGetwd; EvReadFile "/tmp/x/foo/go.mod"; EvReadFile "/tmp/x/go.mod";
     EvReadDir "/tmp/x/foo"; EvParseFile "/tmp/x/foo/foo.go";
     EvGoList "example.com/project/foo" "/tmp/x";
     EvGoList "pkt.systems/schemator/example" ""; EvGoList "time" "";
     EvStat "does-not-exist"] = [] ++ evs
    /\ List.filter isWrite evs = [].
Proof.
  refine (Generate_writes_nothing demo.env demo.T 6 (Some demo.tSubject)
            {| gen := {| filesThatMustExist := ["does-not-exist"];
                         importPaths := [] |};
               log := [] |}
            (Err (ErrNotExist "does-not-exist")) {| gen := _; log := _ |} _).
  vm_compute. reflexivity.
Defined.

Section Writes.

Variable E : Env.
Variable T : types.
Variable fuel : nat.

Lemma WriteSchema_cases model filenamePath st :
  match Generate E T fuel model st with
  | None => WriteSchema E T fuel model filenamePath st = None
  | Some (Err e, st1) =>
    WriteSchema E T fuel model filenamePath st = Some (Err e, st1)
  | Some (Ok out, st1) =>
    exists r k,
      WriteSchema E T fuel model filenamePath st
      = Some (r, {| gen := gen st1;
                    log := log st1
                             ++ firstn k [EvMkdirAll (filepath.Dir filenamePath);
                                          EvCreate filenamePath;
                                          EvFprintln filenamePath out] |})
      /\ 1 <= k <= 3 /\ (r = Ok tt -> k = 3)
  end.
Proof.
  unfold WriteSchema.
  destruct (Generate E T fuel model st) as [[[out|e] st1]|] eqn:Hgen.
  - rewrite (bind_eq_Ok _ _ _ _ _ Hgen).
    unfold bind at 1, io at 1. rewrite call_eq. cbn [gen log].
    destruct (os_MkdirAll E (log st1) (filepath.Dir filenamePath)) as [e1|].
    { cbn [liftE]. rewrite (bind_eq_Err _ _ _ _ _ eq_refl).
      eexists _, 1. split; [reflexivity|]. split; [lia|discriminate]. }
    cbn [liftE]. rewrite bind_ret_l.
    unfold bind at 1, io at 1. rewrite call_eq. cbn [gen log].
    destruct (os_Create E _ filenamePath) as [e2|].
    { cbn [liftE]. rewrite (bind_eq_Err _ _ _ _ _ eq_refl).
      eexists _, 2. rewrite <- app_assoc.
      split; [reflexivity|]. split; [lia|discriminate]. }
    cbn [liftE]. rewrite bind_ret_l.
    unfold bind at 1, io at 1. rewrite call_eq. cbn [gen log].
    rewrite <- !app_assoc. cbn [app].
    destruct (fmt_Fprintln E _ filenamePath out) as [e3|]; cbn [liftE].
    + eexists _, 3. split; [reflexivity|]. split; [lia|reflexivity].
    + eexists _, 3. split; [reflexivity|]. split; [lia|reflexivity].
  - rewrite (bind_eq_Err _ _ _ _ _ Hgen). reflexivity.
  - rewrite (bind_eq_None _ _ _ Hgen). reflexivity.
Qed.

Lemma WriteSchema_Ok model filenamePath st st' :
  WriteSchema E T fuel model filenamePath st = Some (Ok tt, st') ->
  exists evs,
    log st' = log st ++ evs
    /\ List.filter isCreate evs = [EvCreate filenamePath].
Proof.
  intros H. pose proof (WriteSchema_cases model filenamePath st) as Hc.
  destruct (Generate E T fuel model st) as [[[out|e] st1]|] eqn:Hgen;
    [|congruence..].
  destruct Hc as (r & k & Hrun & _ & Hk). rewrite Hrun in H.
  injection H as -> <-. rewrite (Hk eq_refl). cbn [log firstn].
  destruct (Generate_reads E T fuel model _ _ _ Hgen) as (evs & -> & Hevs).
  eexists. rewrite <- app_assoc. split; [reflexivity|].
  rewrite List.filter_app, (proj2 (filter_noWrite _ Hevs)). reflexivity.
Qed.

End Writes.

(** X22: [WriteSchema] writes only once [Generate] has returned a schema:
    an error of [Generate] is returned as it is, in the state [Generate]
    left, and [Generate] has written nothing.  After that its calls are,
    in order, [os.MkdirAll] on the directory of the file, [os.Create] of
    the file, and [fmt.Fprintln] of the schema to it: the first of them
    that fails is the last call made and its error is what [WriteSchema]
    returns, and [WriteSchema] returns no error exactly when all three
    were made and none failed. *)
Theorem WriteSchema_writes
  (E : Env) (T : types) (fuel : nat) (model : any) (filenamePath : string)
  (st : state) (r : result unit) (st' : state) :
  WriteSchema E T fuel model filenamePath st = Some (r, st') ->
  exists rg st1 evs,
    Generate E T fuel model st = Some (rg, st1)
    /\ log st1 = log st ++ evs /\ List.filter isWrite evs = []
    /\ gen st' = gen st1
    /\ match rg with
       | Err e => r = Err e /\ st' = st1
       | Ok out =>
         let mkdir := EvMkdirAll (filepath.Dir filenamePath) in
         let create := EvCreate filenamePath in
         let print := EvFprintln filenamePath out in
         match os_MkdirAll E (log st1) (filepath.Dir filenamePath) with
         | Some e => r = Err e /\ log st' = log st1 ++ [mkdir]
         | None =>
           match os_Create E (log st1 ++ [mkdir]) filenamePath with
           | Some e => r = Err e /\ log st' = log st1 ++ [mkdir; create]
           | None =>
             log st' = log st1 ++ [mkdir; create; print]
             /\ r = match fmt_Fprintln E (log st1 ++ [mkdir; create])
                             filenamePath out with
                    | Some e => Err e
                    | None => Ok tt
                    end
           end
         end
       end.
Proof.
  intros H. unfold WriteSchema in H.
  destruct (Generate E T fuel model st) as [[rg st1]|] eqn:Hgen;
    [|rewrite (bind_eq_None _ _ _ Hgen) in H; discriminate H].
  destruct (Generate_reads E T fuel model _ _ _ Hgen) as (evs & Hlog & Hevs).
  exists rg, st1, evs. split; [reflexivity|]. split; [exact Hlog|].
  split; [exact (proj1 (filter_noWrite _ Hevs))|].
  destruct rg as [out|e].
  - rewrite (bind_eq_Ok _ _ _ _ _ Hgen) in H.
    unfold bind at 1, io at 1 in H. rewrite call_eq in H. cbn [gen log] in H.
    cbv zeta.
    destruct (os_MkdirAll E (log st1) (filepath.Dir filenamePath)) as [e1|].
    { cbn [liftE] in H. rewrite (bind_eq_Err _ _ _ _ _ eq_refl) in H.
      injection H as <- <-. cbn. auto. }
    cbn [liftE] in H. rewrite bind_ret_l in H.
    unfold bind at 1, io at 1 in H. rewrite call_eq in H. cbn [gen log] in H.
    destruct (os_Create E _ filenamePath) as [e2|].
    { cbn [liftE] in H. rewrite (bind_eq_Err _ _ _ _ _ eq_refl) in H.
      injection H as <- <-. cbn. rewrite <- app_assoc. auto. }
    cbn [liftE] in H. rewrite bind_ret_l in H.
    unfold bind at 1, io at 1 in H. rewrite call_eq in H. cbn [gen log] in H.
    rewrite <- !app_assoc in H. cbn [app] in H.
    destruct (fmt_Fprintln E
                (log st1 ++ [EvMkdirAll (filepath.Dir filenamePath);
                             EvCreate filenamePath])
                filenamePath out) as [e3|]; cbn [liftE] in H;
      injection H as <- <-; cbn; auto.
  - rewrite (bind_eq_Err _ _ _ _ _ Hgen) in H. injection H as <- <-. auto.
Qed.

Lemma WriteSchema_writes_witness :
  exists st1,
    Generate demo.env demo.T 6 (Some demo.tUUID)
      {| gen := {| filesThatMustExist := []; importPaths := [] |}; log := [] |}
    = Some (Ok "{}", st1)
    /\ os_MkdirAll demo.env (log st1) (filepath.Dir "out/UUID.schema.json")
       = None
    /\ os_Create demo.env (log st1 ++ [EvMkdirAll "out"]) "out/UUID.schema.json"
       = Some (ErrExternal "permission denied")
    /\ WriteSchema demo.env demo.T 6 (Some demo.tUUID) "out/UUID.schema.json"
         {| gen := {| filesThatMustExist := []; importPaths := [] |}; log := [] |}
       = Some (Err (ErrExternal "permission denied"),
               {| gen := gen st1;
                  log := log st1 ++ [EvMkdirAll "out";
                                     EvCreate "out/UUID.schema.json"] |}).
Proof.
  pose (g := {| filesThatMustExist := [];
                importPaths :=
                  [{| ModuleImportPath := "example.com/project/foo";
                      SourceDirectory := "/tmp/x/foo" |};
                   {| ModuleImportPath := "github.com/google/uuid";
                      SourceDirectory :=
                        "/go/pkg/mod/github.com/google/uuid@v1.6.0" |}] |}).
  pose (tr1 := [EvGetwd; EvReadFile "/tmp/x/foo/go.mod";
                EvReadFile "/tmp/x/go.mod";
                EvReadDir "/tmp/x/foo"; EvParseFile "/tmp/x/foo/foo.go";
                EvGoList "example.com/project/foo" "/tmp/x";
                EvGoList "github.com/google/uuid" "";
                EvGetwd; EvChdir "/tmp/x/foo";
                EvAddGoComments "example.com/project/foo" ".";
                EvChdir "/tmp/x/foo";
                EvGetwd; EvChdir "/go/pkg/mod/github.com/google/uuid@v1.6.0";
                EvAddGoComments "github.com/google/uuid" ".";
                EvChdir "/tmp/x/foo";
                EvReflect (Some demo.tUUID)]).
  assert (Hw : WriteSchema demo.env demo.T 6 (Some demo.tUUID)
                 "out/UUID.schema.json"
                 {| gen := {| filesThatMustExist := []; importPaths := [] |};
                    log := [] |}
               = Some (Err (ErrExternal "permission denied"),
                       {| gen := g;
                          log := tr1 ++ [EvMkdirAll "out";
                                         EvCreate "out/UUID.schema.json"] |})).
  { vm_compute. reflexivity. }
  assert (Hg : Generate demo.env demo.T 6 (Some demo.tUUID)
                 {| gen := {| filesThatMustExist := []; importPaths := [] |};
                    log := [] |}
               = Some (Ok "{}", {| gen := g; log := tr1 |})).
  { vm_compute. reflexivity. }
  destruct (WriteSchema_writes _ _ _ _ _ _ _ _ Hw)
    as (rg & st1 & evs & Hgen & _ & _ & _ & Hcases).
  rewrite Hg in Hgen. injection Hgen as <- <-.
  exists {| gen := g; log := tr1 |}. split; [exact Hg|].
  split; [reflexivity|]. split; [reflexivity|]. exact Hw.
Defined.

(** X23: the files of a batch.  When [WriteSchemas] returns no error, the
    files it has created are, in the order of the models, one file
    [<outputDir>/<name>.schema.json] for each model with a file name, and
    no other: a model without one is passed over, and two models with the
    same file name are written to the same file, the later over the
    earlier. *)
Theorem WriteSchemas_creates
  (E : Env) (T : types) (fuel : nat) (outputDir : string) (models : list any)
  (st st' : state) :
  WriteSchemas E T fuel outputDir models st = Some (Ok tt, st') ->
  exists evs,
    log st' = log st ++ evs
    /\ List.filter isCreate evs
       = map EvCreate (schemaFiles E T fuel outputDir models).
Proof.
  revert st. induction models as [|m rest IH]; intros st H.
  - injection H as <-. exists []. rewrite app_nil_r. split; reflexivity.
  - cbn [WriteSchemas] in H. unfold schemaFiles in *. cbn [flat_map].
    destruct (toString E T fuel m) as [n|]; [|discriminate H].
    cbn [liftO] in H. rewrite bind_ret_l in H.
    destruct (String.eqb n ""); [exact (IH _ H)|].
    apply bind_Ok in H as ([] & st1 & Hw & H).
    apply WriteSchema_Ok in Hw as (evs1 & Hl1 & Hf1).
    apply IH in H as (evs2 & Hl2 & Hf2).
    exists (evs1 ++ evs2). rewrite Hl2, Hl1, <- app_assoc.
    split; [reflexivity|].
    rewrite List.filter_app, Hf1, Hf2. reflexivity.
Qed.

Lemma WriteSchemas_creates_witness :
  exists evs st',
    WriteSchemas demo.env demo.T 6 "out"
      [Some demo.tSubject; Some demo.tWrapper; Some demo.tSubjectPtr]
      {| gen := {| filesThatMustExist := []; importPaths := [] |}; log := [] |}
    = Some (Ok tt, st')
    /\ log st' = [] ++ evs
    /\ List.filter isCreate evs
       = [EvCreate "out/Subject.schema.json";
          EvCreate "out/Subject.schema.json"].
Proof.
  assert (H : exists st',
             WriteSchemas demo.env demo.T 6 "out"
               [Some demo.tSubject; Some demo.tWrapper; Some demo.tSubjectPtr]
               {| gen := {| filesThatMustExist := []; importPaths := [] |};
                  log := [] |}
             = Some (Ok tt, st')).
  { eexists {| gen := _; log := _ |}. vm_compute. reflexivity. }
  destruct H as (st' & H).
  destruct (WriteSchemas_creates _ _ _ _ _ _ _ H) as (evs & Hlog & Hf).
  exists evs, st'. split; [exact H|]. split; [exact Hlog|exact Hf].
Defined.

(** ** What a generated schema is made from *)

Lemma filter_quiet evs :
  Forall (fun ev => isHarvest ev = false) evs -> List.filter isHarvest evs = [].
Proof.
  induction 1 as [|ev evs Hev _ IH]; [reflexivity|].
  cbn [List.filter]. rewrite Hev. exact IH.
Qed.

Section Reflects.

Variable E : Env.

Lemma harvest_run r mip d t :
  bind (AddGoComments E r mip d) (fun r0 => ret (sanitizeReflector r0)) t
  = Some (match jsonschema_AddGoComments E t (rCommentMap r) mip d with
          | Ok m =>
            Ok (sanitizeReflector
                  {| ExpandedStruct := ExpandedStruct r;
                     AllowAdditionalProperties := AllowAdditionalProperties r;
                     rCommentMap := m |})
          | Err e => Err e
          end, t ++ [EvAddGoComments mip d]).
Proof.
  unfold AddGoComments, bind, call.
  destruct (jsonschema_AddGoComments E t (rCommentMap r) mip d); reflexivity.
Qed.

Lemma addGoCommentsForImportPath_Ok r ip tr r' tr' :
  addGoCommentsForImportPath E r ip tr = Some (Ok r', tr') ->
  exists evs,
    tr' = tr ++ evs
    /\ List.filter isHarvest evs = [harvestCall ip]
    /\ ExpandedStruct r' = ExpandedStruct r
    /\ AllowAdditionalProperties r' = AllowAdditionalProperties r
    /\ exists m0, rCommentMap r' = sanitizeCommentMap m0.
Proof.
  unfold addGoCommentsForImportPath, harvestCall.
  destruct (String.eqb (ModuleImportPath ip) ""); [discriminate|].
  destruct (String.eqb (SourceDirectory ip) ""); [discriminate|].
  destruct (filepath.IsAbs (SourceDirectory ip)); cbn [negb].
  - unfold withWorkingDir.
    rewrite (bind_eq_Ok _ _ _ _ _ (call_eq _ _ _)).
    destruct (os_Getwd E tr) as [cwd|e]; [|discriminate].
    cbn [liftR]. rewrite bind_ret_l. unfold finally.
    rewrite (bind_eq_Ok _ _ _ _ _ (call_eq _ _ _)).
    destruct (os_Chdir E (tr ++ [EvGetwd]) _) as [e|]; [discriminate|].
    cbn [liftE]. rewrite bind_ret_l, harvest_run, call_eq.
    destruct (jsonschema_AddGoComments E _ (rCommentMap r) _ ".") as [m|e];
      [|discriminate].
    intros [= <- <-]. eexists. rewrite <- !app_assoc.
    split; [reflexivity|]. cbn. eauto 10.
  - rewrite harvest_run.
    destruct (jsonschema_AddGoComments E _ (rCommentMap r) _ _) as [m|e];
      [|discriminate].
    intros [= <- <-]. eexists. split; [reflexivity|]. cbn. eauto 10.
Qed.

Lemma addGoCommentsAll_Ok ips :
  forall r tr r' tr',
    addGoCommentsAll E r ips tr = Some (Ok r', tr') ->
    exists evs,
      tr' = tr ++ evs
      /\ List.filter isHarvest evs = map harvestCall ips
      /\ ExpandedStruct r' = ExpandedStruct r
      /\ AllowAdditionalProperties r' = AllowAdditionalProperties r
      /\ (ips = [] -> r' = r)
      /\ (ips <> [] -> exists m0, rCommentMap r' = sanitizeCommentMap m0).
Proof.
  induction ips as [|ip rest IH]; intros r tr r' tr' H; cbn [addGoCommentsAll] in H.
  - injection H as <- <-. exists []. rewrite app_nil_r.
    repeat split; try reflexivity. congruence.
  - apply bind_Ok in H as (r1 & tr1 & H1 & H).
    apply addGoCommentsForImportPath_Ok in H1
      as (evs1 & -> & Hf1 & He1 & Ha1 & Hm1).
    apply IH in H as (evs2 & -> & Hf2 & He2 & Ha2 & Hnil & Hm2).
    exists (evs1 ++ evs2). rewrite <- app_assoc. split; [reflexivity|].
    rewrite List.filter_app, Hf1, Hf2. split; [reflexivity|].
    split; [congruence|]. split; [congruence|]. split; [discriminate|].
    intros _. destruct rest as [|ip' rest']; [|apply Hm2; discriminate].
    rewrite (Hnil eq_refl). exact Hm1.
Qed.

End Reflects.

Lemma resolveImportPaths_Ok_gen E T fuel models s out s' :
  resolveImportPaths E T fuel models s = Some (Ok out, s') ->
  out <> [] /\ importPaths (gen s') = out.
Proof.
  intros H.
  destruct (resolveImportPaths_Ok E T fuel _ _ _ _ H)
    as (pkgs & ips0 & added & _ & _ & _ & Hne & _ & _ & HF & Hgen).
  rewrite Hgen. split; [|reflexivity].
  intros ->. apply Forall2_length in HF. rewrite length_app in HF.
  destruct ips0; [congruence|cbn in HF; lia].
Qed.

(** X24: what a schema is made from.  When [Generate] returns a schema,
    it is the indented JSON of what the reflector made of the model; that
    reflector expands the top-level struct, allows no additional
    properties, and every comment in its comment map is collapsed; and the
    calls that harvested and reflected were, in order, one [AddGoComments]
    for each entry of the generator's resolved list and then the one
    [Reflect] of the model. *)
Theorem Generate_reflects
  (E : Env) (T : types) (fuel : nat) (model : any)
  (st : state) (schema : string) (st' : state) :
  Generate E T fuel model st = Some (Ok schema, st') ->
  exists r tr0 evs,
    json_MarshalIndent E (jsonschema_Reflect E tr0 r model) = Ok schema
    /\ ExpandedStruct r = true
    /\ AllowAdditionalProperties r = false
    /\ (forall (m : gmap string string) k v,
          rCommentMap r = Some m -> m !! k = Some v -> Collapsed v)
    /\ log st' = log st ++ evs
    /\ List.filter isHarvest evs
       = map harvestCall (importPaths (gen st')) ++ [EvReflect model].
Proof.
  intros H. unfold Generate in H.
  apply bind_Ok in H as (out & s1 & Hres & H).
  destruct (resolveImportPaths_Ok_gen _ _ _ _ _ _ _ Hres) as [Hne Hout].
  destruct (resolveImportPaths_quiet E T fuel _ _ _ _ Hres)
    as [_ (evs1 & Hl1 & Hq1)].
  unfold bind at 1, getGen in H.
  apply bind_Ok in H as ([] & s2 & Hstat & H). unfold io in Hstat.
  destruct (statAll E (filesThatMustExist (gen s1)) (log s1))
    as [[rs tr2]|] eqn:Hst; [|discriminate Hstat].
  injection Hstat as -> <-.
  destruct (statAll_quiet E _ _ _ _ Hst) as (evs2 & -> & Hq2).
  apply bind_Ok in H as (r & s3 & Hadd & H). unfold io in Hadd.
  cbn [log gen] in Hadd.
  destruct (addGoCommentsAll E _ out _) as [[ra tr3]|] eqn:Hall;
    [|discriminate Hadd].
  injection Hadd as -> <-.
  apply addGoCommentsAll_Ok in Hall as (evs3 & -> & Hf3 & He & Ha & _ & Hm).
  apply bind_Ok in H as (sch & s4 & Hrefl & H). unfold io in Hrefl.
  cbn [log gen] in Hrefl. rewrite call_eq in Hrefl. injection Hrefl as <- <-.
  apply liftR_Ok in H as [Hjson ->].
  eexists r, _, ((evs1 ++ evs2 ++ evs3) ++ [EvReflect model]).
  split; [exact Hjson|]. split; [exact He|]. split; [exact Ha|]. split; [|split].
  - intros m k v Hmap Hk. destruct (Hm Hne) as (m0 & Hm0).
    rewrite sanitizeCommentMap_option, Hmap in Hm0.
    destruct m0 as [m0|]; [|discriminate]. injection Hm0 as ->.
    rewrite lookup_fmap in Hk. destruct (m0 !! k) as [v0|]; [|discriminate].
    injection Hk as <-. apply sanitizeCommentText_Collapsed.
  - cbn [log]. rewrite Hl1, <- !app_assoc. reflexivity.
  - cbn [gen]. rewrite Hout, !List.filter_app, (filter_quiet _ Hq1),
      (filter_quiet _ Hq2), Hf3. reflexivity.
Qed.

Lemma Generate_reflects_witness :
  exists r tr0 evs,
    json_MarshalIndent demo.env (jsonschema_Reflect demo.env tr0 r (Some demo.tUUID))
    = Ok "{}"
    /\ ExpandedStruct r = true
    /\ AllowAdditionalProperties r = false
    /\ (forall (m : gmap string string) k v,
          rCommentMap r = Some m -> m !! k = Some v -> Collapsed v)
    /\ [EvGetwd; EvReadFile "/tmp/x/foo/go.mod"; EvReadFile "/tmp/x/go.mod";
        EvReadDir "/tmp/x/foo"; EvParseFile "/tmp/x/foo/foo.go";
        EvGoList "example.com/project/foo" "/tmp/x";
        EvGoList "github.com/google/uuid" "";
        EvGetwd; EvChdir "/tmp/x/foo";
        EvAddGoComments "example.com/project/foo" "."; EvChdir "/tmp/x/foo";
        EvGetwd; EvChdir "/go/pkg/mod/github.com/google/uuid@v1.6.0";
        EvAddGoComments "github.com/google/uuid" "."; EvChdir "/tmp/x/foo";
        EvReflect (Some demo.tUUID)] = [] ++ evs
    /\ List.filter isHarvest evs
       = map harvestCall
           [{| ModuleImportPath := "example.com/project/foo";
               SourceDirectory := "/tmp/x/foo" |};
            {| ModuleImportPath := "github.com/google/uuid";
               SourceDirectory := "/go/pkg/mod/github.com/google/uuid@v1.6.0" |}]
         ++ [EvReflect (Some demo.tUUID)].
Proof.
  refine (Generate_reflects demo.env demo.T 6 (Some demo.tUUID)
            {| gen := {| filesThatMustExist := []; importPaths := [] |};
               log := [] |}
            "{}"
            {| gen := {| filesThatMustExist := [];
                         importPaths :=
                           [{| ModuleImportPath := "example.com/project/foo";
                               SourceDirectory := "/tmp/x/foo" |};
                            {| ModuleImportPath := "github.com/google/uuid";
                               SourceDirectory :=
                                 "/go/pkg/mod/github.com/google/uuid@v1.6.0" |}] |};
               log := _ |} _).
  vm_compute. reflexivity.
Defined.

(** ** The generator's list only grows *)

Lemma Forall2_keepsEntry_refl l : Forall2 keepsEntry l l.
Proof. induction l; constructor; [split; auto|assumption]. Qed.

Section Keeps.

Variable E : Env.

Lemma resolveEach_keeps pending :
  forall i resolved s r s',
    importPaths (gen s) = resolved ++ pending ->
    length resolved = i ->
    resolveEach E i pending resolved s = Some (r, s') ->
    filesThatMustExist (gen s') = filesThatMustExist (gen s)
    /\ exists res',
         importPaths (gen s') = resolved ++ res'
         /\ Forall2 keepsEntry pending res'.
Proof.
  induction pending as [|ip rest IH]; intros i resolved s r s' Hips Hlen H;
    cbn [resolveEach] in H.
  - injection H as <- <-. split; [reflexivity|]. exists [].
    split; [exact Hips|constructor].
  - destruct (String.eqb (ModuleImportPath ip) "").
    { injection H as <- <-. split; [reflexivity|]. exists (ip :: rest).
      split; [exact Hips|apply Forall2_keepsEntry_refl]. }
    unfold bind at 1, io in H.
    destruct (ensureSourceDirectory_cases E ip (log s)) as (r0 & Hrun & Hr).
    rewrite Hrun in H. destruct r0 as [rip|e].
    + destruct Hr as (Hm' & _ & Hsame).
      unfold bind at 1, getGen in H. unfold bind at 1, setImportPaths in H.
      cbn [gen log filesThatMustExist importPaths] in H.
      rewrite Hips in H.
      rewrite (insert_app_r_alt resolved (ip :: rest) i rip ltac:(lia)) in H.
      replace (i - length resolved) with 0 in H by lia.
      change (<[0:=rip]> (ip :: rest)) with (rip :: rest) in H.
      apply IH in H.
      * destruct H as (Hfiles & res' & Hres & HF). split; [exact Hfiles|].
        exists (rip :: res'). rewrite <- app_assoc in Hres.
        split; [exact Hres|]. constructor; [split; assumption|exact HF].
      * cbn. rewrite <- app_assoc. reflexivity.
      * rewrite length_app. cbn. lia.
    + injection H as <- <-. split; [reflexivity|]. exists (ip :: rest).
      split; [exact Hips|apply Forall2_keepsEntry_refl].
Qed.

Variable T : types.
Variable fuel : nat.

Lemma resolveImportPaths_any_outcome models s r s' :
  resolveImportPaths E T fuel models s = Some (r, s') ->
  filesThatMustExist (gen s') = filesThatMustExist (gen s)
  /\ exists ips',
       Forall2 keepsEntry (importPaths (gen s))
               (firstn (length (importPaths (gen s))) (importPaths (gen s')))
       /\ importPaths (gen s')
          = firstn (length (importPaths (gen s))) (importPaths (gen s')) ++ ips'.
Proof.
  intros H.
  assert (Hgoal : forall l l' : list ImportPath,
             (exists res' more, l' = res' ++ more /\ Forall2 keepsEntry l res') ->
             exists ips',
               Forall2 keepsEntry l (firstn (length l) l')
               /\ l' = firstn (length l) l' ++ ips').
  { intros l l' (res' & more & -> & HF).
    pose proof (Forall2_length _ _ _ HF) as Hlen.
    exists more. rewrite Hlen, firstn_app, firstn_all, Nat.sub_diag.
    cbn [firstn]. rewrite app_nil_r. split; [exact HF|reflexivity]. }
  unfold resolveImportPaths in H. unfold bind at 1, getGen in H.
  apply bind_inv in H as [(e & Hfirst & ->)|(ex & s1 & Hfirst & H)].
  { destruct (length (importPaths (gen s)) =? 0); [|discriminate Hfirst].
    apply bind_inv in Hfirst as [(e' & Hinf & _)|(ip & s2 & _ & Hfirst)];
      [|discriminate Hfirst].
    unfold io in Hinf.
    destruct (inferLocalImportPath E "./" (log s)) as [[r1 tr1]|];
      [|discriminate Hinf].
    injection Hinf as _ <-. cbn [gen]. split; [reflexivity|].
    apply Hgoal. exists (importPaths (gen s)), [].
    rewrite app_nil_r. split; [reflexivity|apply Forall2_keepsEntry_refl]. }
  assert (Hs1 : filesThatMustExist (gen s1) = filesThatMustExist (gen s)
                /\ exists more, importPaths (gen s1) = importPaths (gen s) ++ more).
  { destruct (length (importPaths (gen s)) =? 0).
    - apply bind_Ok in Hfirst as (ip & s2 & Hinf & Hfirst).
      unfold bind at 1, setImportPaths in Hfirst. injection Hfirst as _ <-.
      unfold io in Hinf.
      destruct (inferLocalImportPath E "./" (log s)) as [[r1 tr1]|];
        [|discriminate Hinf].
      injection Hinf as _ <-. cbn. eauto.
    - injection Hfirst as _ <-. split; [reflexivity|]. exists [].
      symmetry. apply app_nil_r. }
  destruct Hs1 as (Hf1 & more1 & Hips1).
  apply bind_inv in H as [(e & Hwalk & ->)|(pkgs & s1' & Hwalk & H)].
  { destruct (collectDependentPackages T fuel models); discriminate Hwalk. }
  destruct (collectDependentPackages T fuel models) as [pkgs0|];
    [|discriminate Hwalk].
  injection Hwalk as -> <-.
  destruct (appendInferred_spec pkgs ex s1) as (added & Happ & _ & _).
  rewrite (bind_eq_Ok _ _ _ _ _ Happ) in H.
  unfold bind at 1, getGen in H. cbn [gen importPaths] in H.
  apply resolveEach_keeps with (resolved := []) in H; [|reflexivity|reflexivity].
  destruct H as (Hfiles & res' & Hres & HF).
  cbn [gen filesThatMustExist app] in *. split; [congruence|].
  apply Hgoal. rewrite Hres, Hips1, <- app_assoc in *.
  apply Forall2_app_inv_l in HF as (k1 & k2 & HF1 & _ & ->).
  exists k1, k2. split; [reflexivity|exact HF1].
Qed.

(** What the last loop has done when it returns, error or list: it
    resolved the entries of a first part of what was pending, and left the
    rest as it was; the rest is empty when it returns the list, and starts
    at the entry that could not be resolved when it returns an error. *)
Lemma resolveEach_any pending :
  forall i resolved s r s',
    importPaths (gen s) = resolved ++ pending ->
    length resolved = i ->
    resolveEach E i pending resolved s = Some (r, s') ->
    exists done todo res',
      pending = done ++ todo
      /\ importPaths (gen s') = resolved ++ res' ++ todo
      /\ Forall2 resolvedFrom done res'
      /\ (isErr r = false -> todo = [])
      /\ (forall e, r = Err e ->
          exists ip rest,
            todo = ip :: rest
            /\ ((ModuleImportPath ip = ""
                 /\ e = ErrMissingModuleImportPathAt (i + length done))
                \/ (SourceDirectory ip = ""
                    /\ exists cause,
                         e = ErrResolveSourceDirectory (ModuleImportPath ip)
                               cause))).
Proof.
  induction pending as [|ip rest IH]; intros i resolved s r s' Hips Hlen H;
    cbn [resolveEach] in H.
  - injection H as <- <-. exists [], [], []. cbn.
    split; [reflexivity|]. split; [exact Hips|]. split; [constructor|].
    split; [reflexivity|discriminate].
  - destruct (String.eqb_spec (ModuleImportPath ip) "") as [Hm|Hm].
    { injection H as <- <-. exists [], (ip :: rest), []. cbn.
      split; [reflexivity|]. split; [exact Hips|]. split; [constructor|].
      split; [discriminate|]. intros e [= <-]. exists ip, rest.
      split; [reflexivity|]. left. split; [exact Hm|].
      rewrite Nat.add_0_r. reflexivity. }
    unfold bind at 1, io in H.
    destruct (ensureSourceDirectory_cases E ip (log s)) as (r0 & Hrun & Hr).
    rewrite Hrun in H. destruct r0 as [rip|e0].
    + destruct Hr as (Hm' & Hd' & Hsame).
      unfold bind at 1, getGen in H. unfold bind at 1, setImportPaths in H.
      cbn [gen log filesThatMustExist importPaths] in H.
      rewrite Hips in H.
      rewrite (insert_app_r_alt resolved (ip :: rest) i rip ltac:(lia)) in H.
      replace (i - length resolved) with 0 in H by lia.
      change (<[0:=rip]> (ip :: rest)) with (rip :: rest) in H.
      apply IH in H.
      * destruct H as (done & todo & res' & -> & Hres & HF & Hok & Herr).
        exists (ip :: done), todo, (rip :: res').
        rewrite <- app_assoc in Hres. cbn [app] in *.
        split; [reflexivity|]. split; [exact Hres|].
        split; [constructor; [repeat split; assumption|exact HF]|].
        split; [exact Hok|]. intros e He.
        destruct (Herr e He) as (ip1 & rest1 & -> & Hcase).
        exists ip1, rest1. split; [reflexivity|].
        cbn [length]. replace (i + S (length done)) with (S i + length done)
          by lia.
        exact Hcase.
      * cbn. rewrite <- app_assoc. reflexivity.
      * rewrite length_app. cbn. lia.
    + injection H as <- <-. destruct Hr as (Hd & cause & -> & _).
      exists [], (ip :: rest), []. cbn.
      split; [reflexivity|]. split; [exact Hips|]. split; [constructor|].
      split; [discriminate|]. intros e [= <-]. exists ip, rest.
      split; [reflexivity|]. right. split; [exact Hd|]. eauto.
Qed.

(** Every way [resolveImportPaths] returns: with the error of the
    inference, the list still empty; or after the list, [ips0], was
    there, the packages of the models were collected, the new ones,
    [added], were appended, and the last loop has run. *)
Lemma resolveImportPaths_stages models s r s' :
  resolveImportPaths E T fuel models s = Some (r, s') ->
  (importPaths (gen s) = [] /\ importPaths (gen s') = []
   /\ exists e tr1,
        inferLocalImportPath E "./" (log s) = Some (Err e, tr1) /\ r = Err e)
  \/ exists ips0 pkgs added done todo res',
       (importPaths (gen s) <> [] -> ips0 = importPaths (gen s))
       /\ (importPaths (gen s) = [] ->
           exists ip tr1,
             inferLocalImportPath E "./" (log s) = Some (Ok ip, tr1)
             /\ ips0 = [ip])
       /\ collectDependentPackages T fuel models = Some pkgs
       /\ NoDup added
       /\ (forall p, In p added
                     <-> In p pkgs /\ p <> ""
                         /\ ~ In p (map ModuleImportPath ips0))
       /\ ips0 ++ map (fun p => {| ModuleImportPath := p;
                                   SourceDirectory := "" |}) added
          = done ++ todo
       /\ importPaths (gen s') = res' ++ todo
       /\ Forall2 resolvedFrom done res'
       /\ (isErr r = false -> todo = [])
       /\ (forall e, r = Err e ->
           exists ip rest,
             todo = ip :: rest
             /\ ((ModuleImportPath ip = ""
                  /\ e = ErrMissingModuleImportPathAt (length done))
                 \/ (SourceDirectory ip = ""
                     /\ exists cause,
                          e = ErrResolveSourceDirectory (ModuleImportPath ip)
                                cause))).
Proof.
  intros H. unfold resolveImportPaths in H.
  unfold bind at 1, getGen in H.
  set (ex0 := indexExisting 0 (importPaths (gen s)) ∅) in H.
  assert (Hex0 : forall p, p <> "" ->
               (is_Some (ex0 !! p)
                <-> In p (map ModuleImportPath (importPaths (gen s))))).
  { intros p Hp. unfold ex0.
    rewrite (indexExisting_lookup _ _ _ _ Hp), lookup_empty.
    split; [intros [[x [=]]|Hi]; exact Hi|auto]. }
  clearbody ex0.
  apply bind_inv in H as [(e & Hfirst & ->)|(ex & s1 & Hfirst & H)].
  { left. destruct (importPaths (gen s)) as [|ip0 rest0] eqn:Hips;
      cbn [length Nat.eqb] in Hfirst; [|discriminate Hfirst].
    apply bind_inv in Hfirst as [(e' & Hinf & He)|(ip & s2 & _ & Hfirst)];
      [|discriminate Hfirst].
    unfold io in Hinf.
    destruct (inferLocalImportPath E "./" (log s)) as [[r1 tr1]|] eqn:Hrun;
      [|discriminate Hinf].
    injection Hinf as -> <-. cbn [gen]. split; [reflexivity|].
    split; [exact Hips|]. exists e', tr1. split; [reflexivity|].
    injection He as ->. reflexivity. }
  right.
  apply bind_inv in H as [(e & Hwalk & ->)|(pkgs & s1' & Hwalk & H)].
  { destruct (collectDependentPackages T fuel models); discriminate Hwalk. }
  destruct (collectDependentPackages T fuel models) as [pkgs0|] eqn:Hcollect;
    [|discriminate Hwalk].
  injection Hwalk as -> <-.
  destruct (appendInferred_spec pkgs ex s1) as (added & Happ & Hnd & Hin).
  rewrite (bind_eq_Ok _ _ _ _ _ Happ) in H.
  unfold bind at 1, getGen in H. cbn [gen importPaths] in H.
  apply resolveEach_any with (resolved := []) in H; [|reflexivity|reflexivity].
  destruct H as (done & todo & res' & Hsplit & Hres & HF & Hok & Herr).
  cbn [app gen] in *.
  exists (importPaths (gen s1)), pkgs, added, done, todo, res'.
  assert (Hrest : importPaths (gen s1)
                    ++ map (fun p => {| ModuleImportPath := p;
                                        SourceDirectory := "" |}) added
                  = done ++ todo
                  /\ importPaths (gen s') = res' ++ todo
                  /\ Forall2 resolvedFrom done res'
                  /\ (isErr r = false -> todo = [])
                  /\ (forall e, r = Err e ->
                      exists ip rest,
                        todo = ip :: rest
                        /\ ((ModuleImportPath ip = ""
                             /\ e = ErrMissingModuleImportPathAt (length done))
                            \/ (SourceDirectory ip = ""
                                /\ exists cause,
                                     e = ErrResolveSourceDirectory
                                           (ModuleImportPath ip) cause))))
    by auto.
  clear Hsplit Hres HF Hok Herr.
  destruct (importPaths (gen s)) as [|ip0 rest0] eqn:Hips;
    cbn [length Nat.eqb] in Hfirst.
  - apply bind_Ok in Hfirst as (ip & s2 & Hinf & Hfirst).
    unfold bind at 1, setImportPaths in Hfirst. injection Hfirst as <- <-.
    unfold io in Hinf.
    destruct (inferLocalImportPath E "./" (log s)) as [[r1 tr1]|] eqn:Hrun;
      [|discriminate Hinf].
    injection Hinf as -> <-.
    cbn [gen importPaths filesThatMustExist log app] in *.
    split; [congruence|]. split.
    { intros _. exists ip, tr1. split; reflexivity. }
    split; [reflexivity|]. split; [exact Hnd|]. split; [|exact Hrest].
    intros p. rewrite Hin. cbn [map In].
    split; intros (H1 & H2 & H3); (split; [exact H1|]); (split; [exact H2|]).
    + intros [<-|[]]. rewrite lookup_insert_eq in H3. discriminate.
    + destruct (decide (ModuleImportPath ip = p)) as [Heq|Hne];
        [elim H3; left; exact Heq|].
      rewrite lookup_insert_ne by exact Hne. apply eq_None_not_Some.
      rewrite (Hex0 p H2). intros [].
  - injection Hfirst as <- <-.
    split; [intros _; exact Hips|]. split; [discriminate|].
    rewrite Hips in *. split; [reflexivity|].
    split; [exact Hnd|]. split; [|exact Hrest].
    intros p. rewrite Hin.
    split; intros (H1 & H2 & H3); (split; [exact H1|]); (split; [exact H2|]).
    + rewrite <- (Hex0 p H2). apply eq_None_not_Some. exact H3.
    + apply eq_None_not_Some. rewrite (Hex0 p H2). exact H3.
Qed.

(** What runs after the resolution leaves the generator as it is. *)
Lemma Generate_resolution model st r st' :
  Generate E T fuel model st = Some (r, st') ->
  exists r1 s1,
    resolveImportPaths E T fuel [model] st = Some (r1, s1)
    /\ gen st' = gen s1
    /\ (isErr r = false -> isErr r1 = false)
    /\ (forall e, r1 = Err e -> r = Err e).
Proof.
  intros H. unfold Generate in H.
  apply bind_inv in H as [(e & Hres & ->)|(out & s1 & Hres & H)].
  { exists (Err e), st'. split; [exact Hres|]. split; [reflexivity|].
    split; [auto|]. intros e0 [= <-]. reflexivity. }
  exists (Ok out), s1. split; [exact Hres|].
  split; [|split; [reflexivity|discriminate]].
  unfold bind at 1, getGen in H.
  assert (Hio : forall A B (c : M trace A) (k : A -> M state B) s r0 s0,
             (forall a s2, k a s2 = Some (r0, s0) -> gen s0 = gen s2) ->
             bind (io c) k s = Some (r0, s0) -> gen s0 = gen s).
  { intros A B c k s r0 s0 Hk Hb. unfold bind, io in Hb.
    destruct (c (log s)) as [[[a|e] tr1]|]; [|injection Hb as _ <-|];
      [|reflexivity|discriminate Hb].
    apply Hk in Hb. exact Hb. }
  apply Hio in H; [exact H|]. intros [] s2 H2.
  apply Hio in H2; [exact H2|]. intros ra s3 H3.
  apply Hio in H3; [exact H3|]. intros sch s4 H4.
  destruct (json_MarshalIndent E sch); injection H4 as _ <-; reflexivity.
Qed.

End Keeps.

(** X25: whatever [Generate] returns, error or schema, the generator
    forgets nothing.  Its required files are the same, and each entry its
    list had is still in its place with the same import path, left as it
    was when it had a source directory.  And nothing is rolled back on an
    error: unless the inference of the local import path failed (the list
    is then still empty), the list afterwards is the list there was (the
    inferred entry when there was none) followed by one entry for each
    collected package that was not in it, where the entries of a first
    part have been resolved and the rest is as it was.  The rest is empty
    unless the resolution stopped with an error, and then it starts at the
    entry the error is about: the entry at the index the error names, or
    the entry whose import path [go list] could not resolve. *)
Theorem Generate_keeps_entries
  (E : Env) (T : types) (fuel : nat) (model : any)
  (st : state) (r : result string) (st' : state) :
  Generate E T fuel model st = Some (r, st') ->
  filesThatMustExist (gen st') = filesThatMustExist (gen st)
  /\ (forall i ip,
        importPaths (gen st) !! i = Some ip ->
        exists ip',
          importPaths (gen st') !! i = Some ip'
          /\ ModuleImportPath ip' = ModuleImportPath ip
          /\ (SourceDirectory ip <> "" -> ip' = ip))
  /\ ((importPaths (gen st) = [] /\ importPaths (gen st') = []
       /\ exists e tr1,
            inferLocalImportPath E "./" (log st) = Some (Err e, tr1)
            /\ r = Err e)
      \/ exists ips0 pkgs added done todo res',
           (importPaths (gen st) <> [] -> ips0 = importPaths (gen st))
           /\ (importPaths (gen st) = [] ->
               exists ip tr1,
                 inferLocalImportPath E "./" (log st) = Some (Ok ip, tr1)
                 /\ ips0 = [ip])
           /\ collectDependentPackages T fuel [model] = Some pkgs
           /\ NoDup added
           /\ (forall p, In p added
                         <-> In p pkgs /\ p <> ""
                             /\ ~ In p (map ModuleImportPath ips0))
           /\ ips0 ++ map (fun p => {| ModuleImportPath := p;
                                       SourceDirectory := "" |}) added
              = done ++ todo
           /\ importPaths (gen st') = res' ++ todo
           /\ Forall2 resolvedFrom done res'
           /\ (isErr r = false -> todo = [])
           /\ (todo = []
               \/ exists ip rest e,
                    todo = ip :: rest /\ r = Err e
                    /\ ((ModuleImportPath ip = ""
                         /\ e = ErrMissingModuleImportPathAt (length done))
                        \/ (SourceDirectory ip = ""
                            /\ exists cause,
                                 e = ErrResolveSourceDirectory
                                       (ModuleImportPath ip) cause)))).
Proof.
  intros H.
  destruct (Generate_resolution E T fuel _ _ _ _ H)
    as (r1 & s1 & Hres & Hgen & Hok & Hprop).
  rewrite Hgen.
  destruct (resolveImportPaths_any_outcome E T fuel _ _ _ _ Hres)
    as (Hfiles & ips' & HF & Heq).
  split; [exact Hfiles|]. split.
  - intros i ip Hi.
    destruct (Forall2_lookup_l _ _ _ i ip HF Hi) as (ip' & Hi' & Hm & Hsame).
    exists ip'. split; [|split; assumption].
    rewrite Heq. apply lookup_app_l_Some. exact Hi'.
  - destruct (resolveImportPaths_stages E T fuel _ _ _ _ Hres)
      as [(H0 & H0' & e & tr1 & Hinf & ->)
         |(ips0 & pkgs & added & done & todo & res' & Hc & Hi & Hcol & Hnd
           & Hin & Hsplit & Hlist & HF2 & Htodo & Herr)].
    + left. split; [exact H0|]. split; [exact H0'|]. exists e, tr1.
      split; [exact Hinf|]. exact (Hprop e eq_refl).
    + right. exists ips0, pkgs, added, done, todo, res'.
      repeat (split; [assumption|]). split.
      * intros Hr. exact (Htodo (Hok Hr)).
      * destruct r1 as [out|e].
        { left. apply Htodo. reflexivity. }
        right. destruct (Herr e eq_refl) as (ip & rest & -> & Hcase).
        exists ip, rest, e. split; [reflexivity|].
        split; [exact (Hprop e eq_refl)|exact Hcase].
Qed.

Lemma Generate_keeps_entries_witness :
  exists done todo res' ip rest,
    [{| ModuleImportPath := "time"; SourceDirectory := "" |};
     {| ModuleImportPath := "no/such/pkg"; SourceDirectory := "" |}]
      ++ [{| ModuleImportPath := "pkt.systems/schemator/example";
             SourceDirectory := "" |}]
    = done ++ todo
    /\ [{| ModuleImportPath := "time";
           SourceDirectory := "/usr/lib/go/src/time" |};
        {| ModuleImportPath := "no/such/pkg"; SourceDirectory := "" |};
        {| ModuleImportPath := "pkt.systems/schemator/example";
           SourceDirectory := "" |}] = res' ++ todo
    /\ Forall2 resolvedFrom done res'
    /\ todo = ip :: rest
    /\ ModuleImportPath ip = "no/such/pkg".
Proof.
  pose (g0 := {| filesThatMustExist := [];
                 importPaths :=
                   [{| ModuleImportPath := "time"; SourceDirectory := "" |};
                    {| ModuleImportPath := "no/such/pkg";
                       SourceDirectory := "" |}] |}).
  pose (g1 := {| filesThatMustExist := [];
                 importPaths :=
                   [{| ModuleImportPath := "time";
                       SourceDirectory := "/usr/lib/go/src/time" |};
                    {| ModuleImportPath := "no/such/pkg";
                       SourceDirectory := "" |};
                    {| ModuleImportPath := "pkt.systems/schemator/example";
                       SourceDirectory := "" |}] |}).
  pose (err := ErrResolveSourceDirectory "no/such/pkg"
                 (ErrGoListFailed "no/such/pkg" (ErrExternal "exit status 1")
                    "no required module provides package no/such/pkg")).
  assert (H : Generate demo.env demo.T 6 (Some demo.tSubject)
                {| gen := g0; log := [] |}
              = Some (Err err,
                      {| gen := g1;
                         log := [EvGoList "time" "";
                                 EvGoList "no/such/pkg" ""] |})).
  { vm_compute. reflexivity. }
  destruct (Generate_keeps_entries _ _ _ _ _ _ _ H)
    as (_ & _ & [(H0 & _)|(ips0 & pkgs & added & done & todo & res' & Hc & _
                           & Hcol & _ & Hin & Hsplit & Hlist & HF & _ & Hend)]).
  { discriminate H0. }
  cbn [gen importPaths g0 g1] in *.
  rewrite (Hc ltac:(discriminate)) in *.
  assert (Hadded : added = ["pkt.systems/schemator/example"]).
  { assert (Hp : pkgs = ["pkt.systems/schemator/example"; "time"]).
    { vm_compute in Hcol. injection Hcol as <-. reflexivity. }
    subst pkgs.
    assert (Hlen : length (done ++ todo) = length (res' ++ todo))
      by (rewrite !length_app, (Forall2_length _ _ _ HF); reflexivity).
    rewrite <- Hsplit, <- Hlist in Hlen. rewrite length_app, length_map in Hlen.
    cbn [length] in Hlen.
    destruct added as [|a [|b added]]; cbn [length] in Hlen; try lia.
    destruct (proj1 (Hin a) (or_introl eq_refl)) as ([<-|[<-|[]]] & _ & Hno).
    - reflexivity.
    - elim Hno. left. reflexivity. }
  subst added.
  destruct Hend as [->|(ip & rest & e & -> & He & Hcase)].
  { exfalso. rewrite app_nil_r in Hlist. subst res'.
    apply Forall2_resolvedFrom in HF as (_ & _ & Hall).
    inversion Hall as [|? ? _ Hall2]; subst.
    inversion Hall2 as [|? ? [_ Hd] _]; subst. apply Hd. reflexivity. }
  exists done, (ip :: rest), res', ip, rest.
  split; [exact Hsplit|]. split; [exact Hlist|]. split; [exact HF|].
  split; [reflexivity|].
  injection He as <-. destruct Hcase as [[_ [=]]|(_ & cause & [= <- _])].
  reflexivity.
Defined.

(** ** A second call *)

Lemma filter_noResolve evs :
  forallb noResolve evs = true -> List.filter isResolve evs = [].
Proof.
  induction evs as [|ev evs IH]; [reflexivity|].
  cbn [forallb]. intros H. apply andb_prop in H as [Hev H].
  cbn [List.filter]. rewrite (IH H).
  destruct ev; try discriminate Hev; reflexivity.
Qed.

Section SecondCall.

Variable E : Env.

Abbreviation local := (extendsBy noResolve).

Lemma statAll_local files : preserves local (statAll E files).
Proof. induction files as [|p rest IH]; cbn [statAll]; pres_by. Qed.

Lemma AddGoComments_local r base dir :
  preserves local (AddGoComments E r base dir).
Proof. unfold AddGoComments. pres_by. Qed.

Hint Resolve statAll_local AddGoComments_local : presby.

Lemma addGoCommentsForImportPath_local r ip :
  preserves local (addGoCommentsForImportPath E r ip).
Proof. unfold addGoCommentsForImportPath, withWorkingDir. pres_by. Qed.

Hint Resolve addGoCommentsForImportPath_local : presby.

Lemma addGoCommentsAll_local ips :
  forall r, preserves local (addGoCommentsAll E r ips).
Proof.
  induction ips as [|ip rest IH]; intros r; cbn [addGoCommentsAll]; pres_by.
Qed.

Hint Resolve addGoCommentsAll_local : presby.

Variable T : types.
Variable fuel : nat.

Lemma Generate_after_resolution model st r st' out s1 :
  resolveImportPaths E T fuel [model] st = Some (Ok out, s1) ->
  Generate E T fuel model st = Some (r, st') ->
  sameGen noResolve s1 st'.
Proof.
  intros Hres H. unfold Generate in H. rewrite (bind_eq_Ok _ _ _ _ _ Hres) in H.
  match type of H with
  | ?c s1 = _ => assert (Hp : preserves (sameGen noResolve) c) by pres_by
  end.
  exact (Hp _ _ _ H).
Qed.

End SecondCall.

(** X26: after [Generate] has returned a schema for a model, generating
    for that model again finds every import path resolved: the second call
    leaves the generator as it is and neither reads a go.mod or a
    directory, nor parses a file, nor runs [go list]. *)
Theorem Generate_again
  (E : Env) (T : types) (fuel : nat) (model : any)
  (st : state) (schema : string) (st' : state)
  (r : result string) (st'' : state) :
  Generate E T fuel model st = Some (Ok schema, st') ->
  Generate E T fuel model st' = Some (r, st'') ->
  gen st'' = gen st'
  /\ exists evs, log st'' = log st' ++ evs /\ List.filter isResolve evs = [].
Proof.
  intros H1 H2.
  assert (Hres : exists out s1,
             resolveImportPaths E T fuel [model] st = Some (Ok out, s1)).
  { unfold Generate in H1. apply bind_Ok in H1 as (out & s1 & Hres & _). eauto. }
  destruct Hres as (out & s1 & Hres).
  destruct (Generate_after_resolution E T fuel _ _ _ _ _ _ Hres H1) as [Hg _].
  pose proof (resolveImportPaths_Ok_fixed _ _ _ _ _ _ _ Hres st' Hg) as Hres2.
  destruct (Generate_after_resolution E T fuel _ _ _ _ _ _ Hres2 H2)
    as [Hg2 (evs & Hlog & Hevs)].
  split; [exact Hg2|]. exists evs. split; [exact Hlog|].
  exact (filter_noResolve _ Hevs).
Qed.

Lemma Generate_again_witness :
  exists st' st'',
    Generate demo.env demo.T 6 (Some demo.tUUID)
      {| gen := {| filesThatMustExist := []; importPaths := [] |}; log := [] |}
    = Some (Ok "{}", st')
    /\ Generate demo.env demo.T 6 (Some demo.tUUID) st' = Some (Ok "{}", st'')
    /\ gen st'' = gen st'
    /\ exists evs, log st'' = log st' ++ evs /\ List.filter isResolve evs = [].
Proof.
  pose (g := {| filesThatMustExist := [];
                importPaths :=
                  [{| ModuleImportPath := "example.com/project/foo";
                      SourceDirectory := "/tmp/x/foo" |};
                   {| ModuleImportPath := "github.com/google/uuid";
                      SourceDirectory :=
                        "/go/pkg/mod/github.com/google/uuid@v1.6.0" |}] |}).
  pose (harvest := [EvGetwd; EvChdir "/tmp/x/foo";
                    EvAddGoComments "example.com/project/foo" ".";
                    EvChdir "/tmp/x/foo";
                    EvGetwd; EvChdir "/go/pkg/mod/github.com/google/uuid@v1.6.0";
                    EvAddGoComments "github.com/google/uuid" ".";
                    EvChdir "/tmp/x/foo";
                    EvReflect (Some demo.tUUID)]).
  pose (tr1 := [EvGetwd; EvReadFile "/tmp/x/foo/go.mod";
                EvReadFile "/tmp/x/go.mod";
                EvReadDir "/tmp/x/foo"; EvParseFile "/tmp/x/foo/foo.go";
                EvGoList "example.com/project/foo" "/tmp/x";
                EvGoList "github.com/google/uuid" ""] ++ harvest).
  assert (H1 : Generate demo.env demo.T 6 (Some demo.tUUID)
                 {| gen := {| filesThatMustExist := []; importPaths := [] |};
                    log := [] |}
               = Some (Ok "{}", {| gen := g; log := tr1 |})).
  { vm_compute. reflexivity. }
  assert (H2 : Generate demo.env demo.T 6 (Some demo.tUUID)
                 {| gen := g; log := tr1 |}
               = Some (Ok "{}", {| gen := g; log := tr1 ++ harvest |})).
  { vm_compute. reflexivity. }
  exists {| gen := g; log := tr1 |}, {| gen := g; log := tr1 ++ harvest |}.
  split; [exact H1|]. split; [exact H2|].
  exact (Generate_again _ _ _ _ _ _ _ _ _ H1 H2).
Defined.

(** ** When [Generate] returns *)

Section GenerateReturns.

Variable E : Env.

Lemma AddGoComments_rets r base dir : returns (AddGoComments E r base dir).
Proof. unfold AddGoComments. rets. Qed.

Hint Resolve AddGoComments_rets : rets.

Lemma addGoCommentsForImportPath_rets r ip :
  returns (addGoCommentsForImportPath E r ip).
Proof. unfold addGoCommentsForImportPath, withWorkingDir. rets. Qed.

Hint Resolve addGoCommentsForImportPath_rets : rets.

Lemma addGoCommentsAll_rets ips :
  forall r, returns (addGoCommentsAll E r ips).
Proof.
  induction ips as [|ip rest IH]; intros r; cbn [addGoCommentsAll]; rets.
Qed.

Hint Resolve addGoCommentsAll_rets statAll_rets : rets.

Variable T : types.
Variable fuel : nat.

Lemma Generate_rets model :
  collectDependentPackages T fuel [model] <> None ->
  returns (Generate E T fuel model).
Proof.
  intros Hwalk. unfold Generate.
  apply returns_bind; [apply resolveImportPaths_rets; exact Hwalk|].
  intros ips. rets.
Qed.

End GenerateReturns.

Lemma Generate_fuel (E : Env) (T : types) (fuel1 fuel2 : nat) (model : any)
  (st : state) :
  collectDependentPackages T fuel1 [model]
  = collectDependentPackages T fuel2 [model] ->
  Generate E T fuel1 model st = Generate E T fuel2 model st.
Proof.
  intros Heq. unfold Generate, resolveImportPaths.
  set (c1 := collectDependentPackages T fuel1 [model]) in *.
  set (c2 := collectDependentPackages T fuel2 [model]) in *.
  clearbody c1 c2. subst c2. reflexivity.
Qed.

Lemma walk_ends_one (T : types) (U : list tid) (d : nat) (model : any)
  (fuel : nat) :
  closedUnder T U = true ->
  pointerDepth T d U = true ->
  (forall t, model = Some t -> In t U) ->
  d + length U < fuel ->
  exists out, collectDependentPackages T fuel [model] = Some out.
Proof.
  intros Hc Hd Hin Hfuel.
  apply (collectDependentPackages_some T U d [model] fuel Hc Hd); [|exact Hfuel].
  intros t [->|[]]. apply Hin. reflexivity.
Qed.

(** X27: the loops and the recursion of [Generate] end, and the bound on
    the walk plays no part in what it returns.  For a model whose types
    lie in a finite set [U] that holds the component types of its members
    and in which taking the pointers off ends within [d] steps, [Generate]
    returns a schema or an error under every bound above [d + length U],
    the same under each, once every call it makes to the operating system,
    to [go list] and to the libraries has returned. *)
Theorem Generate_returns
  (E : Env) (T : types) (U : list tid) (d : nat) (model : any) (st : state)
  (fuel1 fuel2 : nat) :
  closedUnder T U = true ->
  pointerDepth T d U = true ->
  (forall t, model = Some t -> In t U) ->
  d + length U < fuel1 ->
  d + length U < fuel2 ->
  (exists r st', Generate E T fuel1 model st = Some (r, st'))
  /\ Generate E T fuel2 model st = Generate E T fuel1 model st.
Proof.
  intros Hc Hd Hin H1 H2.
  destruct (walk_ends_one T U d model fuel1 Hc Hd Hin H1) as (out1 & Ho1).
  destruct (walk_ends_one T U d model fuel2 Hc Hd Hin H2) as (out2 & Ho2).
  split.
  - assert (Hw : collectDependentPackages T fuel1 [model] <> None)
      by (rewrite Ho1; discriminate).
    exact (Generate_rets E T fuel1 model Hw st).
  - apply Generate_fuel. rewrite Ho1, Ho2. f_equal.
    exact (collectDependentPackages_fuel _ _ _ _ _ _ Ho2 Ho1).
Qed.

Lemma Generate_returns_witness :
  (exists r st',
     Generate demo.env demo.T 19 (Some demo.tSubject)
       {| gen := {| filesThatMustExist := []; importPaths := [] |}; log := [] |}
     = Some (r, st'))
  /\ Generate demo.env demo.T 100 (Some demo.tSubject)
       {| gen := {| filesThatMustExist := []; importPaths := [] |}; log := [] |}
     = Generate demo.env demo.T 19 (Some demo.tSubject)
         {| gen := {| filesThatMustExist := []; importPaths := [] |}; log := [] |}.
Proof.
  apply (Generate_returns demo.env demo.T demo.subjectUniverse 2).
  - vm_compute. reflexivity.
  - vm_compute. reflexivity.
  - intros t [= <-]. vm_compute. auto.
  - vm_compute. lia.
  - vm_compute. lia.
Defined.

(** ** A required file that does not exist *)

Lemma walk_P fuel :
  collectDependentPackages demo.T fuel [Some demo.tP] = None.
Proof.
  unfold collectDependentPackages. cbn [visitModels].
  change (TypeOf (Some demo.tP)) with (Some demo.tP).
  assert (H : visitTypeForPackages demo.T fuel (Some demo.tP) (∅, ∅) = None).
  { destruct fuel as [|fuel]; [reflexivity|].
    cbn [visitTypeForPackages]. rewrite unwrapPtr_P. reflexivity. }
  rewrite H. reflexivity.
Qed.

(** C7: with a required file that does not exist, [Generate] on a model
    of type [P] declared [type P *P] returns no error: it does not return.
    The import paths are resolved before the files are checked, the walk
    over the types of the model is part of that, and on [P] the loop that
    takes the pointers off does not end (the defect of C2).  No bound on
    the steps of the walk gives a result, on a generator made as the test
    makes it. *)
Theorem Generate_hangs_before_file_check :
  forall fuel,
    Generate demo.env demo.T fuel (Some demo.tP)
      {| gen := New ["does-not-exist"] []; log := [] |}
    = None.
Proof.
  intros fuel. unfold Generate. apply bind_eq_None.
  unfold resolveImportPaths. unfold bind at 1, getGen.
  cbn [gen New importPaths length Nat.eqb].
  match goal with
  | |- bind ?c _ ?s = None =>
    assert (Hc : exists ex s1, c s = Some (Ok ex, s1))
  end.
  { eexists _, {| gen := _; log := _ |}. vm_compute. reflexivity. }
  destruct Hc as (ex & s1 & Hc). rewrite (bind_eq_Ok _ _ _ _ _ Hc).
  rewrite walk_P. reflexivity.
Qed.

(** X28: with a required file that does not exist, [Generate] returns no
    schema.  Whatever it returns is an error, reached before any call
    that harvests comments or reflects the model; and for a model whose
    types lie in a finite set [U] that holds the component types of its
    members and in which taking the pointers off ends within [d] steps, it
    does return an error, under every bound on the walk above
    [d + length U].  (Import paths are resolved before the files are
    checked.) *)
Theorem Generate_required_file_missing
  (E : Env) (T : types) (g : generator) (model : any) (tr : trace) (p : string) :
  In p (filesThatMustExist g) ->
  (forall tr', os_Stat E tr' p <> None) ->
  let st := {| gen := g; log := tr |} in
  (forall fuel r st',
     Generate E T fuel model st = Some (r, st') ->
     isErr r = true /\ quiet tr (log st'))
  /\ (forall U d fuel,
        closedUnder T U = true ->
        pointerDepth T d U = true ->
        (forall t, model = Some t -> In t U) ->
        d + length U < fuel ->
        exists e st',
          Generate E T fuel model st = Some (Err e, st')
          /\ quiet tr (log st')).
Proof.
  intros Hin Hp st. split.
  - intros fuel r st' Hgen.
    destruct (resolveImportPaths E T fuel [model] st) as [[r1 st1]|] eqn:Hres.
    + destruct (Generate_after_resolve E T fuel model st r1 st1 p Hres Hin Hp)
        as (e & st2 & Hgen' & Hq).
      rewrite Hgen' in Hgen. injection Hgen as <- <-. split; [reflexivity|].
      exact Hq.
    + unfold Generate in Hgen. rewrite (bind_eq_None _ _ _ Hres) in Hgen.
      discriminate.
  - intros U d fuel Hc Hd Hu Hfuel.
    destruct (walk_ends_one T U d model fuel Hc Hd Hu Hfuel) as (out & Ho).
    assert (Hwalk : collectDependentPackages T fuel [model] <> None)
      by (rewrite Ho; discriminate).
    destruct (resolveImportPaths_rets E T fuel [model] Hwalk st)
      as (r1 & st1 & Hres).
    exact (Generate_after_resolve E T fuel model st r1 st1 p Hres Hin Hp).
Qed.

(** [TestWriteSchemaFailsWhenRequiredMissing]. *)
Lemma Generate_required_file_missing_witness :
  exists e st',
    Generate demo.env demo.T 19 (Some demo.tSubject)
      {| gen := {| filesThatMustExist := ["does-not-exist"];
                   importPaths := [] |};
         log := [] |}
    = Some (Err e, st')
    /\ quiet [] (log st').
Proof.
  apply (proj2 (Generate_required_file_missing demo.env demo.T
                  {| filesThatMustExist := ["does-not-exist"];
                     importPaths := [] |}
                  (Some demo.tSubject) [] "does-not-exist"
                  ltac:(left; reflexivity)
                  ltac:(intros tr'; vm_compute; discriminate))
           demo.subjectUniverse 2 19).
  - vm_compute. reflexivity.
  - vm_compute. reflexivity.
  - intros t [= <-]. vm_compute. auto.
  - vm_compute. lia.
Defined.
